(** * audio2strudel: the analysis pipeline and its two serialisers

    A shallow embedding of the TypeScript sources

      - client/src/lib/midi-export.ts           (sequence-file encoder)
      - the single-file analysis page           (detectPitch, frequencyToNote,
        detectTempo, detectKey, extractMelody, quantizeNotes,
        generateStrudelCode, analyzeAudio)
      - the batch analysis page                 (detectKey, detectTempo,
        generateChords and the inlined segmenter of analyzeAudioFile)
      - the chord half of the single-file page  (transposeNote,
        getKeyTransposition, getChordNameInKey, extractChords,
        extractWaveformData)
      - client/src/components/note-editor.tsx   (parseNote, moveNoteUp,
        moveNoteDown)

    Conventions of the embedding.

      - A JavaScript [number] is an exact rational ([Q]); numeric equality
        ([===] on numbers) is [Qeq].  Values that the code has already
        rounded with [Math.round] or [Math.floor], array indices and
        lengths are integers ([Z]).
      - [Math.round x] is [floor (x + 1/2)], [Math.floor] is [Qfloor],
        the operator [%] on numbers is the truncated remainder.
      - [Math.sqrt], [Math.log2] and [Math.pow] have no rational
        counterpart: they are parameters of the section that needs them,
        and the theorems hold for every choice of them.
      - [-Infinity] as the initial value of a running maximum is [None].
      - The bit operators work on the 32-bit two's complement image of
        their operands ([ToInt32]); a [Uint8Array] stores values modulo 256.
      - A JavaScript string is a [string]; a regular expression is the
        matcher it denotes, written as a function.
      - An array is a list.  Where the code reads [a[i]] the index is
        inside the array on every path the loops allow, and the default
        of [nth] is never what is read. *)

From Stdlib Require Import ZArith QArith Qround Qabs Qminmax.
From Stdlib Require Import List String Ascii Bool Lia Lqa DecimalString.
From Stdlib Require Import DecimalPos.
From Stdlib Require Import Sorting.Sorted Sorting.Permutation.
Import ListNotations.

Local Open Scope Z_scope.

(** ** JavaScript primitives *)

Module JS.

(** [Math.round]: the nearest integer, ties towards plus infinity. *)
Definition Math_round (x : Q) : Z := Qfloor (x + (1 # 2)).

Definition Math_floor (x : Q) : Z := Qfloor x.

(** Truncation towards zero, as in [ToInt32] and in [%]. *)
Definition Qtrunc (x : Q) : Z :=
  if Qle_bool 0 x then Qfloor x else Qceiling x.

(** [x % y] on numbers: the remainder has the sign of the dividend. *)
Definition js_rem (x y : Q) : Q := (x - y * inject_Z (Qtrunc (x / y)))%Q.

(** [ToInt32]: wrap into the signed 32-bit range. *)
Definition ToInt32 (z : Z) : Z := (z + 2 ^ 31) mod 2 ^ 32 - 2 ^ 31.

(** [a & b], [a >> n] for an integer-valued left operand. *)
Definition band (a b : Z) : Z := Z.land (ToInt32 a) (ToInt32 b).
Definition sar (a n : Z) : Z := Z.shiftr (ToInt32 a) (Z.land n 31).

(** Storing into a [Uint8Array]. *)
Definition ToUint8 (z : Z) : Z := z mod 256.

(** [v || d] for an optional number: [undefined] and [0] are falsy. *)
Definition num_or (v : option Q) (d : Q) : Q :=
  match v with
  | Some x => if Qeq_bool x 0 then d else x
  | None => d
  end.

(** Truthiness of an optional number. *)
Definition num_truthy (v : option Q) : bool :=
  match v with
  | Some x => negb (Qeq_bool x 0)
  | None => false
  end.

(** Character classes of the regular expressions. *)
Definition code (c : ascii) : Z := Z.of_nat (nat_of_ascii c).

Definition is_digit (c : ascii) : bool := (48 <=? code c) && (code c <=? 57).
Definition is_upper (c : ascii) : bool := (65 <=? code c) && (code c <=? 90).
Definition is_lower (c : ascii) : bool := (97 <=? code c) && (code c <=? 122).

Definition lower_char (c : ascii) : ascii :=
  if is_upper c then ascii_of_nat (nat_of_ascii c + 32) else c.
Definition upper_char (c : ascii) : ascii :=
  if is_lower c then ascii_of_nat (nat_of_ascii c - 32) else c.

Fixpoint toLowerCase (s : string) : string :=
  match s with
  | EmptyString => EmptyString
  | String c r => String (lower_char c) (toLowerCase r)
  end.

Fixpoint toUpperCase (s : string) : string :=
  match s with
  | EmptyString => EmptyString
  | String c r => String (upper_char c) (toUpperCase r)
  end.

Fixpoint all_digits (s : string) : bool :=
  match s with
  | EmptyString => true
  | String c r => is_digit c && all_digits r
  end.

(** A match of [\d+$]: one digit or more, up to the end. *)
Definition digits1 (s : string) : bool :=
  match s with
  | EmptyString => false
  | String _ _ => all_digits s
  end.

(** [parseInt(s, 10)] on a string of decimal digits. *)
Fixpoint parseInt_acc (acc : Z) (s : string) : Z :=
  match s with
  | EmptyString => acc
  | String c r => parseInt_acc (10 * acc + (code c - 48)) r
  end.
Definition parseInt (s : string) : Z := parseInt_acc 0 s.

(** [String(n)] for an integer-valued number. *)
Definition string_of_Z (z : Z) : string :=
  NilZero.string_of_int (Z.to_int z).

(** [a < b] on numbers. *)
Definition Qltb (a b : Q) : bool := negb (Qle_bool b a).

(** The values [i] of [for (i = start; i < stop; i += step)], [step >= 1]. *)
Fixpoint range_from (fuel : nat) (i stop step : Z) : list Z :=
  match fuel with
  | O => []
  | S k => if i <? stop then i :: range_from k (i + step) stop step else []
  end.

Definition for_range (start stop step : Z) : list Z :=
  range_from (Z.to_nat (stop - start)) start stop step.

(** [a.slice(from, to)] for [0 <= from <= to]. *)
Definition slice {A} (a : list A) (from to : Z) : list A :=
  firstn (Z.to_nat (to - from)) (skipn (Z.to_nat from) a).

(** [a[i] = v] for an index inside the array. *)
Fixpoint set_at {A} (a : list A) (i : nat) (v : A) : list A :=
  match a, i with
  | [], _ => []
  | _ :: r, O => v :: r
  | x :: r, S k => x :: set_at r k v
  end.

Definition len {A} (a : list A) : Z := Z.of_nat (List.length a).

(** [Array.prototype.sort] with a comparison function: a stable sort,
    so among the orderings the comparison allows, the one that keeps
    equal elements in their original order. *)
Section Sort.
Context {A : Type} (cmp : A -> A -> Z).

Fixpoint insert (x : A) (l : list A) : list A :=
  match l with
  | [] => [x]
  | y :: r => if cmp x y <=? 0 then x :: l else y :: insert x r
  end.

Fixpoint sort (l : list A) : list A :=
  match l with
  | [] => []
  | x :: r => insert x (sort r)
  end.
End Sort.

End JS.

(** ** The shared schema: notes and chords

    An optional field that is absent ([undefined]) is [None].  The fields
    [time] and [duration] of a chord are [chord_time] and [chord_duration]
    here, the plain names being those of the note's fields. *)

Record Note := mkNote {
  note : string;
  time : Q;
  duration : option Q;
  velocity : option Q
}.

Record Chord := mkChord {
  notes : list string;
  name : string;
  chord_time : Q;
  chord_duration : option Q
}.

(** ** client/src/lib/midi-export.ts *)

Module MidiExport.
Import JS.
Local Open Scope string_scope.
Local Open Scope list_scope.
Local Open Scope Z_scope.

Definition NOTE_MAP : list (string * Z) :=
  [("c", 0); ("cs", 1); ("d", 2); ("ds", 3); ("e", 4); ("f", 5);
   ("fs", 6); ("g", 7); ("gs", 8); ("a", 9); ("as", 10); ("b", 11)].

Fixpoint lookup (k : string) (m : list (string * Z)) : option Z :=
  match m with
  | [] => None
  | (k', v) :: r => if String.eqb k k' then Some v else lookup k r
  end.

Definition is_a_to_g (c : ascii) : bool :=
  (97 <=? code (lower_char c)) && (code (lower_char c) <=? 103).
Definition is_s (c : ascii) : bool := code (lower_char c) =? 115.

(** [note.match(/^([a-g]s?)(\d+)$/i)]: the optional [s] is tried first. *)
Definition parseNote (n : string) : option (string * Z) :=
  match n with
  | EmptyString => None
  | String c r =>
      if is_a_to_g c then
        match r with
        | EmptyString => None
        | String c2 r2 =>
            if is_s c2 && digits1 r2
            then Some (toLowerCase (String c (String c2 EmptyString)), parseInt r2)
            else if digits1 r
                 then Some (toLowerCase (String c EmptyString), parseInt r)
                 else None
        end
      else None
  end.

Definition noteToMidi (n : string) : Z :=
  match parseNote n with
  | None => 60
  | Some (noteName, octave) =>
      let noteNum := match lookup noteName NOTE_MAP with
                     | Some v => v
                     | None => 0
                     end in
      noteNum + (octave + 1) * 12
  end.

(** The loop of [writeVariableLengthQuantity].  The code pushes at the
    end and returns [bytes.reverse()]; here each byte is put at the front,
    which gives the reversed array at once. *)
Fixpoint vlq_loop (fuel : nat) (v : Z) (bytes : list Z) : list Z :=
  match fuel with
  | O => bytes
  | S k =>
      if 0 <? v
      then vlq_loop k (sar v 7) (Z.lor (band v 127) 128 :: bytes)
      else bytes
  end.

(** After the first [v >>= 7] the value is below [2^24]: four more
    rounds empty it. *)
Definition writeVariableLengthQuantity (value : Z) : list Z :=
  vlq_loop 5 (sar value 7) [band value 127].

Definition writeInt16BE (value : Z) : list Z :=
  [band (sar value 8) 255; band value 255].

Definition writeInt32BE (value : Z) : list Z :=
  [band (sar value 24) 255; band (sar value 16) 255;
   band (sar value 8) 255; band value 255].

Record DeltaEvent := mkDelta { delta : Z; d_data : list Z }.

Definition createMidiTrack (events : list DeltaEvent) : list Z :=
  let trackData :=
    flat_map (fun e => writeVariableLengthQuantity (delta e) ++ d_data e) events
    ++ writeVariableLengthQuantity 0 ++ [255; 47; 0] in
  [77; 84; 114; 107] ++ writeInt32BE (Z.of_nat (List.length trackData)) ++ trackData.

Record MidiExportOptions := mkOptions {
  tempo : Q;
  ppq : option Z;
  includeChords : option bool;
  includeMelody : option bool
}.

Record AbsoluteEvent := mkAbs { absoluteTick : Z; data : list Z }.

Definition opt_default {A} (o : option A) (d : A) : A :=
  match o with Some x => x | None => d end.

Definition ticksPerBeat (o : MidiExportOptions) : Z := opt_default (ppq o) 480.

Definition timeToTicks (o : MidiExportOptions) (t : Q) : Z :=
  Math_round (t * tempo o / 60 * inject_Z (ticksPerBeat o)).

Definition melodyEvents (o : MidiExportOptions) (n : Note) : list AbsoluteEvent :=
  let midiNote := noteToMidi (note n) in
  let vel := Math_round (num_or (velocity n) (8 # 10) * 127) in
  let startTick := timeToTicks o (time n) in
  let durationTicks := Z.max 1 (timeToTicks o (num_or (duration n) (1 # 4))) in
  [mkAbs startTick [144; midiNote; vel];
   mkAbs (startTick + durationTicks) [128; midiNote; 0]].

Definition chordEvents (o : MidiExportOptions) (c : Chord) : list AbsoluteEvent :=
  let startTick := timeToTicks o (chord_time c) in
  let durationTicks := Z.max 1 (timeToTicks o (num_or (chord_duration c) 1)) in
  flat_map (fun noteStr =>
              let midiNote := noteToMidi noteStr in
              [mkAbs startTick [145; midiNote; 80];
               mkAbs (startTick + durationTicks) [129; midiNote; 0]])
           (notes c).

(** The events as pushed, melody first, before the sort. *)
Definition pushedEvents (melody : list Note) (chords : list Chord)
           (o : MidiExportOptions) : list AbsoluteEvent :=
  (if opt_default (includeMelody o) true
   then flat_map (melodyEvents o) melody else [])
  ++
  (if opt_default (includeChords o) true
   then flat_map (chordEvents o) chords else []).

Definition isNoteOff (e : AbsoluteEvent) : bool :=
  band (nth 0 (data e) 0) 240 =? 128.

Definition isNoteOn (e : AbsoluteEvent) : bool :=
  band (nth 0 (data e) 0) 240 =? 144.

(** The comparison function handed to [absoluteEvents.sort]. *)
Definition compareEvents (a b : AbsoluteEvent) : Z :=
  if negb (absoluteTick a =? absoluteTick b)
  then absoluteTick a - absoluteTick b
  else if negb (Bool.eqb (isNoteOff a) (isNoteOff b))
       then (if isNoteOff a then -1 else 1)
       else 0.

Definition absoluteEvents (melody : list Note) (chords : list Chord)
           (o : MidiExportOptions) : list AbsoluteEvent :=
  sort compareEvents (pushedEvents melody chords o).

Fixpoint deltaEncode (lastTick : Z) (evs : list AbsoluteEvent) : list DeltaEvent :=
  match evs with
  | [] => []
  | e :: r =>
      mkDelta (Z.max 0 (absoluteTick e - lastTick)) (data e)
      :: deltaEncode (absoluteTick e) r
  end.

Definition chars (s : string) : list Z :=
  map code (list_ascii_of_string s).

Definition headerChunk (o : MidiExportOptions) : list Z :=
  [77; 84; 104; 100; 0; 0; 0; 6; 0; 1]
  ++ writeInt16BE 2 ++ writeInt16BE (ticksPerBeat o).

Definition tempoTrack (o : MidiExportOptions) : list Z :=
  let microsecondsPerBeat := Math_round (60000000 / tempo o) in
  createMidiTrack
    [mkDelta 0 [255; 81; 3;
                band (sar microsecondsPerBeat 16) 255;
                band (sar microsecondsPerBeat 8) 255;
                band microsecondsPerBeat 255];
     mkDelta 0 [255; 88; 4; 4; 2; 24; 8];
     mkDelta 0 ([255; 3; 11] ++ chars "Audio Track")].

Definition noteTrack (melody : list Note) (chords : list Chord)
           (o : MidiExportOptions) : list Z :=
  createMidiTrack (deltaEncode 0 (absoluteEvents melody chords o)).

Definition exportMelodyToMidi (melody : list Note) (chords : list Chord)
           (o : MidiExportOptions) : list Z :=
  map ToUint8 (headerChunk o ++ tempoTrack o ++ noteTrack melody chords o).

End MidiExport.

(** ** The single-file analysis page *)

Module AudioToStrudel.
Import JS.
Local Open Scope string_scope.
Local Open Scope list_scope.
Local Open Scope Q_scope.

(** [AnalysisParams] of components/analysis-parameters.tsx; the field
    [quantizeNotes] is [doQuantizeNotes] here, the name being taken by
    the function. *)
Record AnalysisParams := mkParams {
  autoDetectTempo : bool;
  targetTempo : Z;
  autoDetectKey : bool;
  targetKey : string;
  timeSignature : string;
  minNoteDuration : Q;
  pitchSensitivity : Q;
  doQuantizeNotes : bool;
  quantizeValue : string
}.

Definition defaultAnalysisParams : AnalysisParams :=
  mkParams true 120 true "C" "4/4" 50 70 true "1/16".

Definition sum_products (xs ys : list Q) : Q :=
  fold_left (fun acc p => acc + fst p * snd p) (combine xs ys) 0.

(** The inner loop of [detectPitch]: the sum of [frame[i] * frame[i + period]]
    over [0 <= i < frame.length - period], for a period that is not negative. *)
Definition autocorr (frame : list Q) (period : Z) : Q :=
  sum_products frame (skipn (Z.to_nat period) frame).

Definition detectPitch (frame : list Q) (sampleRate : Q) : Q :=
  let minPeriod := Math_floor (sampleRate / 1000) in
  let maxPeriod := Math_floor (sampleRate / 80) in
  let best :=
    fold_left
      (fun (st : Q * Z) period =>
         let corr := autocorr frame period in
         if Qltb (fst st) corr then (corr, period) else st)
      (for_range minPeriod maxPeriod 1) (0, 0%Z) in
  let bestPeriod := snd best in
  if (0 <? bestPeriod)%Z then sampleRate / inject_Z bestPeriod else 0.

Definition noteNames : list string :=
  ["c"; "cs"; "d"; "ds"; "e"; "f"; "fs"; "g"; "gs"; "a"; "as"; "b"].

Definition sum_squares (frame : list Q) : Q :=
  fold_left (fun acc x => acc + x * x) frame 0.

Section Segmenter.
(** The three library functions that leave the rationals. *)
Variable Math_sqrt : Q -> Q.
Variable Math_log2 : Q -> Q.
Variable Math_pow : Q -> Q -> Q.

Definition c0 : Q := 440 * Math_pow 2 (- (475 # 100)).

Definition frequencyToNote (freq : Q) : string :=
  if Qltb freq 50 then "rest"
  else
    let halfSteps := 12 * Math_log2 (freq / c0) in
    let octave := Math_floor (halfSteps / 12) in
    let note := Math_round (js_rem halfSteps 12) in
    let clampedNote := Z.rem (Z.rem note 12 + 12) 12 in
    nth (Z.to_nat clampedNote) noteNames "undefined" ++ string_of_Z octave.

Definition frequencyToPitchClass (freq : Q) : Z :=
  if Qltb freq 50 then (-1)%Z
  else
    let halfSteps := 12 * Math_log2 (freq / c0) in
    Z.rem (Z.rem (Math_round halfSteps) 12 + 12) 12.

Definition hopSize : Z := 2048.
Definition frameSize : Z := 4096.

(** The variables that [extractMelody] carries from frame to frame. *)
Record SegState := mkSeg {
  seg_notes : list Note;
  pitchClassHistogram : list Q;
  lastNote : string;
  noteStartTime : Q
}.

Definition rmsThreshold (params : AnalysisParams) : Q :=
  (1 # 100) * (pitchSensitivity params / 100).
Definition minDuration (params : AnalysisParams) : Q :=
  minNoteDuration params / 1000.

(** [lastNote && lastNote !== "rest"] *)
Definition noteOpen (st : SegState) : bool :=
  negb (lastNote st =? EmptyString)%string && negb (lastNote st =? "rest")%string.

(** The three copies of
    [duration = end - noteStartTime; if (duration > minDuration) notes.push(...)]. *)
Definition pushIfLong (params : AnalysisParams) (st : SegState)
           (endTime : Q) : list Note :=
  let d := endTime - noteStartTime st in
  if Qltb (minDuration params) d
  then seg_notes st ++ [mkNote (lastNote st) (noteStartTime st) (Some d) None]
  else seg_notes st.

Definition frameRms (frame : list Q) : Q :=
  Math_sqrt (sum_squares frame / inject_Z (len frame)).

(** One round of the loop of [extractMelody], at sample offset [i]. *)
Definition frameStep (data : list Q) (sampleRate : Q)
           (params : AnalysisParams) (st : SegState) (i : Z) : SegState :=
  let frame := slice data i (i + frameSize) in
  let rms := frameRms frame in
  if Qltb rms (rmsThreshold params) then
    if noteOpen st
    then mkSeg (pushIfLong params st (inject_Z i / sampleRate))
               (pitchClassHistogram st) EmptyString (noteStartTime st)
    else st
  else
    let pitch := detectPitch frame sampleRate in
    let note := frequencyToNote pitch in
    let pitchClass := frequencyToPitchClass pitch in
    let hist :=
      if (0 <=? pitchClass)%Z
      then set_at (pitchClassHistogram st) (Z.to_nat pitchClass)
                  (nth (Z.to_nat pitchClass) (pitchClassHistogram st) 0 + rms)
      else pitchClassHistogram st in
    if negb (note =? "rest")%string && negb (note =? lastNote st)%string
    then mkSeg (if noteOpen st
                then pushIfLong params st (inject_Z i / sampleRate)
                else seg_notes st)
               hist note (inject_Z i / sampleRate)
    else mkSeg (seg_notes st) hist (lastNote st) (noteStartTime st).

Definition initialState : SegState := mkSeg [] (repeat 0 12) EmptyString 0.

Definition frameOffsets (data : list Q) : list Z :=
  for_range 0 (len data - frameSize) hopSize.

(** The state when the loop is left. *)
Definition scanFrames (data : list Q) (sampleRate : Q)
           (params : AnalysisParams) : SegState :=
  fold_left (frameStep data sampleRate params) (frameOffsets data) initialState.

(** The notes before [slice(0, 64)]: the loop, then the closing of the
    note that is still open at the end of the buffer. *)
Definition segmentedNotes (data : list Q) (sampleRate : Q)
           (params : AnalysisParams) : list Note :=
  let st := scanFrames data sampleRate params in
  if noteOpen st
  then pushIfLong params st (inject_Z (len data) / sampleRate)
  else seg_notes st.

Definition extractMelody (data : list Q) (sampleRate : Q)
           (params : AnalysisParams) : list Note * list Q :=
  (firstn 64 (segmentedNotes data sampleRate params),
   pitchClassHistogram (scanFrames data sampleRate params)).

(** *** detectTempo *)

Definition energies (data : list Q) : list Q :=
  map (fun i => Math_sqrt (sum_squares (slice data i (i + 1024)) / 1024))
      (for_range 0 (len data - 1024) 512).

Fixpoint onsetStrength (e : list Q) : list Q :=
  match e with
  | a :: (b :: _) as r => Qmax 0 (b - a) :: onsetStrength r
  | _ => []
  end.

(** [for (beat = offset; beat < onsetStrength.length; beat += beatInterval)] *)
Fixpoint beatLoop (fuel : nat) (os : list Q) (beatInterval beat tempScore : Q) : Q :=
  match fuel with
  | O => tempScore
  | S k =>
      if Qltb beat (inject_Z (len os))
      then
        let index := Math_floor beat in
        beatLoop k os beatInterval (beat + beatInterval)
                 (if (index <? len os)%Z
                  then tempScore + nth (Z.to_nat index) os 0
                  else tempScore)
      else tempScore
  end.

(** The number of rounds after which [beat] has left the array. *)
Definition beatFuel (os : list Q) (beatInterval beat : Q) : nat :=
  Z.to_nat (Qceiling ((inject_Z (len os) - beat) / beatInterval)).

Definition tempScore (os : list Q) (beatInterval : Q) (offset : Z) : Q :=
  beatLoop (beatFuel os beatInterval (inject_Z offset)) os beatInterval
           (inject_Z offset) 0.

(** The score of one candidate: the best phase [0 <= offset < beatInterval]. *)
Definition bpmScore (os : list Q) (framesPerSecond : Q) (bpm : Z) : Q :=
  let beatInterval := (60 / inject_Z bpm) * framesPerSecond in
  fold_left (fun score offset => Qmax score (tempScore os beatInterval offset))
            (for_range 0 (Qceiling beatInterval) 1) 0.

Definition minBpm : Z := 60.
Definition maxBpm : Z := 200.

Definition tempoStep (os : list Q) (framesPerSecond : Q)
           (st : Z * Q) (bpm : Z) : Z * Q :=
  let score := bpmScore os framesPerSecond bpm in
  if Qltb (snd st) score then (bpm, score) else st.

Definition detectTempo (data : list Q) (sampleRate : Q) : Z :=
  let os := onsetStrength (energies data) in
  let framesPerSecond := sampleRate / 512 in
  fst (fold_left (tempoStep os framesPerSecond)
                 (for_range minBpm (maxBpm + 1) 1) (120%Z, 0)).

End Segmenter.

(** *** detectKey *)

Definition majorProfile : list Q :=
  [6.35; 2.23; 3.48; 2.33; 4.38; 4.09; 2.52; 5.19; 2.39; 3.66; 2.29; 2.88].
Definition minorProfile : list Q :=
  [6.33; 2.68; 3.52; 5.38; 2.60; 3.53; 2.54; 4.75; 3.98; 2.69; 3.34; 3.17].

Definition keyNames : list string :=
  ["C"; "C#"; "D"; "D#"; "E"; "F"; "F#"; "G"; "G#"; "A"; "A#"; "B"].

Definition normalize (arr : list Q) : list Q :=
  let sum := fold_left Qplus arr 0 in
  if Qltb 0 sum then map (fun v => v / sum) arr else arr.

Definition shifted (profile : list Q) (shift : nat) : list Q :=
  map (fun i => nth ((i + shift) mod 12) profile 0) (seq 0 (List.length profile)).

(** [for (i = 0; i < 12; i++) corr += hist[i] * profile[i]] *)
Definition correlate (hist profile : list Q) : Q :=
  fold_left (fun corr i => corr + nth i hist 0 * nth i profile 0) (seq 0 12) 0.

(** [x > best], where [best] starts as [-Infinity]. *)
Definition exceeds (x : Q) (best : option Q) : bool :=
  match best with
  | None => true
  | Some b => Qltb b x
  end.

Definition keyStep (normalizedHist : list Q)
           (st : string * option Q) (shift : nat) : string * option Q :=
  let majorCorr :=
    correlate normalizedHist (normalize (shifted majorProfile shift)) in
  let minorCorr :=
    correlate normalizedHist (normalize (shifted minorProfile shift)) in
  let st1 := if exceeds majorCorr (snd st)
             then (nth shift keyNames "undefined", Some majorCorr) else st in
  if exceeds minorCorr (snd st1)
  then ((nth shift keyNames "undefined" ++ "m")%string, Some minorCorr) else st1.

Definition detectKey (pitchClassHistogram : list Q) : string :=
  fst (fold_left (keyStep (normalize pitchClassHistogram)) (seq 0 12) ("C", None)).

(** *** quantizeNotes *)

(** [quantizeMap[quantizeValue] || 0.25]: the four grid values, anything
    else (a name inherited from [Object.prototype] apart) falls back to a
    sixteenth. *)
Definition quantizeMap : list (string * Q) :=
  [("1/4", 1); ("1/8", 0.5); ("1/16", 0.25); ("1/32", 0.125)].

Fixpoint lookupQ (k : string) (m : list (string * Q)) : option Q :=
  match m with
  | [] => None
  | (k', v) :: r => if String.eqb k k' then Some v else lookupQ k r
  end.

Definition gridSize (tempo : Q) (quantizeValue : string) : Q :=
  (60 / tempo) * num_or (lookupQ quantizeValue quantizeMap) 0.25.

Definition quantizeNote (gridSize : Q) (n : Note) : Note :=
  mkNote (note n)
         (inject_Z (Math_round (time n / gridSize)) * gridSize)
         (match duration n with
          | Some d =>
              if Qeq_bool d 0 then None
              else Some (Qmax gridSize (inject_Z (Math_round (d / gridSize)) * gridSize))
          | None => None
          end)
         (velocity n).

Definition quantizeNotes (notes : list Note) (tempo : Q)
           (quantizeValue : string) : list Note :=
  if (quantizeValue =? "none")%string then notes
  else map (quantizeNote (gridSize tempo quantizeValue)) notes.

(** *** generateStrudelCode *)

Record StrudelCode := mkCode {
  melody : string;
  chords : string;
  combined : string
}.

Definition dq : string := String (ascii_of_nat 34) EmptyString.
Definition nl : string := String (ascii_of_nat 10) EmptyString.

Fixpoint split (sep : ascii) (s : string) : list string :=
  match s with
  | EmptyString => [EmptyString]
  | String c r =>
      if Ascii.eqb c sep then EmptyString :: split sep r
      else match split sep r with
           | h :: t => String c h :: t
           | [] => [String c EmptyString]
           end
  end.

Fixpoint join (sep : string) (l : list string) : string :=
  match l with
  | [] => EmptyString
  | [x] => x
  | x :: r => x ++ sep ++ join sep r
  end.

Definition is_letter_a_g (c : ascii) : bool :=
  ((97 <=? code c) && (code c <=? 103) || (65 <=? code c) && (code c <=? 71))%Z.

(** [note.match(/^([A-Ga-g])([#b]?)(\d+)$/)] and the re-spelling of the
    accidental. *)
Definition formatNoteForStrudel (n : string) : string :=
  match n with
  | String c (String c2 r2 as r) =>
      if is_letter_a_g c then
        if (Ascii.eqb c2 "#" || Ascii.eqb c2 "b") && digits1 r2
        then String (lower_char c) (if Ascii.eqb c2 "#" then "s" else "f") ++ r2
        else if digits1 r then String (lower_char c) r
             else toLowerCase n
      else toLowerCase n
  | _ => toLowerCase n
  end.

Section Strudel.
(** [Number(s)]; [None] stands for [NaN] and the infinities. *)
Variable Number : string -> option Q.

(** [(60 / tempo) * (4 / noteValue)], when it is a finite number
    other than zero. *)
Definition beatDuration (tempo : Z) (timeSignature : string) : option Q :=
  match map Number (split "/" timeSignature) with
  | _ :: Some noteValue :: _ =>
      if Qeq_bool noteValue 0 || (tempo =? 0)%Z then None
      else Some ((60 / inject_Z tempo) * (4 / noteValue))
  | _ => None
  end.

Definition near (x target : Q) : bool := Qltb (Qabs (x - target)) 0.1.

Definition withDuration (bd : option Q) (formatted : string)
           (d : option Q) : string :=
  if negb (num_truthy d) then formatted
  else
    match bd, d with
    | Some b, Some dur =>
        let durationBeats := dur / b in
        if near durationBeats 0.5 then formatted ++ "*0.5"
        else if near durationBeats 1 then formatted
        else if near durationBeats 2 then formatted ++ "*2"
        else if near durationBeats 4 then formatted ++ "*4"
        else formatted
    | _, _ => formatted
    end.

Definition pattern (body : string) : string :=
  "note(" ++ dq ++ body ++ dq ++ ").sound(" ++ dq ++ "piano" ++ dq ++ ")".

Definition generateStrudelCode (melody : list Note) (chords : list Chord)
           (tempo : Z) (timeSignature : string) : StrudelCode :=
  let bd := beatDuration tempo timeSignature in
  let melodyWithDuration :=
    join " " (map (fun n => withDuration bd (formatNoteForStrudel (note n))
                                         (duration n)) melody) in
  let melodyStrudel :=
    if (0 <? len melody)%Z then pattern melodyWithDuration else pattern "~" in
  let chordWithDuration :=
    join " " (map (fun c =>
                     withDuration bd
                       ("[" ++ join "," (map formatNoteForStrudel (notes c)) ++ "]")
                       (chord_duration c)) chords) in
  let chordStrudel :=
    if (0 <? len chords)%Z then pattern chordWithDuration else pattern "~" in
  mkCode melodyStrudel chordStrudel
    ("// Tempo: " ++ string_of_Z tempo ++ " BPM, Time Signature: "
     ++ timeSignature ++ nl
     ++ "// Melody: " ++ string_of_Z (len melody) ++ " notes, Chords: "
     ++ string_of_Z (len chords) ++ " chords" ++ nl
     ++ "stack(" ++ nl
     ++ "  " ++ melodyStrudel ++ "," ++ nl
     ++ "  " ++ chordStrudel ++ nl
     ++ ").cpm(" ++ string_of_Z (Math_round (inject_Z tempo / 4)) ++ ")").
End Strudel.

(** *** analyzeAudio: the melody it stores in the result *)

Section Pipeline.
Variable Math_sqrt : Q -> Q.
Variable Math_log2 : Q -> Q.
Variable Math_pow : Q -> Q -> Q.

Definition estimatedTempo (data : list Q) (sampleRate : Q)
           (params : AnalysisParams) : Z :=
  if autoDetectTempo params then detectTempo Math_sqrt data sampleRate
  else targetTempo params.

Definition analyzedMelody (data : list Q) (sampleRate : Q)
           (params : AnalysisParams) : list Note :=
  let rawMelody :=
    fst (extractMelody Math_sqrt Math_log2 Math_pow data sampleRate params) in
  if doQuantizeNotes params
  then quantizeNotes rawMelody
                     (inject_Z (estimatedTempo data sampleRate params))
                     (quantizeValue params)
  else rawMelody.

Definition detectedKey (data : list Q) (sampleRate : Q)
           (params : AnalysisParams) : string :=
  if autoDetectKey params
  then detectKey (snd (extractMelody Math_sqrt Math_log2 Math_pow
                                    data sampleRate params))
  else targetKey params.
End Pipeline.

End AudioToStrudel.

(** ** The batch analysis page

    Its own copies of the pitch detector, the pitch namer, the key and
    tempo estimators, and the segmenter that [analyzeAudioFile] carries
    inline. *)

Module BatchProcessing.
Import JS.
Local Open Scope string_scope.
Local Open Scope list_scope.
Local Open Scope Q_scope.

Definition detectPitch (frame : list Q) (sampleRate : Q) : Q :=
  let minPeriod := Math_floor (sampleRate / 1000) in
  let maxPeriod := Math_floor (sampleRate / 80) in
  (* period < maxPeriod && period < frame.length / 2 *)
  let stop := Z.min maxPeriod ((len frame + 1) / 2) in
  let best :=
    fold_left
      (fun (st : Q * Z) period =>
         let correlation := AudioToStrudel.autocorr frame period in
         if Qltb (fst st) correlation then (correlation, period) else st)
      (for_range minPeriod stop 1) (0, 0%Z) in
  let bestPeriod := snd best in
  if (bestPeriod =? 0)%Z then 0 else sampleRate / inject_Z bestPeriod.

Definition noteNames : list string := AudioToStrudel.noteNames.

Definition KEY_PROFILES_major : list Q := AudioToStrudel.majorProfile.
Definition KEY_PROFILES_minor : list Q := AudioToStrudel.minorProfile.

Section Segmenter.
Variable Math_sqrt : Q -> Q.
Variable Math_log2 : Q -> Q.

Definition frequencyToNote (frequency : Q) : string :=
  if Qle_bool frequency 0 then EmptyString
  else
    let halfStepsFromA4 := 12 * Math_log2 (frequency / 440) in
    let noteIndex := (Math_round halfStepsFromA4 + 57)%Z in
    if ((noteIndex <? 0) || (127 <? noteIndex))%Z then EmptyString
    else
      let octave := (noteIndex / 12)%Z in
      let noteNameIndex := (noteIndex mod 12)%Z in
      nth (Z.to_nat noteNameIndex) noteNames "undefined" ++ string_of_Z octave.

Definition frameSize : Z := 2048.
Definition hopSize : Z := 512.

Record SegState := mkSeg {
  seg_notes : list Note;
  lastNote : string;
  noteStartTime : Q
}.

Definition minAmplitude (params : AudioToStrudel.AnalysisParams) : Q :=
  (100 - AudioToStrudel.pitchSensitivity params) / 1000.
Definition minNoteDurationSec (params : AudioToStrudel.AnalysisParams) : Q :=
  AudioToStrudel.minNoteDuration params / 1000.

(** [duration = end - noteStartTime;
     if (duration >= minNoteDurationSec) notes.push({..., velocity})] *)
Definition pushIfLong (params : AudioToStrudel.AnalysisParams)
           (st : SegState) (endTime vel : Q) : list Note :=
  let d := endTime - noteStartTime st in
  if Qle_bool (minNoteDurationSec params) d
  then seg_notes st ++ [mkNote (lastNote st) (noteStartTime st) (Some d) (Some vel)]
  else seg_notes st.

Definition noteOpen (st : SegState) : bool :=
  negb (lastNote st =? EmptyString)%string.

Definition frameRms (frame : list Q) : Q :=
  Math_sqrt (AudioToStrudel.sum_squares frame / inject_Z (len frame)).

(** One round of the frame loop of [analyzeAudioFile]. *)
Definition frameStep (channelData : list Q) (sampleRate : Q)
           (params : AudioToStrudel.AnalysisParams)
           (st : SegState) (i : Z) : SegState :=
  let frame := slice channelData i (i + frameSize) in
  let rms := frameRms frame in
  if Qltb rms (minAmplitude params) then
    if noteOpen st
    then mkSeg (pushIfLong params st (inject_Z i / sampleRate) (Qmin 1 (rms * 10)))
               EmptyString (noteStartTime st)
    else st
  else
    let frequency := detectPitch frame sampleRate in
    if Qltb frequency 80 || Qltb 2000 frequency then st
    else
      let note := frequencyToNote frequency in
      if negb (note =? lastNote st)%string
      then mkSeg (if noteOpen st
                  then pushIfLong params st (inject_Z i / sampleRate)
                                  (Qmin 1 (rms * 10))
                  else seg_notes st)
                 note (inject_Z i / sampleRate)
      else st.

Definition initialState : SegState := mkSeg [] EmptyString 0.

Definition scanFrames (channelData : list Q) (sampleRate : Q)
           (params : AudioToStrudel.AnalysisParams) : SegState :=
  fold_left (frameStep channelData sampleRate params)
            (for_range 0 (len channelData - frameSize) hopSize) initialState.

(** The [notes] of [analyzeAudioFile]; [bufferDuration] is
    [audioBuffer.duration]. *)
Definition segmentedNotes (channelData : list Q) (sampleRate bufferDuration : Q)
           (params : AudioToStrudel.AnalysisParams) : list Note :=
  let st := scanFrames channelData sampleRate params in
  if noteOpen st then pushIfLong params st bufferDuration 0.8
  else seg_notes st.
End Segmenter.

(** *** detectKey *)

Definition in_class_a_g_s (c : ascii) : bool :=
  ((97 <=? code c) && (code c <=? 103) || (code c =? 115))%Z.

(** The longest prefix of [s] in the class [a-gs], and what follows it. *)
Fixpoint span_class (s : string) : string * string :=
  match s with
  | EmptyString => (EmptyString, EmptyString)
  | String c r =>
      if in_class_a_g_s c
      then let (p, q) := span_class r in (String c p, q)
      else (EmptyString, s)
  end.

(** [note.match(/^([a-gs]+)(\d+)$/)]: the first group, when it matches. *)
Definition matchNoteName (n : string) : option string :=
  let (p, q) := span_class n in
  if negb (p =? EmptyString)%string && digits1 q then Some p else None.

Fixpoint indexOf_from (i : Z) (l : list string) (x : string) : Z :=
  match l with
  | [] => (-1)%Z
  | y :: r => if (x =? y)%string then i else indexOf_from (i + 1) r x
  end.
Definition indexOf (l : list string) (x : string) : Z := indexOf_from 0 l x.

Definition chromaStep (chromaCounts : list Q) (n : Note) : list Q :=
  match matchNoteName (note n) with
  | Some g =>
      let noteIndex := indexOf noteNames (toLowerCase g) in
      if (0 <=? noteIndex)%Z
      then set_at chromaCounts (Z.to_nat noteIndex)
                  (nth (Z.to_nat noteIndex) chromaCounts 0
                   + num_or (duration n) 0.25 * num_or (velocity n) 0.8)
      else chromaCounts
  | None => chromaCounts
  end.

Definition chromaCounts (notes : list Note) : list Q :=
  fold_left chromaStep notes (repeat 0 12).

(** [s.replace("S", "#")]: the first [S] only. *)
Fixpoint replace_S (s : string) : string :=
  match s with
  | EmptyString => EmptyString
  | String c r => if Ascii.eqb c "S" then String "#" r else String c (replace_S r)
  end.

Definition keyLabel (i : nat) : string :=
  replace_S (toUpperCase (nth i noteNames "undefined")).

Definition keyStep (counts : list Q)
           (st : string * option Q) (i : nat) : string * option Q :=
  let rotatedCounts := skipn i counts ++ firstn i counts in
  let majorCorr := AudioToStrudel.correlate rotatedCounts KEY_PROFILES_major in
  let minorCorr := AudioToStrudel.correlate rotatedCounts KEY_PROFILES_minor in
  let st1 := if AudioToStrudel.exceeds majorCorr (snd st)
             then (keyLabel i, Some majorCorr) else st in
  if AudioToStrudel.exceeds minorCorr (snd st1)
  then ((keyLabel i ++ "m")%string, Some minorCorr) else st1.

Definition detectKey (notes : list Note) : string :=
  fst (fold_left (keyStep (chromaCounts notes)) (seq 0 12) ("C", None)).

(** *** detectTempo *)

Definition windowSize (sampleRate : Q) : Z :=
  Math_floor (sampleRate * 0.05).

Definition energyValues (channelData : list Q) (windowSize : Z) : list Q :=
  map (fun i => AudioToStrudel.sum_squares (slice channelData i (i + windowSize)))
      (for_range 0 (len channelData - windowSize) windowSize).

(** The indices [i >= from] at which the energy jumps. *)
Fixpoint onsetIndices (from : Z) (e : list Q) : list Z :=
  match e with
  | a :: (b :: _) as r =>
      if Qltb (a * 1.5) b && Qltb 0.01 b
      then from :: onsetIndices (from + 1) r
      else onsetIndices (from + 1) r
  | _ => []
  end.

Definition onsets (e : list Q) (windowSize : Z) (sampleRate : Q) : list Q :=
  map (fun i => inject_Z i * inject_Z windowSize / sampleRate) (onsetIndices 1 e).

Fixpoint intervals (onsets : list Q) : list Q :=
  match onsets with
  | a :: (b :: _) as r => (b - a) :: intervals r
  | _ => []
  end.

(** [while (tempo < 60) tempo *= 2]; [None] when the rounds run out. *)
Fixpoint doubleUp (fuel : nat) (tempo : Q) : option Q :=
  match fuel with
  | O => None
  | S k => if Qltb tempo 60 then doubleUp k (tempo * 2) else Some tempo
  end.

(** [while (tempo > 200) tempo /= 2] *)
Fixpoint halveDown (fuel : nat) (tempo : Q) : option Q :=
  match fuel with
  | O => None
  | S k => if Qltb 200 tempo then halveDown k (tempo / 2) else Some tempo
  end.

Definition doubleFuel (tempo : Q) : nat := S (Z.to_nat (Qceiling (60 / tempo))).
Definition halveFuel (tempo : Q) : nat := S (Z.to_nat (Qceiling (tempo / 200))).

(** [detectTempo(audioBuffer)]; [None] when the code does not return:
    a window of no samples never advances the first loop, and a tempo
    that is not positive is never doubled past 60. *)
Definition detectTempo (channelData : list Q) (sampleRate : Q) : option Z :=
  let ws := windowSize sampleRate in
  if (ws <=? 0)%Z && (0 <? len channelData - ws)%Z then None
  else
    let os := onsets (energyValues channelData ws) ws sampleRate in
    if (len os <? 2)%Z then Some 120%Z
    else
      let ivs := intervals os in
      let avgInterval := fold_left Qplus ivs 0 / inject_Z (len ivs) in
      let tempo := 60 / avgInterval in
      match doubleUp (doubleFuel tempo) tempo with
      | None => None
      | Some t1 =>
          match halveDown (halveFuel t1) t1 with
          | None => None
          | Some t2 => Some (Math_round t2)
          end
      end.

End BatchProcessing.

(** ** The chord half of the single-file page

    [transposeNote], [getKeyTransposition], [getChordNameInKey],
    [extractChords] and [extractWaveformData] of the same file as
    [AudioToStrudel], and [MUSICAL_KEYS] of
    components/analysis-parameters.tsx. *)

Module ChordExtraction.
Import JS.
Local Open Scope string_scope.
Local Open Scope list_scope.
Local Open Scope Z_scope.

(** What follows [t] in [s], when [s] starts with [t]. *)
Fixpoint starts_with (t s : string) : option string :=
  match t, s with
  | EmptyString, _ => Some s
  | String a t', String b s' => if Ascii.eqb a b then starts_with t' s' else None
  | String _ _, EmptyString => None
  end.

(** [s.includes(t)] *)
Fixpoint includes (s t : string) : bool :=
  match starts_with t s with
  | Some _ => true
  | None =>
      match s with
      | EmptyString => false
      | String _ r => includes r t
      end
  end.

(** [s.replace(t, u)] with a string for pattern: the first occurrence
    only ([u] holds no dollar sign at any call). *)
Fixpoint replace (s t u : string) : string :=
  match starts_with t s with
  | Some rest => (u ++ rest)%string
  | None =>
      match s with
      | EmptyString => EmptyString
      | String c r => String c (replace r t u)
      end
  end.

Definition noteNames : list string := AudioToStrudel.noteNames.

(** [note.match(/^([a-gs]+)(\d+)$/)]: the two groups. *)
Definition matchNote (n : string) : option (string * string) :=
  let (p, q) := BatchProcessing.span_class n in
  if negb (p =? EmptyString)%string && digits1 q then Some (p, q) else None.

Definition transposeNote (note : string) (semitones : Z) : string :=
  match matchNote note with
  | None => note
  | Some (noteName, octaveStr) =>
      let octave := parseInt octaveStr in
      let noteIndex := BatchProcessing.indexOf noteNames noteName in
      if noteIndex =? -1 then note
      else
        let newIndex := noteIndex + semitones in
        let newNoteIndex := Z.rem (Z.rem newIndex 12 + 12) 12 in
        let octaveChange := newIndex / 12 in
        (nth (Z.to_nat newNoteIndex) noteNames "undefined"
         ++ string_of_Z (octave + octaveChange))%string
  end.

(** The table of [getKeyTransposition]; a root that is not in it (a name
    inherited from [Object.prototype] apart) counts as 0. *)
Definition noteToSemitone : list (string * Z) :=
  [("C", 0); ("C#", 1); ("C#/Db", 1); ("Db", 1);
   ("D", 2); ("D#", 3); ("D#/Eb", 3); ("Eb", 3);
   ("E", 4);
   ("F", 5); ("F#", 6); ("F#/Gb", 6); ("Gb", 6);
   ("G", 7); ("G#", 8); ("G#/Ab", 8); ("Ab", 8);
   ("A", 9); ("A#", 10); ("A#/Bb", 10); ("Bb", 10);
   ("B", 11)].

(** The six calls of [replace] on a key, each with the empty string as
    replacement: of [m], then of [/Db], [/Eb], [/Gb], [/Ab] and [/Bb]. *)
Definition keyRoot (key : string) : string :=
  replace (replace (replace (replace (replace (replace key
    "m" EmptyString) "/Db" EmptyString) "/Eb" EmptyString)
    "/Gb" EmptyString) "/Ab" EmptyString) "/Bb" EmptyString.

Definition getKeyTransposition (fromKey toKey : string) : Z :=
  let fromSemi :=
    MidiExport.opt_default (MidiExport.lookup (keyRoot fromKey) noteToSemitone) 0 in
  let toSemi :=
    MidiExport.opt_default (MidiExport.lookup (keyRoot toKey) noteToSemitone) 0 in
  toSemi - fromSemi.

Definition chordNoteNames : list string := AudioToStrudel.keyNames.

Definition is_A_to_G (c : ascii) : bool := (65 <=? code c) && (code c <=? 71).

(** The dot of a regular expression matches no line break. *)
Fixpoint no_line_break (s : string) : bool :=
  match s with
  | EmptyString => true
  | String c r => negb (code c =? 10) && negb (code c =? 13) && no_line_break r
  end.

(** The match of [baseName] in [getChordNameInKey]: a root, which is a
    letter A to G and a sharp sign if one follows, and for suffix what
    is left, up to the end and free of line breaks. *)
Definition matchChordName (baseName : string) : option (string * string) :=
  match baseName with
  | String c r =>
      if is_A_to_G c && no_line_break r then
        match r with
        | String "#" r' => Some (String c "#", r')
        | _ => Some (String c EmptyString, r)
        end
      else None
  | EmptyString => None
  end.

Definition getChordNameInKey (baseName : string) (semitones : Z) : string :=
  match matchChordName baseName with
  | None => baseName
  | Some (root, suffix) =>
      let rootIndex := BatchProcessing.indexOf chordNoteNames root in
      if rootIndex =? -1 then baseName
      else
        let newIndex := Z.rem (Z.rem (rootIndex + semitones) 12 + 12) 12 in
        (nth (Z.to_nat newIndex) chordNoteNames "undefined" ++ suffix)%string
  end.

(** A chord template; its field [degree] is copied and never read. *)
Record ChordTemplate := mkTemplate {
  t_notes : list string;
  t_name : string
}.

Definition majorChordTemplates : list ChordTemplate :=
  [mkTemplate ["c3"; "e3"; "g3"] "C";
   mkTemplate ["d3"; "f3"; "a3"] "Dm";
   mkTemplate ["e3"; "g3"; "b3"] "Em";
   mkTemplate ["f3"; "a3"; "c4"] "F";
   mkTemplate ["g3"; "b3"; "d4"] "G";
   mkTemplate ["a3"; "c4"; "e4"] "Am"].

Definition minorChordTemplates : list ChordTemplate :=
  [mkTemplate ["a2"; "c3"; "e3"] "Am";
   mkTemplate ["b2"; "d3"; "f3"] "Bdim";
   mkTemplate ["c3"; "e3"; "g3"] "C";
   mkTemplate ["d3"; "f3"; "a3"] "Dm";
   mkTemplate ["e3"; "g3"; "b3"] "Em";
   mkTemplate ["f3"; "a3"; "c4"] "F";
   mkTemplate ["g3"; "b3"; "d4"] "G"].

Definition isMinorKey (detectedKey : string) : bool :=
  includes detectedKey "m" && negb (includes detectedKey "maj").

(** [templates.map(...)]: the templates moved into the detected key. *)
Definition transposedChords (detectedKey : string) : list ChordTemplate :=
  let isMinor := isMinorKey detectedKey in
  let baseKey := if isMinor then "Am" else "C" in
  let transposition := getKeyTransposition baseKey detectedKey in
  let templates := if isMinor then minorChordTemplates else majorChordTemplates in
  map (fun chord =>
         mkTemplate (map (fun n => transposeNote n transposition) (t_notes chord))
                    (getChordNameInKey (t_name chord) transposition))
      templates.

Definition segmentEnergy (segment : list Q) : Q :=
  fold_left (fun energy x => (energy + Qabs x)%Q) segment 0%Q.

(** [extractChords]; the parameter [sampleRate] is not read.  An index
    outside the table, where the code would read a field of
    [undefined], gives the template of no notes named [undefined]. *)
Definition extractChords (data : list Q) (sampleRate duration : Q)
           (detectedKey : string) : list Chord :=
  let table := transposedChords detectedKey in
  let segmentDuration := 2 in
  let numSegments := Z.min 8 (Math_floor (duration / inject_Z segmentDuration)) in
  let samplesPerSegment := len data / Z.max 1 numSegments in
  map (fun i =>
         let startSample := i * samplesPerSegment in
         let segment := slice data startSample (startSample + samplesPerSegment) in
         let energy := segmentEnergy segment in
         let chordIndex :=
           Math_floor (js_rem (energy * 1000) (inject_Z (len table))) in
         let chord := nth (Z.to_nat chordIndex) table (mkTemplate [] "undefined") in
         mkChord (t_notes chord) (t_name chord)
                 (inject_Z (i * segmentDuration))
                 (Some (inject_Z segmentDuration)))
      (for_range 0 numSegments 1).

(** [Math.max(...a)] of an array of numbers; [None] is [-Infinity]. *)
Definition Math_max (a : list Q) : option Q :=
  match a with
  | [] => None
  | x :: r => Some (fold_left Qmax r x)
  end.

(** [extractWaveformData]; [None] stands for the array of 200 [NaN]
    that comes out of a division of zero by zero, which the rationals
    do not have: a block of no samples, or a largest block mean of 0. *)
Definition extractWaveformData (data : list Q) : option (list Q) :=
  let samples := 200 in
  let blockSize := len data / samples in
  let sums :=
    map (fun i =>
           let blockStart := blockSize * i in
           segmentEnergy (slice data blockStart (blockStart + blockSize)))
        (for_range 0 samples 1) in
  if blockSize =? 0 then None
  else
    let filteredData := map (fun sum => (sum / inject_Z blockSize)%Q) sums in
    match Math_max filteredData with
    | None => None
    | Some maxVal =>
        if Qeq_bool maxVal 0 then None
        else Some (map (fun val => (val / maxVal)%Q) filteredData)
    end.

(** The keys of the parameter panel. *)
Definition MUSICAL_KEYS : list string :=
  ["C"; "C#/Db"; "D"; "D#/Eb"; "E"; "F"; "F#/Gb"; "G"; "G#/Ab"; "A"; "A#/Bb"; "B";
   "Cm"; "C#m/Dbm"; "Dm"; "D#m/Ebm"; "Em"; "Fm"; "F#m/Gbm"; "Gm"; "G#m/Abm";
   "Am"; "A#m/Bbm"; "Bm"].

End ChordExtraction.

(** ** The chords of the batch page *)

Module BatchChords.
Import JS.
Local Open Scope string_scope.
Local Open Scope list_scope.
Local Open Scope Z_scope.

Definition noteNames : list string := AudioToStrudel.noteNames.

(** The table of [generateChords]; a key that is not in it (a name
    inherited from [Object.prototype] apart) takes the row of C. *)
Definition chordProgressions : list (string * list string) :=
  [("C", ["C"; "Am"; "F"; "G"]);
   ("G", ["G"; "Em"; "C"; "D"]);
   ("D", ["D"; "Bm"; "G"; "A"]);
   ("A", ["A"; "F#m"; "D"; "E"]);
   ("E", ["E"; "C#m"; "A"; "B"]);
   ("F", ["F"; "Dm"; "Bb"; "C"]);
   ("Cm", ["Cm"; "Ab"; "Eb"; "G"]);
   ("Am", ["Am"; "F"; "C"; "G"]);
   ("Em", ["Em"; "C"; "G"; "D"]);
   ("Dm", ["Dm"; "Bb"; "F"; "C"])].

Fixpoint lookupProgression (k : string) (m : list (string * list string))
  : option (list string) :=
  match m with
  | [] => None
  | (k', v) :: r => if String.eqb k k' then Some v else lookupProgression k r
  end.

(** [s.replace(/m$/, e)] with the empty string for [e]: a final [m]
    is dropped. *)
Fixpoint dropFinal_m (s : string) : string :=
  match s with
  | EmptyString => EmptyString
  | String c EmptyString => if Ascii.eqb c "m" then EmptyString else s
  | String c r => String c (dropFinal_m r)
  end.

Definition chordIntervals_maj : list Z := [0; 4; 7].
Definition chordIntervals_min : list Z := [0; 3; 7].

Definition chordOf (progression : list string) (chordDuration : Q) (i : Z)
  : list Chord :=
  let chordName := nth (Z.to_nat i) progression "undefined" in
  let isMinor := ChordExtraction.includes chordName "m"
                 && negb (ChordExtraction.includes chordName "maj") in
  let rootNote :=
    toLowerCase (ChordExtraction.replace (dropFinal_m chordName) "#" "s") in
  let rootIndex := BatchProcessing.indexOf noteNames rootNote in
  if 0 <=? rootIndex then
    let intervals := if isMinor then chordIntervals_min else chordIntervals_maj in
    let chordNotes :=
      map (fun interval =>
             let noteIndex := (rootIndex + interval) mod 12 in
             (nth (Z.to_nat noteIndex) noteNames "undefined" ++ "4")%string)
          intervals in
    [mkChord chordNotes chordName (inject_Z i * chordDuration) (Some chordDuration)]
  else [].

Definition generateChords (notes : list Note) (key : string) : list Chord :=
  if len notes <? 4 then []
  else
    let progression :=
      match lookupProgression key chordProgressions with
      | Some p => p
      | None => ["C"; "Am"; "F"; "G"]
      end in
    let lastNote := last notes (mkNote EmptyString 0 None None) in
    let duration := (time lastNote + num_or (duration lastNote) 0.25)%Q in
    let chordDuration := (duration / inject_Z (len progression))%Q in
    flat_map (chordOf progression chordDuration)
             (for_range 0 (len progression) 1).

End BatchChords.

(** ** client/src/components/note-editor.tsx: moving a note by a semitone

    [parseNote], [formatNote], [moveNoteUp] and [moveNoteDown] of the
    note editor, whose melody goes to the pattern generator and to the
    sequence-file encoder. *)

Module NoteEditor.
Import JS.
Local Open Scope string_scope.
Local Open Scope list_scope.
Local Open Scope Z_scope.

Definition NOTE_NAMES : list string :=
  ["C"; "C#"; "D"; "D#"; "E"; "F"; "F#"; "G"; "G#"; "A"; "A#"; "B"].

(** [a[i]] for an index that may be outside the array. *)
Definition at_index (a : list string) (i : Z) : string :=
  if i <? 0 then "undefined" else nth (Z.to_nat i) a "undefined".

(** The match of [note] in [parseNote]: a letter a to g in either case
    and a sharp sign if one follows, then octave digits or nothing, up
    to the end.  Without a match the note counts as C4; without digits
    the octave is 4. *)
Definition parseNote (note : string) : string * Z :=
  match note with
  | String c r =>
      if AudioToStrudel.is_letter_a_g c then
        let (root, digits) :=
          match r with
          | String c2 r' =>
              if Ascii.eqb c2 "#" then (String c "#", r')
              else (String c EmptyString, r)
          | EmptyString => (String c EmptyString, r)
          end in
        if all_digits digits
        then (toUpperCase root,
              match digits with
              | EmptyString => 4
              | String _ _ => parseInt digits
              end)
        else ("C", 4)
      else ("C", 4)
  | EmptyString => ("C", 4)
  end.

Definition formatNote (noteName : string) (octave : Z) : string :=
  noteName ++ string_of_Z octave.

(** The name that [moveNoteUp] stores for a note. *)
Definition raisedNote (note : string) : string :=
  let (noteName, octave) := parseNote note in
  let noteIdx := BatchProcessing.indexOf NOTE_NAMES noteName in
  if noteIdx =? len NOTE_NAMES - 1
  then formatNote (at_index NOTE_NAMES 0) (Z.min (octave + 1) 7)
  else formatNote (at_index NOTE_NAMES (noteIdx + 1)) octave.

(** The name that [moveNoteDown] stores for a note. *)
Definition loweredNote (note : string) : string :=
  let (noteName, octave) := parseNote note in
  let noteIdx := BatchProcessing.indexOf NOTE_NAMES noteName in
  if noteIdx =? 0
  then formatNote (at_index NOTE_NAMES (len NOTE_NAMES - 1)) (Z.max (octave - 1) 2)
  else formatNote (at_index NOTE_NAMES (noteIdx - 1)) octave.

(** [updateNote(index, { note })]: a copy of the melody with the name
    of one note replaced. *)
Definition updateNote (melody : list Note) (index : nat) (newName : string)
  : list Note :=
  match nth_error melody index with
  | Some n => set_at melody index (mkNote newName (time n) (duration n) (velocity n))
  | None => melody
  end.

(** [moveNoteUp(index)] and [moveNoteDown(index)]: the melody handed to
    [onMelodyChange]; [None] where [melody[index].note] throws, the
    index being outside the melody. *)
Definition moveNoteUp (melody : list Note) (index : nat) : option (list Note) :=
  match nth_error melody index with
  | Some n => Some (updateNote melody index (raisedNote (note n)))
  | None => None
  end.

Definition moveNoteDown (melody : list Note) (index : nat) : option (list Note) :=
  match nth_error melody index with
  | Some n => Some (updateNote melody index (loweredNote (note n)))
  | None => None
  end.

End NoteEditor.

(** ** Rational stand-ins for the library functions, for running the model

    [sqrt_approx] is the square root truncated to six decimals;
    [log2_approx q] is the binary logarithm of a positive [q] in fixed
    point, twenty binary places, by repeated squaring of the mantissa;
    [pow_approx] is [2 ^ (-4.75)] to twelve decimals, the value at the only
    call of [Math.pow] in the sources; [Number_digits] reads an unsigned
    decimal integer. *)

Module Approx.
Local Open Scope Z_scope.

Definition sqrt_approx (q : Q) : Q :=
  (inject_Z (Z.sqrt (Qfloor (q * 1000000000000))) / 1000000)%Q.

Definition one : Z := 2 ^ 60.

(** [m] is the mantissa scaled by [2 ^ 60], between one and two. *)
Fixpoint log2_bits (k : nat) (m acc : Z) : Z :=
  match k with
  | O => acc
  | S k' =>
      let m2 := m * m / one in
      if 2 * one <=? m2
      then log2_bits k' (m2 / 2) (2 * acc + 1)
      else log2_bits k' m2 (2 * acc)
  end.

Definition log2_approx (q : Q) : Q :=
  let n := Qnum q in
  let d := Z.pos (Qden q) in
  let e0 := Z.log2 n - Z.log2 d in
  let scaled e := if 0 <=? e then n * one / (d * 2 ^ e)
                  else n * one * 2 ^ (- e) / d in
  let e := if scaled e0 <? one then e0 - 1 else e0 in
  (inject_Z e + inject_Z (log2_bits 20 (scaled e) 0) / inject_Z (2 ^ 20))%Q.

Definition pow_approx (_ _ : Q) : Q := (37162722344 # 1000000000000)%Q.

(** [Number] on the strings of decimal digits, which is what the two
    halves of a time signature are. *)
Definition Number_digits (s : string) : option Q :=
  if JS.digits1 s then Some (inject_Z (JS.parseInt s)) else None.

End Approx.

(** * Properties *)

(** ** Facts about the primitives *)

Module JSFacts.
Import JS.
Local Open Scope Z_scope.

Lemma range_from_bounds fuel : forall i stop step x,
    0 <= step -> In x (range_from fuel i stop step) -> i <= x < stop.
Proof.
  induction fuel as [|k IH]; simpl; intros i stop step x Hs Hin; [tauto|].
  destruct (i <? stop) eqn:E; [|destruct Hin].
  apply Z.ltb_lt in E.
  destruct Hin as [<-|Hin]; [lia|].
  apply IH in Hin; lia.
Qed.

Lemma for_range_bounds start stop step x :
  0 <= step -> In x (for_range start stop step) -> start <= x < stop.
Proof. unfold for_range. apply range_from_bounds. Qed.

(** The rounds of [for_range] are enough: every value that the loop
    variable takes is listed. *)
Lemma range_from_complete fuel : forall i stop step q,
  1 <= step -> 0 <= q -> i + q * step < stop ->
  (Z.to_nat (stop - i) <= fuel)%nat ->
  In (i + q * step) (range_from fuel i stop step).
Proof.
induction fuel as [|k IH]; intros i stop step q Hs Hq Hlt Hf.
- nia.
- simpl. assert (E : (i <? stop) = true) by (apply Z.ltb_lt; nia).
  rewrite E. destruct (Z.eq_dec q 0) as [->|Hq0]; [left; lia|].
  right. replace (i + q * step) with ((i + step) + (q - 1) * step) by ring.
  apply IH; try lia; nia.
Qed.

Lemma for_range_complete start stop step q :
  1 <= step -> 0 <= q -> start + q * step < stop ->
  In (start + q * step) (for_range start stop step).
Proof. intros. unfold for_range. apply range_from_complete; auto. Qed.

Section SortFacts.
Context {A : Type} (cmp : A -> A -> Z).
Let R (a b : A) : Prop := cmp a b <= 0.

Hypothesis cmp_total : forall a b, 0 < cmp a b -> R b a.
Hypothesis cmp_trans : forall a b c, R a b -> R b c -> R a c.

Lemma insert_perm x l : Permutation (x :: l) (insert cmp x l).
Proof.
  induction l as [|y r IH]; simpl; [reflexivity|].
  destruct (cmp x y <=? 0); [reflexivity|].
  rewrite perm_swap. now constructor.
Qed.

Lemma sort_perm l : Permutation l (sort cmp l).
Proof.
  induction l as [|x r IH]; simpl; [constructor|].
  rewrite <- insert_perm. now constructor.
Qed.

Lemma insert_sorted x l :
  StronglySorted R l -> StronglySorted R (insert cmp x l).
Proof.
  induction 1 as [|y r Hs IH Hall]; simpl.
  - repeat constructor.
  - destruct (cmp x y <=? 0) eqn:E.
    + apply Z.leb_le in E.
      constructor; [now constructor|].
      constructor; [exact E|].
      eapply Forall_impl; [|exact Hall].
      intros z Hz. eapply cmp_trans; eassumption.
    + apply Z.leb_gt in E.
      constructor; [exact IH|].
      eapply Permutation_Forall; [apply insert_perm|].
      constructor; [now apply cmp_total|exact Hall].
Qed.

Lemma sort_sorted l : StronglySorted R (sort cmp l).
Proof.
  induction l as [|x r IH]; simpl; [constructor|].
  now apply insert_sorted.
Qed.
End SortFacts.

(** A property kept by every round of a loop holds when the loop is left. *)
Lemma fold_left_invariant_in {S X} (P : S -> Prop) (f : S -> X -> S) l :
  (forall s x, In x l -> P s -> P (f s x)) -> forall s, P s -> P (fold_left f l s).
Proof.
induction l as [|x r IH]; simpl; intros Hf s Hs; [exact Hs|].
apply IH; [intros; apply Hf; auto|].
apply Hf; auto.
Qed.

Lemma fold_left_invariant {S X} (P : S -> Prop) (f : S -> X -> S) l :
  (forall s x, P s -> P (f s x)) -> forall s, P s -> P (fold_left f l s).
Proof. intros Hf. apply fold_left_invariant_in. intros; now apply Hf. Qed.

Lemma StronglySorted_weaken {A} (R S : A -> A -> Prop) l :
  (forall a b, R a b -> S a b) -> StronglySorted R l -> StronglySorted S l.
Proof.
  intros HRS. induction 1 as [|x r Hs IH Hall]; constructor; [exact IH|].
  eapply Forall_impl; [|exact Hall]. intros; now apply HRS.
Qed.

(** In a strongly sorted list the element at the smaller index is
    related to the one at the larger index. *)
Lemma StronglySorted_nth {A} (R : A -> A -> Prop) l :
  StronglySorted R l ->
  forall i j a b, (i < j)%nat ->
    nth_error l i = Some a -> nth_error l j = Some b -> R a b.
Proof.
  induction 1 as [|x r Hs IH Hall]; intros i j a b Hij Ha Hb.
  - destruct i; discriminate.
  - destruct j as [|j]; [lia|].
    destruct i as [|i]; simpl in *.
    + injection Ha as <-.
      rewrite Forall_forall in Hall. apply Hall.
      eapply nth_error_In; eassumption.
    + eapply IH; [|eassumption|eassumption]. lia.
Qed.

End JSFacts.

(** ** The sequence-file encoder *)

Module MidiExportFacts.
Import JS MidiExport.
Local Open Scope string_scope.
Local Open Scope list_scope.
Local Open Scope Z_scope.

(** *** The rounds of the variable-length loop *)

Lemma ToInt32_small v : 0 <= v < 2 ^ 31 -> ToInt32 v = v.
Proof.
intros H. unfold ToInt32.
rewrite Z.mod_small; lia.
Qed.

(** The five rounds of [writeVariableLengthQuantity] are enough: the
    loop has left by its own test, more rounds change nothing. *)
Lemma vlq_loop_more_fuel fuel : forall extra v bytes,
  v < 2 ^ (7 * Z.of_nat fuel) -> (fuel <= 4)%nat ->
  vlq_loop (fuel + extra) v bytes = vlq_loop fuel v bytes.
Proof.
induction fuel as [|k IH]; intros extra v bytes Hv Hk.
- simpl in Hv. destruct extra; [reflexivity|]. simpl.
  assert (E : (0 <? v) = false) by (apply Z.ltb_ge; lia).
  now rewrite E.
- cbn [Nat.add vlq_loop]. destruct (0 <? v) eqn:E; [|reflexivity].
  apply Z.ltb_lt in E. apply IH; [|lia].
  assert (Hb : 2 ^ (7 * Z.of_nat (S k)) <= 2 ^ 28).
  { apply Z.pow_le_mono_r; lia. }
  unfold sar. rewrite ToInt32_small by lia.
  change (Z.land 7 31) with 7. rewrite Z.shiftr_div_pow2 by lia.
  apply Z.div_lt_upper_bound; [lia|].
  rewrite <- Z.pow_add_r by lia.
  replace (7 + 7 * Z.of_nat k) with (7 * Z.of_nat (S k)) by lia. exact Hv.
Qed.

Lemma sar7_below v : sar v 7 < 2 ^ 24.
Proof.
unfold sar. change (Z.land 7 31) with 7.
rewrite Z.shiftr_div_pow2 by lia.
apply Z.div_lt_upper_bound; [lia|].
unfold ToInt32.
pose proof (Z.mod_pos_bound (v + 2 ^ 31) (2 ^ 32) ltac:(lia)). lia.
Qed.

Lemma vlq_rounds_suffice value extra :
  vlq_loop (5 + extra) (sar value 7) [band value 127]
  = writeVariableLengthQuantity value.
Proof.
unfold writeVariableLengthQuantity.
change (5 + extra)%nat with (4 + (1 + extra))%nat.
change 5%nat with (4 + 1)%nat.
pose proof (sar7_below value) as H.
rewrite !vlq_loop_more_fuel; try reflexivity; try lia;
  change (7 * Z.of_nat 4) with 28; lia.
Qed.

(** *** Scenario D *)

Definition chordD : Chord := mkChord ["C4"; "E4"; "G4"] "C" 0 (Some 1%Q).
Definition optionsD : MidiExportOptions := mkOptions 120 (Some 480) None None.

(** C1, as stated, fails: the merged event list of scenario D does not
    hold three pitch-off events at absolute tick 480 (it holds none:
    one second at 120 beats per minute is two beats, 960 ticks). *)
Lemma scenarioD_not_three_offs_at_480 :
  List.length (filter (fun e => isNoteOff e && (absoluteTick e =? 480))
                      (absoluteEvents [] [chordD] optionsD)) <> 3%nat.
Proof. vm_compute. discriminate. Qed.

(** C1, amended: encoding the chord C4 E4 G4 (onset 0, duration 1) at
    tempo 120 and 480 pulses per quarter note gives exactly three
    pitch-on events at absolute tick 0 on the chord channel (status
    0x91, keys 60 64 67, velocity 80) and the three matching pitch-off
    events (status 0x81) at absolute tick 960; in the note track they
    are delta-encoded as 0, 0, 0, then 960 written as the two bytes
    0x87 0x40, then 0, 0. *)
Theorem scenarioD_events_and_track :
  absoluteEvents [] [chordD] optionsD
  = [mkAbs 0 [145; 60; 80]; mkAbs 0 [145; 64; 80]; mkAbs 0 [145; 67; 80];
     mkAbs 960 [129; 60; 0]; mkAbs 960 [129; 64; 0]; mkAbs 960 [129; 67; 0]]
  /\ timeToTicks optionsD 1 = 960
  /\ writeVariableLengthQuantity 960 = [135; 64]
  /\ noteTrack [] [chordD] optionsD
     = [77; 84; 114; 107; 0; 0; 0; 29;
        0; 145; 60; 80;  0; 145; 64; 80;  0; 145; 67; 80;
        135; 64; 129; 60; 0;  0; 129; 64; 0;  0; 129; 67; 0;
        0; 255; 47; 0]
  /\ exportMelodyToMidi [] [chordD] optionsD
     = [77; 84; 104; 100; 0; 0; 0; 6; 0; 1; 0; 2; 1; 224]
       ++ map ToUint8 (tempoTrack optionsD)
       ++ noteTrack [] [chordD] optionsD.
Proof. repeat apply conj; vm_compute; reflexivity. Qed.

(** *** The order of the merged event list *)

(** [a] may stand before [b]: an earlier tick, or the same tick with no
    pitch-on before a pitch-off. *)
Definition eventOrder (a b : AbsoluteEvent) : Prop :=
  absoluteTick a < absoluteTick b
  \/ (absoluteTick a = absoluteTick b /\ (isNoteOff b = true -> isNoteOff a = true)).

Lemma compareEvents_le a b : compareEvents a b <= 0 <-> eventOrder a b.
Proof.
  unfold compareEvents, eventOrder.
  destruct (absoluteTick a =? absoluteTick b) eqn:E; simpl.
  - apply Z.eqb_eq in E.
    destruct (isNoteOff a), (isNoteOff b); simpl; split; intros H;
      try lia; try (right; split; [exact E|intros; congruence]);
      destruct H as [H|[_ H]]; try lia; specialize (H eq_refl); discriminate.
  - apply Z.eqb_neq in E. split; intros H; [left; lia|].
    destruct H as [H|[H _]]; lia.
Qed.

Lemma compareEvents_total a b :
  0 < compareEvents a b -> compareEvents b a <= 0.
Proof.
  unfold compareEvents.
  rewrite (Z.eqb_sym (absoluteTick b)).
  destruct (absoluteTick a =? absoluteTick b); simpl; [|lia].
  destruct (isNoteOff a), (isNoteOff b); simpl; lia.
Qed.

Lemma compareEvents_trans a b c :
  compareEvents a b <= 0 -> compareEvents b c <= 0 -> compareEvents a c <= 0.
Proof.
  rewrite !compareEvents_le. unfold eventOrder.
  intros [H1|[H1 H1']] [H2|[H2 H2']]; try (left; lia).
  right. split; [lia|tauto].
Qed.

Lemma on_is_not_off e : isNoteOn e = true -> isNoteOff e = false.
Proof.
  unfold isNoteOn, isNoteOff. intros H. apply Z.eqb_eq in H. rewrite H.
  reflexivity.
Qed.

(** C8: the merged list is a reordering of the pushed events that is
    sorted by nondecreasing absolute tick, and in which a pitch-off event
    and a pitch-on event of equal tick always stand in that order. *)
Theorem merged_events_sorted_off_before_on melody chords o :
  let evs := absoluteEvents melody chords o in
  Permutation (pushedEvents melody chords o) evs
  /\ StronglySorted eventOrder evs
  /\ (forall i j a b, (i < j)%nat ->
        nth_error evs i = Some a -> nth_error evs j = Some b ->
        absoluteTick a <= absoluteTick b)
  /\ (forall i j off on,
        nth_error evs i = Some off -> nth_error evs j = Some on ->
        isNoteOff off = true -> isNoteOn on = true ->
        absoluteTick off = absoluteTick on -> (i < j)%nat).
Proof.
  intros evs.
  assert (Hs : StronglySorted eventOrder evs).
  { eapply JSFacts.StronglySorted_weaken;
      [|apply (JSFacts.sort_sorted compareEvents
                 compareEvents_total compareEvents_trans)].
    intros a b. apply compareEvents_le. }
  repeat split.
  - apply JSFacts.sort_perm.
  - exact Hs.
  - intros i j a b Hij Ha Hb.
    destruct (JSFacts.StronglySorted_nth _ _ Hs i j a b Hij Ha Hb) as [H|[H _]]; lia.
  - intros i j off on Hi Hj Hoff Hon Ht.
    apply on_is_not_off in Hon.
    destruct (Nat.lt_trichotomy i j) as [H|[H|H]]; [exact H| |].
    + subst j. rewrite Hi in Hj. injection Hj as ->. congruence.
    + destruct (JSFacts.StronglySorted_nth _ _ Hs j i on off H Hj Hi)
        as [H'|[_ H']]; [lia|].
      specialize (H' Hoff). congruence.
Qed.

Definition twoNotes : list Note :=
  [mkNote "a4" (1 # 2) (Some (1 # 2)) None; mkNote "a4" 0 (Some (1 # 2)) None].

Lemma merged_events_witness :
  let evs := absoluteEvents twoNotes [] optionsD in
  let off := mkAbs 480 [128; 69; 0] in
  let on := mkAbs 480 [144; 69; 102] in
  pushedEvents twoNotes [] optionsD
  = [on; mkAbs 960 [128; 69; 0]; mkAbs 0 [144; 69; 102]; off]
  /\ nth_error evs 1 = Some off /\ nth_error evs 2 = Some on
  /\ (1 < 2)%nat.
Proof.
  intros evs off on.
  assert (H1 : nth_error evs 1 = Some off) by (vm_compute; reflexivity).
  assert (H2 : nth_error evs 2 = Some on) by (vm_compute; reflexivity).
  split; [vm_compute; reflexivity|].
  split; [exact H1|]. split; [exact H2|].
  destruct (merged_events_sorted_off_before_on twoNotes [] optionsD)
    as (_ & _ & _ & H).
  apply (H 1%nat 2%nat off on H1 H2); reflexivity.
Defined.

(** *** Pitch names that do not parse *)

(** The shape the claim names: a letter class a to g, an optional sharp
    suffix [s], and octave digits (letters in either case). *)
Inductive WellFormedPitchName : string -> Prop :=
| wf_natural c ds :
    is_a_to_g c = true -> digits1 ds = true ->
    WellFormedPitchName (String c ds)
| wf_sharp c s ds :
    is_a_to_g c = true -> is_s s = true -> digits1 ds = true ->
    WellFormedPitchName (String c (String s ds)).

Lemma parseNote_Some_iff n :
  (exists r, parseNote n = Some r) <-> WellFormedPitchName n.
Proof.
  split.
  - intros [r H]. unfold parseNote in H.
    destruct n as [|c rest]; [discriminate|].
    destruct (is_a_to_g c) eqn:Ec; [|discriminate].
    destruct rest as [|c2 r2]; [discriminate|].
    destruct (is_s c2 && digits1 r2) eqn:E2.
    + apply andb_true_iff in E2 as [E2 E3]. now apply wf_sharp.
    + destruct (digits1 (String c2 r2)) eqn:E3; [|discriminate].
      now apply wf_natural.
  - intros H. unfold parseNote.
    destruct H as [c ds Hc Hd|c s ds Hc Hs Hd]; rewrite Hc.
    + destruct ds as [|c2 r2]; [discriminate|].
      destruct (is_s c2 && digits1 r2); [eauto|].
      rewrite Hd. eauto.
    + rewrite Hs, Hd. simpl. eauto.
Qed.

(** C10: [noteToMidi] is a total function, and on every string that is
    not a letter a to g, an optional [s] and octave digits, it returns
    the key 60. *)
Theorem noteToMidi_malformed_is_60 n :
  ~ WellFormedPitchName n -> noteToMidi n = 60.
Proof.
  intros H. unfold noteToMidi.
  destruct (parseNote n) as [r|] eqn:E; [|reflexivity].
  exfalso. apply H. apply parseNote_Some_iff. eauto.
Qed.

Lemma noteToMidi_malformed_witness :
  ~ WellFormedPitchName "H#4" /\ noteToMidi "H#4" = 60.
Proof.
  assert (H : ~ WellFormedPitchName "H#4").
  { intros H. apply parseNote_Some_iff in H. destruct H as [r H].
    vm_compute in H. discriminate. }
  split; [exact H|].
  apply (noteToMidi_malformed_is_60 "H#4"). exact H.
Defined.

End MidiExportFacts.

(** ** Facts about rational arithmetic *)

Module QFacts.
Import JS.
Local Open Scope Q_scope.

Lemma Qltb_lt a b : Qltb a b = true <-> a < b.
Proof.
unfold Qltb. rewrite negb_true_iff. split; intros H.
- apply Qnot_le_lt. intros Hle. apply Qle_bool_iff in Hle. congruence.
- destruct (Qle_bool b a) eqn:E; [|reflexivity].
  apply Qle_bool_iff in E. exfalso. eapply Qlt_not_le; eassumption.
Qed.

Lemma Qltb_ge a b : Qltb a b = false <-> b <= a.
Proof.
unfold Qltb. rewrite negb_false_iff. apply Qle_bool_iff.
Qed.

Lemma Qfloor_unique x z :
  inject_Z z <= x -> x < inject_Z (z + 1) -> Qfloor x = z.
Proof.
intros H1 H2.
assert (Ha : (z <= Qfloor x)%Z).
{ rewrite <- (Qfloor_Z z). now apply Qfloor_resp_le. }
assert (Hb : (Qfloor x < z + 1)%Z).
{ rewrite Zlt_Qlt. eapply Qle_lt_trans; [apply Qfloor_le|exact H2]. }
lia.
Qed.

Lemma Math_round_integer x z : x == inject_Z z -> Math_round x = z.
Proof.
intros H. unfold Math_round. apply Qfloor_unique; rewrite H.
- generalize (inject_Z z). intros q. lra.
- rewrite inject_Z_plus. generalize (inject_Z z). intros q.
  change (inject_Z 1) with 1. lra.
Qed.

Lemma Math_round_bounds x lo hi :
  inject_Z lo <= x -> x <= inject_Z hi -> (lo <= Math_round x <= hi)%Z.
Proof.
intros H1 H2. unfold Math_round. split.
- rewrite <- (Qfloor_Z lo). apply Qfloor_resp_le.
  revert H1. generalize (inject_Z lo). intros q H1. lra.
- assert (H : (Qfloor (x + (1 # 2)) < hi + 1)%Z); [|lia].
  rewrite Zlt_Qlt. eapply Qle_lt_trans; [apply Qfloor_le|].
  rewrite inject_Z_plus. revert H2. generalize (inject_Z hi). intros q H2.
  change (inject_Z 1) with 1. lra.
Qed.

End QFacts.

(** ** The quantizer *)

Module QuantizerFacts.
Import JS AudioToStrudel QFacts.
Local Open Scope string_scope.
Local Open Scope Q_scope.

(** Deep equality of optional numbers and of notes: the same fields, the
    numbers equal as numbers. *)
Definition opt_eq (a b : option Q) : Prop :=
  match a, b with
  | Some x, Some y => x == y
  | None, None => True
  | _, _ => False
  end.

Definition note_eq (a b : Note) : Prop :=
  note a = note b /\ time a == time b
  /\ opt_eq (duration a) (duration b) /\ opt_eq (velocity a) (velocity b).

Lemma opt_eq_refl a : opt_eq a a.
Proof. destruct a; simpl; [reflexivity|exact I]. Qed.

Lemma note_eq_refl a : note_eq a a.
Proof. repeat split; try reflexivity; apply opt_eq_refl. Qed.

Lemma lookupQ_quantizeMap_pos k : 0 < num_or (lookupQ k quantizeMap) 0.25.
Proof.
unfold quantizeMap. simpl.
repeat (match goal with |- context [String.eqb ?a ?b] => destruct (String.eqb a b) end;
        [vm_compute; reflexivity|]).
vm_compute; reflexivity.
Qed.

Lemma gridSize_pos tempo qv : 0 < tempo -> 0 < gridSize tempo qv.
Proof.
intros H. unfold gridSize.
apply Qmult_lt_0_compat; [|apply lookupQ_quantizeMap_pos].
apply Qlt_shift_div_l; [exact H|lra].
Qed.

Lemma round_multiple (k : Z) g : 0 < g -> Math_round (inject_Z k * g / g) = k.
Proof.
intros H. apply Math_round_integer. field. lra.
Qed.

Lemma quantizeNote_idempotent g n :
  0 < g -> note_eq (quantizeNote g (quantizeNote g n)) (quantizeNote g n).
Proof.
intros Hg. unfold note_eq, quantizeNote; simpl.
split; [reflexivity|]. split.
{ rewrite round_multiple by exact Hg. reflexivity. }
split; [|apply opt_eq_refl].
destruct (duration n) as [d|]; [|exact I].
destruct (Qeq_bool d 0) eqn:Ed; [exact I|].
generalize (Math_round (d / g)). intros m.
assert (Hd1 : g <= Qmax g (inject_Z m * g)) by apply Q.le_max_l.
destruct (Q.max_spec g (inject_Z m * g)) as [[Hlt Hmax]|[Hle Hmax]];
  revert Hd1 Hmax; generalize (Qmax g (inject_Z m * g)); intros d1 Hd1 Hmax.
- destruct (Qeq_bool d1 0) eqn:E1.
  { apply Qeq_bool_eq in E1. lra. }
  simpl.
  assert (Hr : Math_round (d1 / g) = m).
  { apply Math_round_integer. rewrite Hmax. field. lra. }
  rewrite Hr, Hmax. apply Q.max_r. apply Qlt_le_weak. exact Hlt.
- destruct (Qeq_bool d1 0) eqn:E1.
  { apply Qeq_bool_eq in E1. lra. }
  simpl.
  assert (Hr : Math_round (d1 / g) = 1%Z).
  { apply Math_round_integer. rewrite Hmax. field. lra. }
  rewrite Hr, Hmax. apply Q.max_l. change (inject_Z 1) with 1. lra.
Qed.

(** C7: quantizing an already quantized melody again, with the same
    (positive) tempo and the same grid value, returns a melody that is
    deep-equal to the once quantized one. *)
Theorem quantizeNotes_idempotent
        (notes : list Note) (tempo : Q) (quantizeValue : string) :
  0 < tempo ->
  Forall2 note_eq
    (quantizeNotes (quantizeNotes notes tempo quantizeValue) tempo quantizeValue)
    (quantizeNotes notes tempo quantizeValue).
Proof.
intros Ht. unfold quantizeNotes.
destruct (quantizeValue =? "none")%string.
- induction notes; constructor; [apply note_eq_refl|assumption].
- induction notes as [|n r IH]; simpl; constructor; [|exact IH].
  apply quantizeNote_idempotent. now apply gridSize_pos.
Qed.

Definition sampleNotes : list Note :=
  [mkNote "a4" (1 # 3) (Some (1 # 100)) None;
   mkNote "c5" (7 # 10) (Some (3 # 10)) (Some (1 # 2));
   mkNote "e5" 1 None None].

Lemma quantizeNotes_idempotent_witness :
  0 < 120 /\
  Forall2 note_eq
    (quantizeNotes (quantizeNotes sampleNotes 120 "1/16") 120 "1/16")
    (quantizeNotes sampleNotes 120 "1/16").
Proof.
split; [reflexivity|].
apply (quantizeNotes_idempotent sampleNotes 120 "1/16"). reflexivity.
Defined.

End QuantizerFacts.

(** ** The pattern notation generator *)

Module StrudelFacts.
Import JS AudioToStrudel.
Local Open Scope string_scope.

(** The rest-only pattern: the call [note] on the one-token pattern [~],
    with the piano sound. *)
Definition restPattern : string := pattern "~".

(** C9: with an empty melody the melody output is the rest-only pattern,
    with an empty chord list the chord output is, and with both empty the
    combined output is the two-line header followed by the stack of two
    rest-only patterns.  The rest-only pattern is the 24 characters
    note(.~.).sound(.piano.), each dot a double quote; no output is ever
    the empty string.  The generator is a total function: no input makes
    it fail. *)
Theorem empty_input_gives_rest_patterns
        (Number : string -> option Q) (tempo : Z) (timeSignature : string) :
  (forall chs, melody (generateStrudelCode Number [] chs tempo timeSignature)
               = restPattern)
  /\ (forall mel, chords (generateStrudelCode Number mel [] tempo timeSignature)
                  = restPattern)
  /\ combined (generateStrudelCode Number [] [] tempo timeSignature)
     = "// Tempo: " ++ string_of_Z tempo ++ " BPM, Time Signature: "
       ++ timeSignature ++ nl
       ++ "// Melody: 0 notes, Chords: 0 chords" ++ nl
       ++ "stack(" ++ nl
       ++ "  " ++ restPattern ++ "," ++ nl
       ++ "  " ++ restPattern ++ nl
       ++ ").cpm(" ++ string_of_Z (Math_round (inject_Z tempo / 4)) ++ ")"
  /\ map code (list_ascii_of_string restPattern)
     = [110; 111; 116; 101; 40; 34; 126; 34; 41; 46; 115; 111; 117; 110; 100;
        40; 34; 112; 105; 97; 110; 111; 34; 41]%Z
  /\ (forall mel chs,
        let out := generateStrudelCode Number mel chs tempo timeSignature in
        melody out <> EmptyString /\ chords out <> EmptyString
        /\ combined out <> EmptyString).
Proof.
split; [reflexivity|].
split; [reflexivity|].
split.
{ reflexivity. }
split; [vm_compute; reflexivity|].
intros mel chs out. subst out. unfold generateStrudelCode.
cbn [melody chords combined].
repeat split.
- destruct (0 <? len mel)%Z; discriminate.
- destruct (0 <? len chs)%Z; discriminate.
- discriminate.
Qed.

End StrudelFacts.

(** ** The note segmenter of the single-file page *)

Module SegmenterFacts.
Import JS AudioToStrudel Approx QFacts.
Local Open Scope string_scope.
Local Open Scope Q_scope.

(** *** Test signals *)

(** [cycles] periods of a unit impulse followed by [period - 1] zeros,
    then the first [rest] samples of one more period. *)
Definition impulseTrain (period cycles rest : nat) : list Q :=
  (List.concat (repeat (1 :: repeat 0 (period - 1)) cycles)
   ++ firstn rest (1 :: repeat 0 (period - 1)))%list.

(** 0.2 s at 22050 Hz, 4410 samples: an impulse every 50 samples, 441 Hz. *)
Definition tone441 : list Q := impulseTrain 50 88 10.

(** 0.8 s at 8000 Hz, 6400 samples: an impulse every 18 samples (444 Hz)
    for the first 2048 samples, then a single impulse at sample 3000,
    then nothing. *)
Definition toneThenClick : list Q :=
  (impulseTrain 18 113 14 ++ repeat 0 952 ++ [1] ++ repeat 0 3399)%list.

(** A note with its numbers in lowest terms, for comparing results. *)
Definition reduced (n : Note) : Note :=
  mkNote (note n) (Qred (time n)) (option_map Qred (duration n))
         (option_map Qred (velocity n)).

Section Parametric.
Variable Math_sqrt : Q -> Q.
Variable Math_log2 : Q -> Q.
Variable Math_pow : Q -> Q -> Q.


(** *** Frames below the 50 Hz floor *)

(** C2, amended: a frame that is not silent and whose detected frequency
    is below the 50 Hz floor is skipped.  The state of the segmenter after
    the frame is the state before it: no note is closed or emitted at that
    frame, the note in progress and its start time are kept, the histogram
    is not touched. *)
Theorem rest_frame_leaves_state data sampleRate params st i :
  let frame := slice data i (i + frameSize) in
  ~ frameRms Math_sqrt frame < rmsThreshold params ->
  detectPitch frame sampleRate < 50 ->
  frameStep Math_sqrt Math_log2 Math_pow data sampleRate params st i = st.
Proof.
intros frame Hloud Hlow. unfold frameStep. fold frame.
assert (E1 : Qltb (frameRms Math_sqrt frame) (rmsThreshold params) = false).
{ destruct (Qltb _ _) eqn:E; [|reflexivity].
  apply Qltb_lt in E. contradiction. }
rewrite E1.
apply Qltb_lt in Hlow.
unfold frequencyToNote, frequencyToPitchClass. rewrite Hlow.
destruct st; reflexivity.
Qed.

(** *** What the emitted notes carry *)

Definition emitted_shape (params : AnalysisParams) (n : Note) : Prop :=
  velocity n = None /\ exists d, duration n = Some d /\ minDuration params < d.

Lemma pushIfLong_shape params st endTime :
  Forall (emitted_shape params) (seg_notes st) ->
  Forall (emitted_shape params) (pushIfLong params st endTime).
Proof.
intros H. unfold pushIfLong.
destruct (Qltb _ _) eqn:E; [|exact H].
apply Forall_app. split; [exact H|].
constructor; [|constructor].
split; [reflexivity|]. eexists. split; [reflexivity|].
now apply Qltb_lt.
Qed.

Lemma frameStep_shape data sampleRate params st i :
  Forall (emitted_shape params) (seg_notes st) ->
  Forall (emitted_shape params)
         (seg_notes (frameStep Math_sqrt Math_log2 Math_pow
                               data sampleRate params st i)).
Proof.
intros H. unfold frameStep.
repeat match goal with
       | |- context [if ?b then _ else _] => destruct b
       end; simpl; auto using pushIfLong_shape.
Qed.

(** Every note that [extractMelody] returns lasts strictly longer than
    the minimum duration, and none has a velocity. *)
Lemma extractMelody_shape data sampleRate params :
  Forall (emitted_shape params)
         (fst (extractMelody Math_sqrt Math_log2 Math_pow data sampleRate params)).
Proof.
unfold extractMelody. simpl.
assert (H : Forall (emitted_shape params)
                   (segmentedNotes Math_sqrt Math_log2 Math_pow
                                   data sampleRate params)).
{ unfold segmentedNotes.
  assert (Hs : Forall (emitted_shape params)
                      (seg_notes (scanFrames Math_sqrt Math_log2 Math_pow
                                             data sampleRate params))).
  { unfold scanFrames.
    apply (JSFacts.fold_left_invariant
             (fun st => Forall (emitted_shape params) (seg_notes st))).
    - intros s x. apply frameStep_shape.
    - constructor. }
  destruct (noteOpen _); [now apply pushIfLong_shape|exact Hs]. }
rewrite <- (firstn_skipn 64) in H. apply Forall_app in H. tauto.
Qed.

(** *** The cap *)

Lemma quantizeNotes_length l tempo qv :
  List.length (quantizeNotes l tempo qv) = List.length l.
Proof.
unfold quantizeNotes. destruct (qv =? "none"); [reflexivity|apply length_map].
Qed.

Lemma quantizeNotes_names l tempo qv :
  map note (quantizeNotes l tempo qv) = map note l.
Proof.
unfold quantizeNotes. destruct (qv =? "none"); [reflexivity|].
rewrite map_map. reflexivity.
Qed.

(** C3: the melody that the analysis stores is made from the first 64
    segmented notes, in order, so its length is the smaller of 64 and the
    number of segmented notes: exactly 64 when the segmentation produced
    more, never above 64. *)
Theorem melody_capped_at_64 data sampleRate params :
  let raw := segmentedNotes Math_sqrt Math_log2 Math_pow data sampleRate params in
  let mel := analyzedMelody Math_sqrt Math_log2 Math_pow data sampleRate params in
  fst (extractMelody Math_sqrt Math_log2 Math_pow data sampleRate params)
  = firstn 64 raw
  /\ map note mel = map note (firstn 64 raw)
  /\ List.length mel = Nat.min 64 (List.length raw)
  /\ (List.length mel <= 64)%nat.
Proof.
intros raw mel.
assert (Hn : map note mel = map note (firstn 64 raw)).
{ unfold mel, analyzedMelody.
  destruct (doQuantizeNotes params); [apply quantizeNotes_names|reflexivity]. }
assert (Hl : List.length mel = Nat.min 64 (List.length raw)).
{ rewrite <- (length_map note mel), Hn, length_map. apply length_firstn. }
repeat split; [exact Hn|exact Hl|lia].
Qed.

End Parametric.

(** *** Runs of the segmenter *)

(** The frames of the two test signals, and what the pitch detector finds
    in each: 444 Hz and nothing in [toneThenClick], 441 Hz in [tone441]. *)
Lemma toneThenClick_pitches :
  frameOffsets toneThenClick = [0; 2048]%Z
  /\ detectPitch (slice toneThenClick 0 (0 + frameSize)) 8000 = 8000 # 18
  /\ detectPitch (slice toneThenClick 2048 (2048 + frameSize)) 8000 = 0.
Proof. split; [|split]; vm_compute; reflexivity. Qed.

Lemma tone441_pitch :
  frameOffsets tone441 = [0]%Z
  /\ detectPitch (slice tone441 0 (0 + frameSize)) 22050 = 22050 # 50.
Proof. split; vm_compute; reflexivity. Qed.

(** The loop of [extractMelody] over [toneThenClick] at 8000 Hz: the
    state when it is left, after the frames at offsets 0 and 2048. *)
Lemma toneThenClick_scan :
  scanFrames sqrt_approx log2_approx pow_approx
             toneThenClick 8000 defaultAnalysisParams
  = mkSeg [] [0; 0; 0; 0; 0; 0; 0; 0; 0; 0.167559; 0; 0] "a4" (0 # 8000).
Proof.
destruct toneThenClick_pitches as (Ho & Hp0 & Hp1).
unfold scanFrames. rewrite Ho. cbn [fold_left]. unfold frameStep at 2. cbv zeta.
rewrite Hp0.
match goal with
| |- frameStep _ _ _ _ _ _ ?s _ = _ =>
    let v := eval vm_compute in s in
    replace s with v by (vm_compute; reflexivity)
end.
unfold frameStep. cbv zeta. rewrite Hp1.
vm_compute. reflexivity.
Qed.

(** C2, as stated, fails.  In [toneThenClick] at 8000 Hz the frame at
    offset 0 opens the note a4; the frame at offset 2048, the last one,
    is loud enough and has no detectable pitch, so it is a rest frame.
    The note is not closed at that frame's time (0.256 s): when the loop
    is left it is still the open note and nothing has been emitted; it is
    emitted at the end of the buffer, with duration 0.8 s. *)
Lemma rest_frame_does_not_close_the_note :
  let frame := slice toneThenClick 2048 (2048 + frameSize) in
  let st := scanFrames sqrt_approx log2_approx pow_approx
                       toneThenClick 8000 defaultAnalysisParams in
  (Qltb (frameRms sqrt_approx frame) (rmsThreshold defaultAnalysisParams) = false
   /\ frequencyToNote log2_approx pow_approx (detectPitch frame 8000) = "rest")
  /\ (lastNote st = "a4" /\ noteStartTime st == 0 /\ seg_notes st = [])
  /\ map reduced (segmentedNotes sqrt_approx log2_approx pow_approx
                                 toneThenClick 8000 defaultAnalysisParams)
     = [mkNote "a4" 0 (Some (4 # 5)) None].
Proof.
intros frame st.
destruct toneThenClick_pitches as (_ & _ & Hp1).
split; [|split].
- subst frame. rewrite Hp1. split; vm_compute; reflexivity.
- subst st. rewrite toneThenClick_scan. split; [|split]; reflexivity.
- unfold segmentedNotes. rewrite toneThenClick_scan. vm_compute. reflexivity.
Qed.

Lemma rest_frame_leaves_state_witness :
  let frame := slice toneThenClick 2048 (2048 + frameSize) in
  let st1 := frameStep sqrt_approx log2_approx pow_approx
                       toneThenClick 8000 defaultAnalysisParams initialState 0%Z in
  ~ frameRms sqrt_approx frame < rmsThreshold defaultAnalysisParams
  /\ detectPitch frame 8000 < 50
  /\ frameStep sqrt_approx log2_approx pow_approx
               toneThenClick 8000 defaultAnalysisParams st1 2048%Z = st1.
Proof.
intros frame st1.
assert (H1 : ~ frameRms sqrt_approx frame < rmsThreshold defaultAnalysisParams).
{ apply Qle_not_lt. apply Qle_bool_iff. vm_compute. reflexivity. }
assert (H2 : detectPitch frame 8000 < 50).
{ destruct toneThenClick_pitches as (_ & _ & Hp1).
  subst frame. rewrite Hp1. reflexivity. }
split; [exact H1|]. split; [exact H2|].
apply (rest_frame_leaves_state sqrt_approx log2_approx pow_approx
         toneThenClick 8000 defaultAnalysisParams st1 2048%Z H1 H2).
Defined.

(** C6 on the code: [extractMelody] on 0.2 s of a 441 Hz impulse train at
    22050 Hz.  With the default parameters the one note it returns has no
    velocity at all; with a minimum duration of 200 ms, which the note's
    0.2 s meets exactly, the note is dropped. *)
Theorem extractMelody_omits_velocity :
  map reduced (fst (extractMelody sqrt_approx log2_approx pow_approx
                                  tone441 22050 defaultAnalysisParams))
  = [mkNote "a4" 0 (Some (1 # 5)) None]
  /\ fst (extractMelody sqrt_approx log2_approx pow_approx tone441 22050
                        (mkParams true 120 true "C" "4/4" 200 70 true "1/16"))
     = [].
Proof.
destruct tone441_pitch as (Ho & Hp).
split; unfold extractMelody, segmentedNotes, scanFrames;
  rewrite Ho; cbn [fold_left]; unfold frameStep; cbv zeta; rewrite Hp;
  vm_compute; reflexivity.
Qed.

End SegmenterFacts.

(** ** The inline segmenter of the batch page *)

Module BatchSegmenterFacts.
Import JS QFacts BatchProcessing.
Local Open Scope string_scope.
Local Open Scope Q_scope.

Section Parametric.
Variable Math_sqrt : Q -> Q.
Variable Math_log2 : Q -> Q.
Hypothesis sqrt_nonneg : forall x, 0 <= Math_sqrt x.

(** The batch segmenter, too, passes over a frame whose frequency is out
    of its band of 80 to 2000 Hz: the state is left as it is. *)
Lemma out_of_band_frame_leaves_state channelData sampleRate params st i :
  let frame := slice channelData i (i + frameSize) in
  ~ frameRms Math_sqrt frame < minAmplitude params ->
  detectPitch frame sampleRate < 80 \/ 2000 < detectPitch frame sampleRate ->
  frameStep Math_sqrt Math_log2 channelData sampleRate params st i = st.
Proof.
intros frame Hloud Hband. unfold frameStep. fold frame.
assert (E1 : Qltb (frameRms Math_sqrt frame) (minAmplitude params) = false).
{ destruct (Qltb _ _) eqn:E; [|reflexivity].
  apply Qltb_lt in E. contradiction. }
rewrite E1.
assert (E2 : Qltb (detectPitch frame sampleRate) 80
             || Qltb 2000 (detectPitch frame sampleRate) = true).
{ apply orb_true_iff. destruct Hband as [H|H]; [left|right]; now apply Qltb_lt. }
rewrite E2. reflexivity.
Qed.

(** What a note of the batch segmenter carries: a duration at or above
    the minimum, and a velocity between 0 and 1. *)
Definition batch_emitted_shape (params : AudioToStrudel.AnalysisParams)
           (n : Note) : Prop :=
  (exists d, duration n = Some d /\ minNoteDurationSec params <= d)
  /\ (exists v, velocity n = Some v /\ 0 <= v <= 1).

Lemma batch_pushIfLong_shape params st endTime vel :
  0 <= vel <= 1 ->
  Forall (batch_emitted_shape params) (seg_notes st) ->
  Forall (batch_emitted_shape params) (pushIfLong params st endTime vel).
Proof.
intros Hv H. unfold pushIfLong.
destruct (Qle_bool _ _) eqn:E; [|exact H].
apply Forall_app. split; [exact H|].
constructor; [|constructor]. split; simpl.
- eexists. split; [reflexivity|]. now apply Qle_bool_iff.
- eexists. split; [reflexivity|exact Hv].
Qed.

Lemma scaled_rms_in_range frame : 0 <= Qmin 1 (frameRms Math_sqrt frame * 10) <= 1.
Proof.
split; [|apply Q.le_min_l].
apply Q.min_glb; [lra|].
pose proof (sqrt_nonneg (AudioToStrudel.sum_squares frame / inject_Z (len frame))) as H.
unfold frameRms. lra.
Qed.

Lemma batch_frameStep_shape channelData sampleRate params st i :
  Forall (batch_emitted_shape params) (seg_notes st) ->
  Forall (batch_emitted_shape params)
         (seg_notes (frameStep Math_sqrt Math_log2
                               channelData sampleRate params st i)).
Proof.
intros H. unfold frameStep.
repeat match goal with
       | |- context [if ?b then _ else _] => destruct b
       end; simpl; auto using batch_pushIfLong_shape, scaled_rms_in_range.
Qed.

Lemma segmentedNotes_shape channelData sampleRate bufferDuration params :
  Forall (batch_emitted_shape params)
         (segmentedNotes Math_sqrt Math_log2
                         channelData sampleRate bufferDuration params).
Proof.
unfold segmentedNotes.
assert (Hs : Forall (batch_emitted_shape params)
                    (seg_notes (scanFrames Math_sqrt Math_log2
                                           channelData sampleRate params))).
{ unfold scanFrames.
  apply (JSFacts.fold_left_invariant
           (fun st => Forall (batch_emitted_shape params) (seg_notes st))).
  - intros s x. apply batch_frameStep_shape.
  - constructor. }
destruct (noteOpen _); [|exact Hs].
apply batch_pushIfLong_shape; [lra|exact Hs].
Qed.

End Parametric.

End BatchSegmenterFacts.

(** ** The key estimators *)

Module KeyFacts.
Import JS QFacts.
Local Open Scope string_scope.
Local Open Scope Q_scope.

(** A histogram without pitched content: every bucket is zero. *)
Definition all_zero (hist : list Q) : Prop := Forall (fun x => x == 0) hist.

Lemma all_zero_nth hist i : all_zero hist -> nth i hist 0 == 0.
Proof.
intros H. revert i. induction H as [|x r Hx Hr IH]; intros [|i]; simpl;
  try reflexivity; auto.
Qed.

Lemma fold_sum_zero (f : nat -> Q) l a :
  (forall i, f i == 0) -> fold_left (fun c i => c + f i) l a == a.
Proof.
intros Hf. revert a. induction l as [|x r IH]; simpl; intros a; [reflexivity|].
rewrite IH, Hf. ring.
Qed.

Lemma correlate_zero hist profile :
  all_zero hist -> AudioToStrudel.correlate hist profile == 0.
Proof.
intros H. unfold AudioToStrudel.correlate.
apply (fold_sum_zero (fun i => nth i hist 0 * nth i profile 0)).
intros i. rewrite (all_zero_nth hist i H). ring.
Qed.

Lemma sum_zero hist a : all_zero hist -> fold_left Qplus hist a == a.
Proof.
intros H. revert a. induction H as [|x r Hx Hr IH]; simpl; intros a; [reflexivity|].
rewrite IH, Hx. ring.
Qed.

Lemma normalize_zero hist : all_zero hist -> AudioToStrudel.normalize hist = hist.
Proof.
intros H. unfold AudioToStrudel.normalize.
destruct (Qltb 0 (fold_left Qplus hist 0)) eqn:E; [|reflexivity].
apply Qltb_lt in E. rewrite (sum_zero hist 0 H) in E.
exfalso. revert E. apply Qlt_irrefl.
Qed.

Lemma all_zero_app a b : all_zero a -> all_zero b -> all_zero (a ++ b).
Proof. intros; apply Forall_app; split; assumption. Qed.

Lemma all_zero_skipn n a : all_zero a -> all_zero (skipn n a).
Proof.
intros H. unfold all_zero in *. rewrite <- (firstn_skipn n a) in H.
apply Forall_app in H. tauto.
Qed.

Lemma all_zero_firstn n a : all_zero a -> all_zero (firstn n a).
Proof.
intros H. unfold all_zero in *. rewrite <- (firstn_skipn n a) in H.
apply Forall_app in H. tauto.
Qed.

(** The running maximum, once it holds a zero correlation, is not
    displaced by another zero correlation. *)
Lemma exceeds_zero x c :
  x == 0 -> c == 0 -> AudioToStrudel.exceeds x (Some c) = false.
Proof.
intros Hx Hc. simpl. apply Qltb_ge. rewrite Hx, Hc. apply Qle_refl.
Qed.

Section Loop.
Variable step : string * option Q -> nat -> string * option Q.
Hypothesis step_first :
  exists c, c == 0 /\ step ("C", None) 0%nat = ("C", Some c).
Hypothesis step_keep :
  forall k c i, c == 0 -> step (k, Some c) i = (k, Some c).

Lemma zero_loop_gives_C : fst (fold_left step (seq 0 12) ("C", None)) = "C".
Proof.
change (seq 0 12) with (0%nat :: seq 1 11).
cbn [fold_left].
destruct step_first as [c [Hc ->]].
assert (H : forall l, fold_left step l ("C", Some c) = ("C", Some c)).
{ induction l as [|i r IH]; cbn [fold_left]; [reflexivity|].
  rewrite step_keep by exact Hc. exact IH. }
rewrite H. reflexivity.
Qed.
End Loop.

Lemma single_keyStep_zero hist st i :
  all_zero hist ->
  (exists k c, st = (k, Some c) /\ c == 0) ->
  AudioToStrudel.keyStep hist st i = st.
Proof.
intros H (k & c & -> & Hc). unfold AudioToStrudel.keyStep. cbn [snd].
rewrite exceeds_zero by (try apply correlate_zero; assumption).
cbn [snd].
rewrite exceeds_zero by (try apply correlate_zero; assumption).
reflexivity.
Qed.

Lemma batch_keyStep_zero counts st i :
  all_zero counts ->
  (exists k c, st = (k, Some c) /\ c == 0) ->
  BatchProcessing.keyStep counts st i = st.
Proof.
intros H (k & c & -> & Hc). unfold BatchProcessing.keyStep. cbn [snd].
assert (Hr : all_zero (skipn i counts ++ firstn i counts)).
{ apply all_zero_app; [now apply all_zero_skipn|now apply all_zero_firstn]. }
rewrite exceeds_zero by (try apply correlate_zero; assumption).
cbn [snd].
rewrite exceeds_zero by (try apply correlate_zero; assumption).
reflexivity.
Qed.

(** C5: on a histogram whose twelve buckets are all zero, [detectKey]
    of the single-file page returns the label C; so does [detectKey] of
    the batch page on every note list whose chroma counts are all zero
    (the empty list among them).  Both are functions: the same input
    gives the same label on every call. *)
Theorem detectKey_zero_histogram_is_C :
  (forall hist, all_zero hist -> AudioToStrudel.detectKey hist = "C")
  /\ AudioToStrudel.detectKey (repeat 0 12) = "C"
  /\ (forall notes, all_zero (BatchProcessing.chromaCounts notes) ->
                    BatchProcessing.detectKey notes = "C")
  /\ BatchProcessing.detectKey [] = "C".
Proof.
assert (H1 : forall hist, all_zero hist -> AudioToStrudel.detectKey hist = "C").
{ intros hist H. unfold AudioToStrudel.detectKey.
  rewrite (normalize_zero hist H).
  apply zero_loop_gives_C.
  - unfold AudioToStrudel.keyStep. cbn [snd].
    change (AudioToStrudel.exceeds ?x None) with true. cbn iota. cbn [snd].
    rewrite exceeds_zero by (apply correlate_zero; assumption).
    eexists. split; [|reflexivity]. now apply correlate_zero.
  - intros k c i Hc. apply single_keyStep_zero; eauto. }
assert (H2 : forall notes, all_zero (BatchProcessing.chromaCounts notes) ->
                           BatchProcessing.detectKey notes = "C").
{ intros notes H. unfold BatchProcessing.detectKey.
  apply zero_loop_gives_C.
  - unfold BatchProcessing.keyStep. cbn [snd].
    change (AudioToStrudel.exceeds ?x None) with true. cbn iota. cbn [snd].
    assert (Hr : all_zero (skipn 0 (BatchProcessing.chromaCounts notes)
                           ++ firstn 0 (BatchProcessing.chromaCounts notes))).
    { apply all_zero_app; [now apply all_zero_skipn|now apply all_zero_firstn]. }
    rewrite exceeds_zero by (apply correlate_zero; assumption).
    eexists. split; [|reflexivity]. now apply correlate_zero.
  - intros k c i Hc. apply batch_keyStep_zero; eauto. }
assert (Hz : all_zero (repeat 0 12)).
{ repeat constructor. }
split; [exact H1|]. split; [apply H1; exact Hz|].
split; [exact H2|]. apply H2. exact Hz.
Qed.

Definition unpitchedNotes : list Note :=
  [mkNote "rest" 0 (Some 1) None; mkNote "H4" 1 (Some 1) (Some (1 # 2))].

Lemma detectKey_zero_histogram_witness :
  all_zero (repeat 0 12) /\ AudioToStrudel.detectKey (repeat 0 12) = "C"
  /\ all_zero (BatchProcessing.chromaCounts unpitchedNotes)
  /\ BatchProcessing.detectKey unpitchedNotes = "C".
Proof.
assert (H1 : all_zero (repeat 0 12)) by (repeat constructor).
assert (H2 : all_zero (BatchProcessing.chromaCounts unpitchedNotes)).
{ vm_compute. repeat constructor. }
destruct detectKey_zero_histogram_is_C as (A & _ & B & _).
split; [exact H1|]. split; [exact (A _ H1)|].
split; [exact H2|]. exact (B _ H2).
Defined.

End KeyFacts.

(** ** The tempo estimators *)

Module TempoFacts.
Import JS QFacts KeyFacts.
Local Open Scope Q_scope.

(** *** Slices of a silent buffer *)

Lemma skipn_repeat {A} (x : A) k n : skipn k (repeat x n) = repeat x (n - k).
Proof.
revert k. induction n as [|n IH]; intros [|k]; simpl; try reflexivity.
apply IH.
Qed.

Lemma firstn_repeat {A} (x : A) k n :
  (k <= n)%nat -> firstn k (repeat x n) = repeat x k.
Proof.
revert k. induction n as [|n IH]; intros [|k] H; simpl; try reflexivity; [lia|].
f_equal. apply IH. lia.
Qed.

Lemma slice_repeat {A} (x : A) n i w :
  (0 <= i)%Z -> (0 <= w)%Z -> (i + w <= Z.of_nat n)%Z ->
  slice (repeat x n) i (i + w) = repeat x (Z.to_nat w).
Proof.
intros Hi Hw Hn. unfold slice. rewrite skipn_repeat.
replace (i + w - i)%Z with w by lia.
apply firstn_repeat. lia.
Qed.

(** *** The periodicity-scoring estimator of the single-file page *)

Section Scoring.
Variable Math_sqrt : Q -> Q.

Lemma scoring_bounds data sampleRate :
  (60 <= AudioToStrudel.detectTempo Math_sqrt data sampleRate <= 200)%Z.
Proof.
unfold AudioToStrudel.detectTempo.
apply (JSFacts.fold_left_invariant_in (fun st => (60 <= fst st <= 200)%Z)).
- intros s bpm Hin Hs. unfold AudioToStrudel.tempoStep.
  destruct (Qltb _ _); [|exact Hs].
  apply JSFacts.for_range_bounds in Hin; [|lia].
  unfold AudioToStrudel.minBpm, AudioToStrudel.maxBpm in Hin. simpl. lia.
- simpl. lia.
Qed.

(** With a flat energy envelope no onset has any strength. *)
Lemma onsetStrength_flat c e :
  Forall (eq c) e -> all_zero (AudioToStrudel.onsetStrength e).
Proof.
induction 1 as [|a r Ha Hr IH]; [constructor|].
destruct Hr as [|b r' Hb Hr']; [constructor|].
cbn [AudioToStrudel.onsetStrength]. constructor; [|exact IH].
subst a b. setoid_replace (c - c) with 0 by ring. apply Q.max_id.
Qed.

Lemma beatLoop_zero os beatInterval fuel :
  all_zero os -> forall beat acc, acc == 0 ->
  AudioToStrudel.beatLoop fuel os beatInterval beat acc == 0.
Proof.
intros Hos. induction fuel as [|k IH]; intros beat acc Hacc; simpl; [exact Hacc|].
destruct (Qltb _ _); [|exact Hacc].
apply IH. destruct (_ <? _)%Z; [|exact Hacc].
rewrite Hacc, (all_zero_nth os _ Hos). ring.
Qed.

Lemma bpmScore_zero os framesPerSecond bpm :
  all_zero os -> AudioToStrudel.bpmScore os framesPerSecond bpm == 0.
Proof.
intros Hos. unfold AudioToStrudel.bpmScore.
apply (JSFacts.fold_left_invariant (fun s => s == 0)); [|reflexivity].
intros s offset Hs. rewrite Hs.
unfold AudioToStrudel.tempScore.
rewrite (beatLoop_zero os _ _ Hos _ 0) by reflexivity.
apply Q.max_id.
Qed.

Lemma energies_silent n :
  exists c, Forall (eq c) (AudioToStrudel.energies Math_sqrt (repeat 0 n)).
Proof.
exists (Math_sqrt (AudioToStrudel.sum_squares (repeat 0 1024) / 1024)).
unfold AudioToStrudel.energies. apply Forall_map. apply Forall_forall.
intros i Hi. apply JSFacts.for_range_bounds in Hi; [|lia].
unfold len in Hi. rewrite repeat_length in Hi.
rewrite (slice_repeat 0 n i 1024) by lia. reflexivity.
Qed.

Lemma scoring_silent n sampleRate :
  AudioToStrudel.detectTempo Math_sqrt (repeat 0 n) sampleRate = 120%Z.
Proof.
unfold AudioToStrudel.detectTempo.
destruct (energies_silent n) as [c Hc].
pose proof (onsetStrength_flat c _ Hc) as Hos.
assert (H : forall l, fold_left
                        (AudioToStrudel.tempoStep
                           (AudioToStrudel.onsetStrength
                              (AudioToStrudel.energies Math_sqrt (repeat 0 n)))
                           (sampleRate / 512)) l (120%Z, 0) = (120%Z, 0)).
{ induction l as [|bpm r IH]; [reflexivity|].
  cbn [fold_left]. unfold AudioToStrudel.tempoStep at 2. cbn [snd].
  assert (E : Qltb 0 (AudioToStrudel.bpmScore
                        (AudioToStrudel.onsetStrength
                           (AudioToStrudel.energies Math_sqrt (repeat 0 n)))
                        (sampleRate / 512) bpm) = false).
  { apply Qltb_ge. rewrite (bpmScore_zero _ _ _ Hos). apply Qle_refl. }
  rewrite E. exact IH. }
rewrite H. reflexivity.
Qed.

(** The rounds that [tempScore] grants to the inner loop are enough:
    with more rounds the loop returns the same sum. *)
Lemma beatLoop_more_fuel os beatInterval :
  0 < beatInterval ->
  forall fuel extra beat acc,
    inject_Z (len os) - beat <= inject_Z (Z.of_nat fuel) * beatInterval ->
    AudioToStrudel.beatLoop (fuel + extra) os beatInterval beat acc
    = AudioToStrudel.beatLoop fuel os beatInterval beat acc.
Proof.
intros Hbi. induction fuel as [|k IH]; intros extra beat acc H.
- simpl in H. destruct extra as [|e]; [reflexivity|]. simpl.
  destruct (Qltb beat (inject_Z (len os))) eqn:E; [|reflexivity].
  apply Qltb_lt in E. exfalso.
  change (inject_Z 0) with 0 in H. lra.
- cbn [Nat.add AudioToStrudel.beatLoop].
  destruct (Qltb beat (inject_Z (len os))); [|reflexivity].
  apply IH.
  rewrite Nat2Z.inj_succ in H. unfold Z.succ in H. rewrite inject_Z_plus in H.
  change (inject_Z 1) with 1 in H. lra.
Qed.

Lemma beatFuel_enough os beatInterval beat :
  0 < beatInterval ->
  inject_Z (len os) - beat
  <= inject_Z (Z.of_nat (AudioToStrudel.beatFuel os beatInterval beat)) * beatInterval.
Proof.
intros Hbi. unfold AudioToStrudel.beatFuel.
set (x := (inject_Z (len os) - beat) / beatInterval).
assert (Hx : inject_Z (len os) - beat == x * beatInterval).
{ unfold x. field. lra. }
rewrite Hx. apply Qmult_le_compat_r; [|lra].
eapply Qle_trans; [apply Qle_ceiling|].
rewrite <- Zle_Qle. lia.
Qed.

End Scoring.

(** *** The onset-interval estimator of the batch page *)

Import BatchProcessing.

Lemma onsetIndices_from e : forall from,
  Forall (fun i => (from <= i)%Z) (onsetIndices from e)
  /\ StronglySorted Z.lt (onsetIndices from e).
Proof.
induction e as [|a r IH]; intros from; [split; constructor|].
destruct r as [|b r']; [split; constructor|].
destruct (IH (from + 1)%Z) as [Hge Hs].
assert (Hge' : Forall (fun i => (from <= i)%Z) (onsetIndices (from + 1) (b :: r'))).
{ eapply Forall_impl; [|exact Hge]. simpl. intros; lia. }
cbn [onsetIndices]. cbn [onsetIndices] in Hge, Hs, Hge'.
destruct (Qltb (a * 1.5) b && Qltb 0.01 b).
- split.
  + constructor; [lia|exact Hge'].
  + constructor; [exact Hs|].
    eapply Forall_impl; [|exact Hge]. simpl. intros; lia.
- split; [exact Hge'|exact Hs].
Qed.

Lemma onsets_increasing e ws sampleRate :
  (0 < ws)%Z -> 0 < sampleRate ->
  StronglySorted Qlt (onsets e ws sampleRate).
Proof.
intros Hws Hsr. unfold onsets.
destruct (onsetIndices_from e 1) as [_ Hs].
induction Hs as [|i r Hs IH Hall]; simpl; constructor; [exact IH|].
apply Forall_map. eapply Forall_impl; [|exact Hall].
intros j Hij. simpl.
apply Qmult_lt_compat_r; [now apply Qinv_lt_0_compat|].
apply Qmult_lt_compat_r; [rewrite <- (Zlt_Qlt 0); exact Hws|].
rewrite <- Zlt_Qlt. exact Hij.
Qed.

Lemma intervals_positive l :
  StronglySorted Qlt l -> Forall (fun d => 0 < d) (intervals l).
Proof.
induction 1 as [|a r Hs IH Hall]; [constructor|].
destruct r as [|b r']; [constructor|].
cbn [intervals]. constructor; [|exact IH].
inversion Hall; subst. lra.
Qed.

Lemma intervals_length l : List.length (intervals l) = (List.length l - 1)%nat.
Proof.
induction l as [|a r IH]; [reflexivity|].
destruct r as [|b r']; [reflexivity|].
cbn [intervals List.length] in *. lia.
Qed.

Lemma sum_positive l :
  Forall (fun d => 0 < d) l -> forall a, a <= fold_left Qplus l a.
Proof.
induction 1 as [|d r Hd Hr IH]; intros a; simpl; [apply Qle_refl|].
eapply Qle_trans; [|apply IH]. lra.
Qed.

Lemma average_positive l :
  Forall (fun d => 0 < d) l -> l <> [] ->
  0 < fold_left Qplus l 0 / inject_Z (len l).
Proof.
intros H Hne. destruct H as [|d r Hd Hr]; [congruence|].
apply Qlt_shift_div_l.
- unfold len. rewrite <- (Zlt_Qlt 0). simpl. lia.
- simpl. eapply Qlt_le_trans; [|apply sum_positive; exact Hr]. lra.
Qed.

Lemma doubleUp_returns : forall fuel tempo,
  0 < tempo -> 60 / tempo <= inject_Z (Z.of_nat fuel) ->
  exists t, doubleUp fuel tempo = Some t /\ 60 <= t.
Proof.
induction fuel as [|k IH]; intros tempo Ht Hf.
- exfalso. change (inject_Z (Z.of_nat 0)) with 0 in Hf.
  assert (0 < 60 / tempo) by (apply Qlt_shift_div_l; lra). lra.
- cbn [doubleUp]. destruct (Qltb tempo 60) eqn:E.
  + apply Qltb_lt in E. apply IH; [lra|].
    assert (H1 : 1 < 60 / tempo) by (apply Qlt_shift_div_l; lra).
    assert (H2 : 60 / (tempo * 2) == 60 / tempo * (1 # 2)) by (field; lra).
    rewrite H2.
    rewrite Nat2Z.inj_succ in Hf. unfold Z.succ in Hf. rewrite inject_Z_plus in Hf.
    change (inject_Z 1) with 1 in Hf.
    assert (H3 : 1 <= inject_Z (Z.of_nat k)).
    { destruct k as [|k']; [exfalso; change (inject_Z (Z.of_nat 0)) with 0 in Hf; lra|].
      rewrite <- (Zle_Qle 1). lia. }
    revert Hf H3 H1. generalize (60 / tempo), (inject_Z (Z.of_nat k)).
    intros r q Hf H3 H1. lra.
  + apply Qltb_ge in E. eauto.
Qed.

Lemma halveDown_returns : forall fuel tempo,
  60 <= tempo -> tempo <= 200 * inject_Z (Z.of_nat fuel) ->
  exists t, halveDown fuel tempo = Some t /\ 60 <= t /\ t <= 200.
Proof.
induction fuel as [|k IH]; intros tempo Ht Hf.
- exfalso. change (inject_Z (Z.of_nat 0)) with 0 in Hf. lra.
- cbn [halveDown]. destruct (Qltb 200 tempo) eqn:E.
  + apply Qltb_lt in E.
    rewrite Nat2Z.inj_succ in Hf. unfold Z.succ in Hf. rewrite inject_Z_plus in Hf.
    change (inject_Z 1) with 1 in Hf.
    assert (H3 : 1 <= inject_Z (Z.of_nat k)).
    { destruct k as [|k']; [exfalso; change (inject_Z (Z.of_nat 0)) with 0 in Hf; lra|].
      rewrite <- (Zle_Qle 1). lia. }
    assert (H2 : tempo / 2 == tempo * (1 # 2)) by field.
    apply IH; rewrite H2.
    * lra.
    * revert Hf H3. generalize (inject_Z (Z.of_nat k)). intros q Hf H3. lra.
  + apply Qltb_ge in E. eauto.
Qed.

Lemma fuel_covers x : 0 <= x -> x <= inject_Z (Z.of_nat (S (Z.to_nat (Qceiling x)))).
Proof.
intros Hx. eapply Qle_trans; [apply Qle_ceiling|].
rewrite <- Zle_Qle. lia.
Qed.

Lemma windowSize_positive sampleRate :
  20 <= sampleRate -> (0 < windowSize sampleRate)%Z.
Proof.
intros H. unfold windowSize, Math_floor.
assert (H1 : (Qfloor 1 <= Qfloor (sampleRate * 0.05))%Z).
{ apply Qfloor_resp_le. lra. }
change (Qfloor 1) with 1%Z in H1. lia.
Qed.

Lemma onset_interval_bounds channelData sampleRate :
  20 <= sampleRate ->
  exists bpm, detectTempo channelData sampleRate = Some bpm /\ (60 <= bpm <= 200)%Z.
Proof.
intros Hsr. unfold detectTempo.
pose proof (windowSize_positive sampleRate Hsr) as Hws.
assert (E : (windowSize sampleRate <=? 0)%Z = false) by (apply Z.leb_gt; exact Hws).
rewrite E. cbn [andb].
set (os := onsets (energyValues channelData (windowSize sampleRate))
                  (windowSize sampleRate) sampleRate).
destruct (len os <? 2)%Z eqn:El.
{ exists 120%Z. split; [reflexivity|lia]. }
apply Z.ltb_ge in El.
assert (Hs : StronglySorted Qlt os) by (apply onsets_increasing; [exact Hws|lra]).
assert (Hne : intervals os <> []).
{ intros Hnil. apply (f_equal (@List.length Q)) in Hnil.
  rewrite intervals_length in Hnil. unfold len in El. simpl in Hnil. lia. }
pose proof (average_positive _ (intervals_positive os Hs) Hne) as Havg.
set (avg := fold_left Qplus (intervals os) 0 / inject_Z (len (intervals os))) in *.
assert (Ht : 0 < 60 / avg) by (apply Qlt_shift_div_l; lra).
destruct (doubleUp_returns (doubleFuel (60 / avg)) (60 / avg) Ht) as [t1 [E1 H1]].
{ apply fuel_covers. apply Qlt_le_weak. apply Qlt_shift_div_l; lra. }
rewrite E1.
destruct (halveDown_returns (halveFuel t1) t1 H1) as [t2 [E2 [H2 H3]]].
{ assert (Hc : t1 / 200 <= inject_Z (Z.of_nat (halveFuel t1))).
  { apply fuel_covers. apply Qle_shift_div_l; lra. }
  revert Hc. generalize (inject_Z (Z.of_nat (halveFuel t1))). intros q Hc.
  assert (Hd : t1 == t1 / 200 * 200) by field. lra. }
rewrite E2. eexists. split; [reflexivity|].
apply Math_round_bounds; assumption.
Qed.

Lemma sum_squares_zero frame :
  all_zero frame -> AudioToStrudel.sum_squares frame == 0.
Proof.
intros H. unfold AudioToStrudel.sum_squares.
assert (G : forall a, fold_left (fun acc x => acc + x * x) frame a == a).
{ induction H as [|x r Hx Hr IH]; intros a; simpl; [reflexivity|].
  rewrite IH, Hx. ring. }
apply G.
Qed.

Lemma onsetIndices_quiet e : all_zero e -> forall from, onsetIndices from e = [].
Proof.
induction 1 as [|a r Ha Hr IH]; intros from; [reflexivity|].
destruct r as [|b r']; [reflexivity|].
cbn [onsetIndices].
assert (E : Qltb 0.01 b = false).
{ apply Qltb_ge. inversion Hr; subst. lra. }
rewrite E, andb_false_r. apply IH.
Qed.

Lemma onset_interval_silent n sampleRate :
  20 <= sampleRate -> detectTempo (repeat 0 n) sampleRate = Some 120%Z.
Proof.
intros Hsr. unfold detectTempo.
pose proof (windowSize_positive sampleRate Hsr) as Hws.
assert (E : (windowSize sampleRate <=? 0)%Z = false) by (apply Z.leb_gt; exact Hws).
rewrite E. cbn [andb].
assert (Hq : onsets (energyValues (repeat 0 n) (windowSize sampleRate))
                    (windowSize sampleRate) sampleRate = []).
{ unfold onsets. rewrite onsetIndices_quiet; [reflexivity|].
  unfold energyValues. apply Forall_map. apply Forall_forall.
  intros i _. apply sum_squares_zero.
  unfold slice. apply all_zero_firstn, all_zero_skipn.
  apply Forall_forall. intros x Hx. apply repeat_spec in Hx. subst. reflexivity. }
rewrite Hq. reflexivity.
Qed.

(** C4: the tempo estimate is an integer between 60 and 200, and 120 on a
    silent buffer.  The periodicity-scoring estimator of the single-file
    page is so for every buffer and sample rate.  The onset-interval
    estimator of the batch page is so for every buffer and every sample
    rate from 20 Hz on, where its window holds at least one sample: there
    it does return. *)
Theorem detectTempo_bounded_and_120_on_silence :
  (forall Math_sqrt data sampleRate,
      (60 <= AudioToStrudel.detectTempo Math_sqrt data sampleRate <= 200)%Z)
  /\ (forall Math_sqrt n sampleRate,
        AudioToStrudel.detectTempo Math_sqrt (repeat 0 n) sampleRate = 120%Z)
  /\ (forall channelData sampleRate,
        20 <= sampleRate ->
        exists bpm, detectTempo channelData sampleRate = Some bpm
                    /\ (60 <= bpm <= 200)%Z)
  /\ (forall n sampleRate,
        20 <= sampleRate -> detectTempo (repeat 0 n) sampleRate = Some 120%Z).
Proof.
split; [exact scoring_bounds|].
split; [exact scoring_silent|].
split; [exact onset_interval_bounds|exact onset_interval_silent].
Qed.

(** Four clicks, 0.75 s apart, at 8000 Hz. *)
Definition clickTrack : list Q :=
  List.concat
    (repeat (repeat 0 400 ++ repeat 1 100 ++ repeat 0 (Z.to_nat 5500))%list 4).

Lemma detectTempo_witness :
  20 <= 8000
  /\ detectTempo clickTrack 8000 = Some 80%Z
  /\ (exists bpm, detectTempo clickTrack 8000 = Some bpm /\ (60 <= bpm <= 200)%Z)
  /\ detectTempo (repeat 0 3000) 8000 = Some 120%Z.
Proof.
assert (H : 20 <= 8000) by (unfold Qle; simpl; lia).
destruct detectTempo_bounded_and_120_on_silence as (_ & _ & A & B).
split; [exact H|].
split; [vm_compute; reflexivity|].
split; [exact (A clickTrack 8000 H)|exact (B 3000%nat 8000 H)].
Defined.

End TempoFacts.

(** ** Decimal strings *)

Module DecimalFacts.
Import JS.
Local Open Scope Z_scope.

Lemma parseInt_acc_uint d : forall acc : positive,
  parseInt_acc (Z.pos acc) (NilEmpty.string_of_uint d)
  = Z.pos (Pos.of_uint_acc d acc).
Proof.
induction d; intros acc; cbn [NilEmpty.string_of_uint parseInt_acc Pos.of_uint_acc];
  try reflexivity;
  match goal with
  | |- context [code ?c] =>
      let v := eval vm_compute in (code c) in change (code c) with v
  end;
  match goal with
  | |- parseInt_acc ?z _ = Z.pos (Pos.of_uint_acc _ ?p) =>
      replace z with (Z.pos p) by lia
  end; apply IHd.
Qed.

Lemma parseInt_uint d :
  parseInt_acc 0 (NilEmpty.string_of_uint d) = Z.of_N (Pos.of_uint d).
Proof.
induction d; cbn [NilEmpty.string_of_uint parseInt_acc Pos.of_uint];
  try reflexivity;
  try (change (10 * 0 + (code _ - 48)) with 0; exact IHd);
  match goal with
  | |- parseInt_acc ?z _ = Z.of_N (N.pos (Pos.of_uint_acc _ ?p)) =>
      change z with (Z.pos p)
  end; apply parseInt_acc_uint.
Qed.

Lemma all_digits_uint d : all_digits (NilEmpty.string_of_uint d) = true.
Proof. induction d; simpl; auto. Qed.

(** Printing an integer that is not negative and reading it back. *)
Lemma parseInt_string_of_Z z : 0 <= z -> parseInt (string_of_Z z) = z.
Proof.
intros Hz. unfold parseInt, string_of_Z. destruct z as [|p|p]; [reflexivity| |lia].
cbn [Z.to_int NilZero.string_of_int]. unfold NilZero.string_of_uint.
pose proof (Unsigned.to_uint_nonnil p) as Hn.
destruct (Pos.to_uint p) eqn:E; [congruence| | | | | | | | | |];
  rewrite <- E, parseInt_uint, Unsigned.of_to; reflexivity.
Qed.

Lemma digits1_string_of_Z z : 0 <= z -> digits1 (string_of_Z z) = true.
Proof.
intros Hz. unfold string_of_Z. destruct z as [|p|p]; [reflexivity| |lia].
cbn [Z.to_int NilZero.string_of_int]. unfold NilZero.string_of_uint.
pose proof (Unsigned.to_uint_nonnil p) as Hn.
pose proof (all_digits_uint (Pos.to_uint p)) as Ha.
destruct (Pos.to_uint p) eqn:E; [congruence| | | | | | | | | |];
  cbn [NilEmpty.string_of_uint digits1] in *; exact Ha.
Qed.

End DecimalFacts.

(** ** The byte writers of the sequence-file encoder *)

Module ByteFacts.
Import JS MidiExport.
Local Open Scope Z_scope.

(** Reading a variable-length quantity: seven bits a byte, the first
    byte the most significant. *)
Definition readVariableLengthQuantity (bytes : list Z) : Z :=
  fold_left (fun acc b => acc * 128 + Z.land b 127) bytes 0.

(** Reading a big-endian number. *)
Definition readBigEndian (bytes : list Z) : Z :=
  fold_left (fun acc b => acc * 256 + b) bytes 0.

Definition isByte (b : Z) : Prop := 0 <= b <= 255.

Lemma ToInt32_range z : - 2 ^ 31 <= ToInt32 z < 2 ^ 31.
Proof.
unfold ToInt32.
pose proof (Z.mod_pos_bound (z + 2 ^ 31) (2 ^ 32) ltac:(lia)). lia.
Qed.

Lemma ToInt32_id z : - 2 ^ 31 <= z < 2 ^ 31 -> ToInt32 z = z.
Proof. intros H. unfold ToInt32. rewrite Z.mod_small; lia. Qed.

Lemma ToInt32_mod z : ToInt32 z mod 2 ^ 32 = z mod 2 ^ 32.
Proof.
unfold ToInt32.
rewrite Zminus_mod, Zmod_mod, <- Zminus_mod.
f_equal. lia.
Qed.

Lemma band_low a n :
  0 <= n < 31 -> band a (Z.ones n) = ToInt32 a mod 2 ^ n.
Proof.
intros Hn. unfold band.
assert (Ho : 0 <= Z.ones n < 2 ^ 31).
{ rewrite Z.ones_equiv. 
  assert (2 ^ n <= 2 ^ 30) by (apply Z.pow_le_mono_r; lia).
  assert (0 < 2 ^ n) by (apply Z.pow_pos_nonneg; lia). lia. }
rewrite (ToInt32_id (Z.ones n)) by lia.
apply Z.land_ones. lia.
Qed.

Lemma band_127 a : band a 127 = ToInt32 a mod 128.
Proof. apply (band_low a 7). lia. Qed.

Lemma band_255 a : band a 255 = ToInt32 a mod 256.
Proof. apply (band_low a 8). lia. Qed.

Lemma sar_div a k : 0 <= k <= 31 -> sar a k = ToInt32 a / 2 ^ k.
Proof.
intros Hk. unfold sar.
assert (E : Z.land k 31 = k).
{ change 31 with (Z.ones 5). rewrite Z.land_ones by lia.
  apply Z.mod_small. change (2 ^ 5) with 32. lia. }
rewrite E. apply Z.shiftr_div_pow2. lia.
Qed.

Lemma sar_range a k : 0 <= k <= 31 -> - 2 ^ 31 <= sar a k < 2 ^ 31.
Proof.
intros Hk. rewrite sar_div by exact Hk.
pose proof (ToInt32_range a) as Ha.
assert (Hp : 0 < 2 ^ k) by (apply Z.pow_pos_nonneg; lia).
split.
- apply Z.div_le_lower_bound; [lia|]. nia.
- apply Z.div_lt_upper_bound; [lia|]. nia.
Qed.

(** Setting the continuation bit of seven data bits, and masking it off. *)
Lemma lor_128 x : 0 <= x < 128 -> Z.lor x 128 = x + 128.
Proof.
intros Hx.
assert (H : forallb (fun n => Z.lor (Z.of_nat n) 128 =? Z.of_nat n + 128)
                    (seq 0 128) = true) by (vm_compute; reflexivity).
rewrite forallb_forall in H.
specialize (H (Z.to_nat x)). rewrite Z2Nat.id in H by lia.
apply Z.eqb_eq. apply H. apply in_seq. lia.
Qed.

Lemma land_continuation x : 0 <= x < 128 -> Z.land (Z.lor x 128) 127 = x.
Proof.
intros Hx. rewrite lor_128 by exact Hx.
change 127 with (Z.ones 7). rewrite Z.land_ones by lia.
change (2 ^ 7) with 128.
replace (x + 128) with (x + 1 * 128) by lia.
rewrite Z_mod_plus_full. apply Z.mod_small. lia.
Qed.

(** *** Variable-length quantities *)

Lemma vlq_loop_shape fuel : forall v bytes,
  exists pre, vlq_loop fuel v bytes = pre ++ bytes
              /\ Forall (fun b => 128 <= b <= 255) pre
              /\ (List.length pre <= fuel)%nat.
Proof.
induction fuel as [|k IH]; intros v bytes.
- exists []. split; [reflexivity|]. split; [constructor|simpl; lia].
- cbn [vlq_loop]. destruct (0 <? v).
  + destruct (IH (sar v 7) (Z.lor (band v 127) 128 :: bytes)) as (pre & E & Hp & Hl).
    exists (pre ++ [Z.lor (band v 127) 128]). split; [|split].
    * rewrite E, <- app_assoc. reflexivity.
    * apply Forall_app. split; [exact Hp|]. constructor; [|constructor].
      rewrite band_127.
      pose proof (Z.mod_pos_bound (ToInt32 v) 128 ltac:(lia)) as Hm.
      rewrite lor_128 by lia. lia.
    * rewrite length_app. simpl. lia.
  + exists []. split; [reflexivity|]. split; [constructor|simpl; lia].
Qed.

Lemma vlq_well_formed_parts value :
  exists pre last,
    writeVariableLengthQuantity value = pre ++ [last]
    /\ Forall (fun b => 128 <= b <= 255) pre
    /\ 0 <= last <= 127
    /\ (List.length pre <= 4)%nat.
Proof.
rewrite <- (MidiExportFacts.vlq_rounds_suffice value 0).
pose proof (MidiExportFacts.sar7_below value) as Hs.
change (5 + 0)%nat with (4 + 1)%nat.
rewrite MidiExportFacts.vlq_loop_more_fuel by (change (7 * Z.of_nat 4) with 28; lia).
destruct (vlq_loop_shape 4 (sar value 7) [band value 127]) as (pre & E & Hp & Hl).
exists pre, (band value 127).
pose proof (Z.mod_pos_bound (ToInt32 value) 128 ltac:(lia)).
split; [exact E|]. split; [exact Hp|]. split; [rewrite band_127; lia|exact Hl].
Qed.

(** X1: every variable-length quantity that the encoder writes is well
    formed, whatever the number: at most four bytes with the continuation
    bit set, then one final byte with the bit clear. *)
Theorem vlq_well_formed value :
  exists pre last,
    writeVariableLengthQuantity value = pre ++ [last]
    /\ Forall (fun b => 128 <= b <= 255) pre
    /\ 0 <= last <= 127
    /\ (List.length pre <= 4)%nat.
Proof. exact (vlq_well_formed_parts value). Qed.

Lemma vlq_loop_read fuel : forall v bytes,
  0 <= v < 2 ^ 31 -> v < 128 ^ Z.of_nat fuel ->
  fold_left (fun acc b => acc * 128 + Z.land b 127) (vlq_loop fuel v bytes) 0
  = fold_left (fun acc b => acc * 128 + Z.land b 127) bytes v.
Proof.
induction fuel as [|k IH]; intros v bytes Hv Hf.
- simpl in Hf. assert (v = 0) by lia. subst. reflexivity.
- cbn [vlq_loop]. destruct (0 <? v) eqn:E.
  + apply Z.ltb_lt in E.
    assert (Hd : sar v 7 = v / 128).
    { rewrite sar_div by lia. rewrite ToInt32_id by lia. reflexivity. }
    rewrite Hd. rewrite IH.
    * cbn [fold_left]. f_equal.
      rewrite band_127, ToInt32_id by lia.
      rewrite land_continuation by (apply Z.mod_pos_bound; lia).
      pose proof (Z.div_mod v 128 ltac:(lia)). lia.
    * split; [apply Z.div_pos; lia|].
      apply Z.div_lt_upper_bound; lia.
    * apply Z.div_lt_upper_bound; [lia|].
      rewrite Nat2Z.inj_succ, Z.pow_succ_r in Hf by lia. lia.
  + apply Z.ltb_ge in E. assert (v = 0) by lia. subst. reflexivity.
Qed.

(** X2: a quantity between 0 and 2^31 - 1 is read back from the bytes the
    encoder writes for it. *)
Theorem vlq_round_trip value :
  0 <= value < 2 ^ 31 ->
  readVariableLengthQuantity (writeVariableLengthQuantity value) = value.
Proof.
intros Hv. unfold readVariableLengthQuantity, writeVariableLengthQuantity.
assert (Hd : sar value 7 = value / 128).
{ rewrite sar_div by lia. rewrite ToInt32_id by lia. reflexivity. }
rewrite Hd, vlq_loop_read.
- cbn [fold_left]. rewrite band_127, ToInt32_id by lia.
  change 127 with (Z.ones 7). rewrite Z.land_ones by lia.
  change (2 ^ 7) with 128. rewrite Zmod_mod.
  pose proof (Z.div_mod value 128 ltac:(lia)). lia.
- split; [apply Z.div_pos; lia|]. apply Z.div_lt_upper_bound; lia.
- apply Z.div_lt_upper_bound; [lia|].
  change (128 ^ Z.of_nat 5) with (2 ^ 35).
  assert (2 ^ 31 < 128 * 2 ^ 35) by (vm_compute; reflexivity). lia.
Qed.

Lemma vlq_round_trip_witness :
  0 <= 200000 < 2 ^ 31
  /\ writeVariableLengthQuantity 200000 = [140; 154; 64]
  /\ readVariableLengthQuantity (writeVariableLengthQuantity 200000) = 200000.
Proof.
assert (H : 0 <= 200000 < 2 ^ 31) by (split; [lia|reflexivity]).
split; [exact H|]. split; [vm_compute; reflexivity|].
apply (vlq_round_trip 200000 H).
Defined.

(** *** Big-endian numbers *)

Lemma byte_of_shift m k :
  0 <= k <= 24 -> band (sar m k) 255 = (ToInt32 m / 2 ^ k) mod 256.
Proof.
intros Hk. rewrite band_255.
rewrite (ToInt32_id (sar m k)) by (apply sar_range; lia).
rewrite sar_div by lia. reflexivity.
Qed.

Lemma big_endian_parts value :
  Forall isByte (writeInt32BE value)
  /\ readBigEndian (writeInt32BE value) = value mod 2 ^ 32
  /\ Forall isByte (writeInt16BE value)
  /\ readBigEndian (writeInt16BE value) = value mod 2 ^ 16.
Proof.
unfold writeInt32BE, writeInt16BE, readBigEndian, isByte. cbn [fold_left].
rewrite !byte_of_shift by lia. rewrite band_255.
rewrite <- (ToInt32_mod value).
assert (E16 : value mod 2 ^ 16 = ToInt32 value mod 2 ^ 16).
{ assert (D : (2 ^ 16 | 2 ^ 32)) by (exists (2 ^ 16); reflexivity).
  rewrite <- (Z.mod_mod_divide value (2 ^ 32) (2 ^ 16) D).
  rewrite <- (Z.mod_mod_divide (ToInt32 value) (2 ^ 32) (2 ^ 16) D).
  rewrite ToInt32_mod. reflexivity. }
rewrite E16.
generalize (ToInt32 value). intros m.
change (2 ^ 24) with 16777216. change (2 ^ 16) with 65536.
change (2 ^ 8) with 256. change (2 ^ 32) with 4294967296.
pose proof (Z.mod_pos_bound (m / 16777216) 256 ltac:(lia)).
pose proof (Z.mod_pos_bound (m / 65536) 256 ltac:(lia)).
pose proof (Z.mod_pos_bound (m / 256) 256 ltac:(lia)).
pose proof (Z.mod_pos_bound m 256 ltac:(lia)).
repeat apply conj; try (repeat constructor; lia).
- change 4294967296 with (256 * (256 * (256 * 256))).
  rewrite !Z.rem_mul_r by lia.
  rewrite !Z.div_div by lia.
  change (256 * 256) with 65536. change (65536 * 256) with 16777216. lia.
- change 65536 with (256 * 256).
  rewrite !Z.rem_mul_r by lia. lia.
Qed.

Lemma writeInt32BE_bytes value : Forall isByte (writeInt32BE value).
Proof. exact (proj1 (big_endian_parts value)). Qed.

Lemma writeInt16BE_bytes value : Forall isByte (writeInt16BE value).
Proof. exact (proj1 (proj2 (proj2 (big_endian_parts value)))). Qed.

Lemma read_writeInt32BE value : readBigEndian (writeInt32BE value) = value mod 2 ^ 32.
Proof. exact (proj1 (proj2 (big_endian_parts value))). Qed.

(** X3: the four bytes of [writeInt32BE] and the two bytes of
    [writeInt16BE] are bytes, and read big-endian they give the value
    back modulo 2^32 and 2^16: exactly, for a length or a division that
    fits, and wrapped for one that does not. *)
Theorem big_endian_round_trip value :
  Forall isByte (writeInt32BE value)
  /\ readBigEndian (writeInt32BE value) = value mod 2 ^ 32
  /\ Forall isByte (writeInt16BE value)
  /\ readBigEndian (writeInt16BE value) = value mod 2 ^ 16.
Proof. exact (big_endian_parts value). Qed.

End ByteFacts.

(** ** The exported file as a whole *)

Module MidiFileFacts.
Import JS MidiExport ByteFacts.
Local Open Scope string_scope.
Local Open Scope list_scope.
Local Open Scope Z_scope.

(** Reading one chunk: a tag of four bytes, a big-endian length of four
    bytes, and that many bytes of body; what follows is handed back. *)
Definition readChunk (bytes : list Z) : option (list Z * list Z * list Z) :=
  let n := Z.to_nat (readBigEndian (firstn 4 (skipn 4 bytes))) in
  let rest := skipn 8 bytes in
  if (List.length bytes <? 8)%nat || (List.length rest <? n)%nat then None
  else Some (firstn 4 bytes, firstn n rest, skipn n rest).

Definition MThd : list Z := [77; 84; 104; 100].
Definition MTrk : list Z := [77; 84; 114; 107].
Definition endOfTrack : list Z := [0; 255; 47; 0].

(** The body of a track chunk, as [createMidiTrack] collects it in
    [trackData]. *)
Definition trackData (events : list DeltaEvent) : list Z :=
  flat_map (fun e => writeVariableLengthQuantity (delta e) ++ d_data e) events
  ++ writeVariableLengthQuantity 0 ++ [255; 47; 0].

Definition wrapData (e : DeltaEvent) : DeltaEvent :=
  mkDelta (delta e) (map ToUint8 (d_data e)).

Lemma ToUint8_byte b : isByte b -> ToUint8 b = b.
Proof. unfold isByte, ToUint8. intros H. apply Z.mod_small. lia. Qed.

Lemma map_ToUint8_bytes l : Forall isByte l -> map ToUint8 l = l.
Proof.
induction 1 as [|b r Hb _ IH]; [reflexivity|].
simpl. now rewrite ToUint8_byte, IH.
Qed.

Lemma vlq_bytes value : Forall isByte (writeVariableLengthQuantity value).
Proof.
destruct (vlq_well_formed_parts value) as (pre & last & E & Hp & Hl & _).
rewrite E. apply Forall_app. split.
- eapply Forall_impl; [|exact Hp]. unfold isByte. intros; lia.
- constructor; [unfold isByte; lia|constructor].
Qed.

Lemma vlq_length value :
  (1 <= List.length (writeVariableLengthQuantity value) <= 5)%nat.
Proof.
destruct (vlq_well_formed_parts value) as (pre & last & E & _ & _ & Hl).
rewrite E, length_app. simpl. lia.
Qed.

(** Storing a track into the byte array wraps the data bytes of its
    events and nothing else. *)
Lemma trackData_wrap events :
  map ToUint8 (trackData events) = trackData (map wrapData events).
Proof.
unfold trackData. rewrite map_app. f_equal.
induction events as [|e r IH]; [reflexivity|].
cbn [flat_map map]. rewrite !map_app, IH.
rewrite (map_ToUint8_bytes _ (vlq_bytes (delta e))). reflexivity.
Qed.

Lemma trackData_length events :
  List.length (trackData (map wrapData events)) = List.length (trackData events).
Proof. rewrite <- trackData_wrap. apply length_map. Qed.

Lemma createMidiTrack_wrap events :
  map ToUint8 (createMidiTrack events)
  = MTrk ++ writeInt32BE (len (trackData (map wrapData events)))
         ++ trackData (map wrapData events).
Proof.
unfold createMidiTrack. fold (trackData events).
rewrite !map_app, trackData_wrap. unfold len. rewrite trackData_length.
f_equal. f_equal.
apply map_ToUint8_bytes. exact (writeInt32BE_bytes _).
Qed.

Lemma readChunk_framed tag body rest :
  List.length tag = 4%nat -> len body < 2 ^ 32 ->
  readChunk (tag ++ writeInt32BE (len body) ++ body ++ rest)
  = Some (tag, body, rest).
Proof.
intros Ht Hb. unfold readChunk.
destruct tag as [|t1 [|t2 [|t3 [|t4 [|]]]]]; try discriminate.
assert (Hl : List.length (writeInt32BE (len body)) = 4%nat) by reflexivity.
remember (writeInt32BE (len body)) as w eqn:Ew.
destruct w as [|w1 [|w2 [|w3 [|w4 [|]]]]]; try discriminate.
cbn [app skipn firstn List.length].
rewrite Ew.
rewrite (read_writeInt32BE (len body)). rewrite Z.mod_small by (unfold len in *; lia).
unfold len. rewrite Nat2Z.id.
rewrite length_app.
replace (List.length body + List.length rest <? List.length body)%nat with false
  by (symmetry; apply Nat.ltb_ge; lia).
cbn [Nat.ltb Nat.leb orb].
rewrite firstn_app, Nat.sub_diag, firstn_all, firstn_O, app_nil_r.
rewrite skipn_app, Nat.sub_diag, skipn_all. reflexivity.
Qed.



Lemma trackData_bound k events :
  Forall (fun e => (List.length (d_data e) <= k)%nat) events ->
  (List.length (trackData events) <= (5 + k) * List.length events + 4)%nat.
Proof.
unfold trackData. rewrite length_app. intros H.
assert (H0 : List.length (writeVariableLengthQuantity 0 ++ [255; 47; 0]) = 4%nat)
  by reflexivity.
rewrite H0. apply Nat.add_le_mono_r.
induction H as [|e r He _ IH]; [simpl; lia|].
cbn [flat_map List.length]. rewrite !length_app.
pose proof (vlq_length (delta e)). lia.
Qed.

Lemma trackData_ends events :
  exists pre, trackData events = pre ++ endOfTrack.
Proof.
unfold trackData. eexists. reflexivity.
Qed.

Lemma pushedEvents_data melody chords o :
  Forall (fun e => List.length (data e) = 3%nat) (pushedEvents melody chords o).
Proof.
unfold pushedEvents. apply Forall_app. split.
- destruct (opt_default (includeMelody o) true); [|constructor].
  apply Forall_flat_map. apply Forall_forall. intros n _.
  repeat constructor.
- destruct (opt_default (includeChords o) true); [|constructor].
  apply Forall_flat_map. apply Forall_forall. intros c _.
  unfold chordEvents. apply Forall_flat_map. apply Forall_forall. intros x _.
  repeat constructor.
Qed.

Lemma pushedEvents_length melody chords o :
  (List.length (pushedEvents melody chords o)
   <= 2 * (List.length melody + List.length (flat_map notes chords)))%nat.
Proof.
unfold pushedEvents. rewrite length_app.
assert (Hm : List.length (flat_map (melodyEvents o) melody)
             = (2 * List.length melody)%nat).
{ induction melody as [|n r IH]; [reflexivity|].
  cbn [flat_map]. rewrite length_app, IH. simpl. lia. }
assert (Hn : forall c, List.length (chordEvents o c)
                       = (2 * List.length (notes c))%nat).
{ intros c. unfold chordEvents.
  induction (notes c) as [|x r IH]; [reflexivity|].
  cbn [flat_map]. rewrite length_app, IH. simpl. lia. }
assert (Hc : List.length (flat_map (chordEvents o) chords)
             = (2 * List.length (flat_map notes chords))%nat).
{ induction chords as [|c r IH]; [reflexivity|].
  cbn [flat_map]. rewrite !length_app, IH, Hn. lia. }
destruct (opt_default (includeMelody o) true),
         (opt_default (includeChords o) true);
  rewrite ?Hm, ?Hc; simpl; lia.
Qed.

Lemma deltaEncode_shape evs : forall lastTick,
  map d_data (deltaEncode lastTick evs) = map data evs.
Proof.
induction evs as [|e r IH]; intros lastTick; [reflexivity|].
simpl. now rewrite IH.
Qed.

Lemma noteTrack_events melody chords o :
  let events := deltaEncode 0 (absoluteEvents melody chords o) in
  List.length events = List.length (pushedEvents melody chords o)
  /\ Forall (fun e => (List.length (d_data e) <= 3)%nat) (map wrapData events).
Proof.
intros events. split.
- rewrite <- (length_map d_data). unfold events.
  rewrite deltaEncode_shape, length_map. unfold absoluteEvents.
  symmetry. apply Permutation_length. apply JSFacts.sort_perm.
- apply Forall_map. apply Forall_forall. intros e He.
  unfold wrapData. cbn [d_data]. rewrite length_map.
  assert (H : In (d_data e) (map data (absoluteEvents melody chords o))).
  { unfold events in He. rewrite <- (deltaEncode_shape _ 0).
    now apply in_map. }
  apply in_map_iff in H. destruct H as (a & Ea & Ha).
  unfold absoluteEvents in Ha.
  apply (Permutation_in _ (Permutation_sym (JSFacts.sort_perm compareEvents _))) in Ha.
  pose proof (pushedEvents_data melody chords o) as Hd.
  rewrite Forall_forall in Hd. rewrite <- Ea, (Hd a Ha). lia.
Qed.

Lemma file_chunks melody chords o :
  len melody + len (flat_map notes chords) < 2 ^ 27 ->
  exists division tempoBody noteBody afterHeader afterTempo,
    readChunk (exportMelodyToMidi melody chords o)
    = Some (MThd, [0; 1; 0; 2] ++ division, afterHeader)
    /\ division = writeInt16BE (ticksPerBeat o)
    /\ readChunk afterHeader = Some (MTrk, tempoBody ++ endOfTrack, afterTempo)
    /\ readChunk afterTempo = Some (MTrk, noteBody ++ endOfTrack, []).
Proof.
intros Hn. unfold exportMelodyToMidi, tempoTrack, noteTrack.
set (tempoEvents := [_; _; _]).
set (noteEvents := deltaEncode 0 (absoluteEvents melody chords o)).
rewrite !map_app, !createMidiTrack_wrap.
destruct (trackData_ends (map wrapData tempoEvents)) as (tempoBody & Et).
destruct (trackData_ends (map wrapData noteEvents)) as (noteBody & En).
assert (Lt : len (trackData (map wrapData tempoEvents)) < 2 ^ 32).
{ assert (H : Forall (fun e => (List.length (d_data e) <= 14)%nat)
                     (map wrapData tempoEvents)).
  { repeat constructor. }
  apply trackData_bound in H. rewrite length_map in H.
  unfold len. change (List.length tempoEvents) with 3%nat in H.
  assert (2 ^ 32 = 4294967296) by reflexivity. lia. }
assert (Ln : len (trackData (map wrapData noteEvents)) < 2 ^ 32).
{ destruct (noteTrack_events melody chords o) as (Hl & Hd).
  fold noteEvents in Hl, Hd.
  apply trackData_bound in Hd. rewrite length_map, Hl in Hd.
  pose proof (pushedEvents_length melody chords o) as Hp.
  unfold len in *.
  assert (2 ^ 32 = 4294967296) by reflexivity.
  assert (2 ^ 27 = 134217728) by reflexivity. lia. }
set (noteChunk := MTrk ++ writeInt32BE (len (trackData (map wrapData noteEvents)))
                       ++ trackData (map wrapData noteEvents)).
set (tempoChunk := MTrk ++ writeInt32BE (len (trackData (map wrapData tempoEvents)))
                        ++ trackData (map wrapData tempoEvents)).
exists (writeInt16BE (ticksPerBeat o)), tempoBody, noteBody,
       (tempoChunk ++ noteChunk), noteChunk.
split; [|split; [reflexivity|split]].
- unfold headerChunk.
  rewrite map_app, (map_app _ (writeInt16BE 2)).
  rewrite (map_ToUint8_bytes (writeInt16BE (ticksPerBeat o)))
    by exact (writeInt16BE_bytes _).
  set (w := writeInt16BE (ticksPerBeat o)).
  set (rest := tempoChunk ++ noteChunk).
  change (readChunk (MThd ++ writeInt32BE (len ([0; 1; 0; 2] ++ w))
                          ++ ([0; 1; 0; 2] ++ w) ++ rest)
          = Some (MThd, [0; 1; 0; 2] ++ w, rest)).
  apply readChunk_framed; reflexivity.
- rewrite <- Et. unfold tempoChunk. rewrite <- !app_assoc.
  apply readChunk_framed; [reflexivity|exact Lt].
- rewrite <- En. unfold noteChunk.
  rewrite <- (app_nil_r (trackData (map wrapData noteEvents))) at 2.
  apply readChunk_framed; [reflexivity|exact Ln].
Qed.

(** X4: the exported file is a well-formed container: a header chunk of
    six bytes (format 1, two tracks, the pulses per quarter note), then
    the tempo track and the note track, each with a declared length that
    is the length of its body and each closed by the end-of-track event,
    and nothing after them.  The bound on the number of notes keeps the
    body length inside four bytes. *)
Theorem exported_file_is_three_chunks melody chords o :
  len melody + len (flat_map notes chords) < 2 ^ 27 ->
  exists division tempoBody noteBody afterHeader afterTempo,
    readChunk (exportMelodyToMidi melody chords o)
    = Some (MThd, [0; 1; 0; 2] ++ division, afterHeader)
    /\ division = writeInt16BE (ticksPerBeat o)
    /\ readChunk afterHeader = Some (MTrk, tempoBody ++ endOfTrack, afterTempo)
    /\ readChunk afterTempo = Some (MTrk, noteBody ++ endOfTrack, []).
Proof. exact (file_chunks melody chords o). Qed.

Lemma exported_file_witness :
  len ([] : list Note) + len (flat_map notes [MidiExportFacts.chordD]) < 2 ^ 27
  /\ exists division tempoBody noteBody afterHeader afterTempo,
    readChunk (exportMelodyToMidi [] [MidiExportFacts.chordD] MidiExportFacts.optionsD)
    = Some (MThd, [0; 1; 0; 2] ++ division, afterHeader)
    /\ division = writeInt16BE (ticksPerBeat MidiExportFacts.optionsD)
    /\ readChunk afterHeader = Some (MTrk, tempoBody ++ endOfTrack, afterTempo)
    /\ readChunk afterTempo = Some (MTrk, noteBody ++ endOfTrack, []).
Proof.
assert (H : len ([] : list Note) + len (flat_map notes [MidiExportFacts.chordD]) < 2 ^ 27)
  by (vm_compute; reflexivity).
split; [exact H|].
apply (exported_file_is_three_chunks [] [MidiExportFacts.chordD] MidiExportFacts.optionsD H).
Defined.

End MidiFileFacts.

(** ** The events of the note track *)

Module MidiEventFacts.
Import JS MidiExport.
Local Open Scope string_scope.
Local Open Scope list_scope.
Local Open Scope Z_scope.

(** What a reader of the track does with the deltas: it adds them up. *)
Fixpoint absoluteTicks (lastTick : Z) (events : list DeltaEvent) : list Z :=
  match events with
  | [] => []
  | e :: r => (lastTick + delta e) :: absoluteTicks (lastTick + delta e) r
  end.

Lemma Math_round_nonneg x : (0 <= x)%Q -> 0 <= Math_round x.
Proof.
intros H. unfold Math_round.
change 0 with (Qfloor 0). apply Qfloor_resp_le. lra.
Qed.

Lemma timeToTicks_nonneg o t :
  (0 <= tempo o)%Q -> 0 <= ticksPerBeat o -> (0 <= t)%Q -> 0 <= timeToTicks o t.
Proof.
intros Ht Hp H. unfold timeToTicks. apply Math_round_nonneg.
assert (Hq : (0 <= inject_Z (ticksPerBeat o))%Q).
{ change 0%Q with (inject_Z 0). rewrite <- Zle_Qle. exact Hp. }
apply Qmult_le_0_compat; [|exact Hq].
unfold Qdiv. apply Qmult_le_0_compat; [|discriminate].
apply Qmult_le_0_compat; assumption.
Qed.

Lemma pushedEvents_ticks melody chords o :
  (0 <= tempo o)%Q -> 0 <= ticksPerBeat o ->
  Forall (fun n => (0 <= time n)%Q) melody ->
  Forall (fun c => (0 <= chord_time c)%Q) chords ->
  Forall (fun e => 0 <= absoluteTick e) (pushedEvents melody chords o).
Proof.
intros Ht Hp Hm Hc. unfold pushedEvents. apply Forall_app. split.
- destruct (opt_default (includeMelody o) true); [|constructor].
  apply Forall_flat_map. eapply Forall_impl; [|exact Hm].
  intros n Hn. pose proof (timeToTicks_nonneg o (time n) Ht Hp Hn).
  unfold melodyEvents. repeat constructor; cbn [absoluteTick]; lia.
- destruct (opt_default (includeChords o) true); [|constructor].
  apply Forall_flat_map. eapply Forall_impl; [|exact Hc].
  intros c Hn. pose proof (timeToTicks_nonneg o (chord_time c) Ht Hp Hn).
  unfold chordEvents. apply Forall_flat_map. apply Forall_forall. intros x _.
  repeat constructor; cbn [absoluteTick]; lia.
Qed.

Lemma absoluteEvents_sorted melody chords o :
  StronglySorted (fun a b => absoluteTick a <= absoluteTick b)
                 (absoluteEvents melody chords o).
Proof.
eapply JSFacts.StronglySorted_weaken;
  [|apply (JSFacts.sort_sorted compareEvents
             MidiExportFacts.compareEvents_total MidiExportFacts.compareEvents_trans)].
intros a b H. apply MidiExportFacts.compareEvents_le in H.
destruct H as [H|[H _]]; lia.
Qed.

Lemma deltaEncode_sums evs :
  StronglySorted (fun a b => absoluteTick a <= absoluteTick b) evs ->
  forall lastTick, Forall (fun e => lastTick <= absoluteTick e) evs ->
  absoluteTicks lastTick (deltaEncode lastTick evs) = map absoluteTick evs.
Proof.
induction 1 as [|e r Hs IH Hall]; intros lastTick Hl; [reflexivity|].
cbn [deltaEncode absoluteTicks map delta].
inversion Hl as [|? ? He Hr]; subst.
replace (lastTick + Z.max 0 (absoluteTick e - lastTick)) with (absoluteTick e) by lia.
f_equal. apply IH. exact Hall.
Qed.

Lemma deltaEncode_nonneg evs : forall lastTick,
  Forall (fun d => 0 <= delta d) (deltaEncode lastTick evs).
Proof.
induction evs as [|e r IH]; intros lastTick; constructor; [cbn; lia|apply IH].
Qed.

(** X5: when the tempo, the pulses per quarter note and the onsets are
    not negative, the deltas of the note track are the true distances
    between consecutive events: adding them up from 0 gives back the
    absolute tick of every event, with its data bytes unchanged. *)
Theorem deltas_add_up_to_ticks melody chords o :
  (0 <= tempo o)%Q -> 0 <= ticksPerBeat o ->
  Forall (fun n => (0 <= time n)%Q) melody ->
  Forall (fun c => (0 <= chord_time c)%Q) chords ->
  let evs := absoluteEvents melody chords o in
  let track := deltaEncode 0 evs in
  absoluteTicks 0 track = map absoluteTick evs
  /\ map d_data track = map data evs
  /\ Forall (fun d => 0 <= delta d) track.
Proof.
intros Ht Hp Hm Hc evs track. split; [|split].
- apply deltaEncode_sums; [apply absoluteEvents_sorted|].
  eapply Permutation_Forall; [apply JSFacts.sort_perm|].
  apply pushedEvents_ticks; assumption.
- apply MidiFileFacts.deltaEncode_shape.
- apply deltaEncode_nonneg.
Qed.

Lemma deltas_add_up_witness :
  let evs := absoluteEvents MidiExportFacts.twoNotes [] MidiExportFacts.optionsD in
  let track := deltaEncode 0 evs in
  map delta track = [0; 480; 0; 480]
  /\ absoluteTicks 0 track = map absoluteTick evs
  /\ map d_data track = map data evs
  /\ Forall (fun d => 0 <= delta d) track.
Proof.
intros evs track. split; [vm_compute; reflexivity|].
apply (deltas_add_up_to_ticks MidiExportFacts.twoNotes [] MidiExportFacts.optionsD).
- vm_compute. discriminate.
- vm_compute. discriminate.
- repeat constructor; vm_compute; discriminate.
- constructor.
Defined.

(** *** Every note is switched off after it is switched on *)





End MidiEventFacts.

(** ** Pitch names and key numbers *)

Module PitchNameFacts.
Import JS MidiExport.
Local Open Scope string_scope.
Local Open Scope list_scope.
Local Open Scope Z_scope.

Lemma NOTE_MAP_keys k pc :
  lookup k NOTE_MAP = Some pc ->
  exists a, (k = String a EmptyString \/ k = String a "s")
            /\ (97 <=? code a) && (code a <=? 103) = true.
Proof.
unfold NOTE_MAP. cbn [lookup].
repeat match goal with
| |- context [String.eqb k ?s] =>
    destruct (String.eqb_spec k s) as [->|_];
      [intros _; eexists; split; [(left; reflexivity) || (right; reflexivity)|
                                  vm_compute; reflexivity]|]
end.
discriminate.
Qed.

Lemma digit_is_not_s d : is_digit d = true -> is_s d = false.
Proof.
unfold is_digit, is_s, lower_char, is_upper. intros H.
apply andb_true_iff in H as [H1 H2].
apply Z.leb_le in H1. apply Z.leb_le in H2.
replace (65 <=? code d) with false by (symmetry; apply Z.leb_gt; lia).
cbn [andb]. apply Z.eqb_neq. lia.
Qed.

Lemma append_single c s : (String c EmptyString ++ s)%string = String c s.
Proof. reflexivity. Qed.

(** The names that [NOTE_MAP] knows, in either case, followed by the
    decimal digits of an octave, parse into that name and that octave. *)
Lemma parseNote_of_name name pc octave :
  lookup (toLowerCase name) NOTE_MAP = Some pc -> 0 <= octave ->
  parseNote (name ++ string_of_Z octave)%string = Some (toLowerCase name, octave).
Proof.
intros Hk Ho.
pose proof (DecimalFacts.parseInt_string_of_Z octave Ho) as Hp.
pose proof (DecimalFacts.digits1_string_of_Z octave Ho) as Hd.
destruct (NOTE_MAP_keys _ _ Hk) as (a & [E|E] & Ha).
- destruct name as [|c1 [|c2 r]]; try discriminate.
  cbn [toLowerCase] in E. injection E as E.
  cbn [String.append]. unfold parseNote, is_a_to_g. rewrite E, Ha.
  destruct (string_of_Z octave) as [|d ds] eqn:Es; [discriminate|].
  assert (Hs : is_s d = false).
  { apply digit_is_not_s. cbn [digits1 all_digits] in Hd.
    apply andb_true_iff in Hd. tauto. }
  rewrite Hs. cbn [andb]. rewrite Hd, Hp. cbn [toLowerCase].
  rewrite E. reflexivity.
- destruct name as [|c1 [|c2 [|c3 r]]]; try discriminate.
  cbn [toLowerCase] in E. injection E as E1 E2.
  cbn [String.append]. unfold parseNote, is_a_to_g, is_s.
  rewrite E1, E2, Ha, Hd, Hp.
  change (code "s" =? 115) with true. cbn [andb toLowerCase].
  rewrite E1, E2. reflexivity.
Qed.

Lemma noteToMidi_name name pc octave :
  lookup (toLowerCase name) NOTE_MAP = Some pc -> 0 <= octave ->
  noteToMidi (name ++ string_of_Z octave)%string = pc + (octave + 1) * 12.
Proof.
intros Hk Ho. unfold noteToMidi.
rewrite (parseNote_of_name name pc octave Hk Ho), Hk. reflexivity.
Qed.

(** X7: a pitch name that [NOTE_MAP] knows, written in either case and
    followed by the decimal digits of an octave that is not negative, is
    given the key number pitch class + 12 * (octave + 1): middle C, "c4",
    is 60, and each octave adds 12. *)
Theorem noteToMidi_of_name_and_octave name pc octave :
  lookup (toLowerCase name) NOTE_MAP = Some pc -> 0 <= octave ->
  noteToMidi (name ++ string_of_Z octave)%string = pc + (octave + 1) * 12.
Proof. exact (noteToMidi_name name pc octave). Qed.

Lemma noteToMidi_of_name_witness :
  lookup (toLowerCase "Fs") NOTE_MAP = Some 6 /\ 0 <= 3
  /\ ("Fs" ++ string_of_Z 3)%string = "Fs3"
  /\ noteToMidi ("Fs" ++ string_of_Z 3)%string = 6 + (3 + 1) * 12.
Proof.
assert (H1 : lookup (toLowerCase "Fs") NOTE_MAP = Some 6) by reflexivity.
assert (H2 : 0 <= 3) by lia.
split; [exact H1|]. split; [exact H2|]. split; [reflexivity|].
apply (noteToMidi_of_name_and_octave "Fs" 6 3 H1 H2).
Defined.

(** The twelve names of the segmenters are the keys of [NOTE_MAP], in
    the order of their pitch classes. *)
Lemma noteNames_lookup i :
  0 <= i < 12 ->
  lookup (toLowerCase (nth (Z.to_nat i) AudioToStrudel.noteNames "undefined"))
         NOTE_MAP = Some i.
Proof.
intros H.
assert (Hc : forallb (fun n =>
          match lookup (toLowerCase (nth n AudioToStrudel.noteNames "undefined"))
                       NOTE_MAP with
          | Some v => v =? Z.of_nat n
          | None => false
          end) (seq 0 12) = true) by (vm_compute; reflexivity).
rewrite forallb_forall in Hc. specialize (Hc (Z.to_nat i)).
destruct (lookup _ NOTE_MAP) as [v|].
- f_equal. rewrite Z2Nat.id in Hc by lia. apply Z.eqb_eq. apply Hc.
  apply in_seq. lia.
- discriminate Hc. apply in_seq. lia.
Qed.

(** *** The batch page *)

Section Batch.
Variable Math_log2 : Q -> Q.

Lemma batch_name_parts frequency :
  BatchProcessing.frequencyToNote Math_log2 frequency <> EmptyString ->
  let noteIndex := Math_round (12 * Math_log2 (frequency / 440)) + 57 in
  0 <= noteIndex <= 127
  /\ BatchProcessing.frequencyToNote Math_log2 frequency
     = (nth (Z.to_nat (noteIndex mod 12)) AudioToStrudel.noteNames "undefined"
        ++ string_of_Z (noteIndex / 12))%string.
Proof.
intros H noteIndex. unfold BatchProcessing.frequencyToNote in *.
destruct (Qle_bool frequency 0); [congruence|].
fold noteIndex in H |- *.
destruct ((noteIndex <? 0) || (127 <? noteIndex)) eqn:E; [congruence|].
apply orb_false_iff in E as [E1 E2].
apply Z.ltb_ge in E1. apply Z.ltb_ge in E2.
split; [lia|reflexivity].
Qed.

Lemma batch_name_key frequency :
  BatchProcessing.frequencyToNote Math_log2 frequency <> EmptyString ->
  noteToMidi (BatchProcessing.frequencyToNote Math_log2 frequency)
  = Math_round (12 * Math_log2 (frequency / 440)) + 69.
Proof.
intros H. destruct (batch_name_parts frequency H) as (Hr & ->).
set (noteIndex := Math_round (12 * Math_log2 (frequency / 440)) + 57) in *.
pose proof (Z.mod_pos_bound noteIndex 12 ltac:(lia)) as Hm.
rewrite (noteToMidi_name _ (noteIndex mod 12)).
- pose proof (Z.div_mod noteIndex 12 ltac:(lia)). lia.
- apply noteNames_lookup. exact Hm.
- apply Z.div_pos; lia.
Qed.
End Batch.

(** X8: on the batch page, a name that [frequencyToNote] gives reads
    back in the encoder as the key number of the frequency,
    69 + round (12 * log2 (frequency / 440)): the name and the octave
    digits lose nothing. *)
Theorem batch_name_reads_back_as_key (Math_log2 : Q -> Q) (frequency : Q) :
  BatchProcessing.frequencyToNote Math_log2 frequency <> EmptyString ->
  noteToMidi (BatchProcessing.frequencyToNote Math_log2 frequency)
  = Math_round (12 * Math_log2 (frequency / 440)%Q) + 69.
Proof. exact (batch_name_key Math_log2 frequency). Qed.

Lemma batch_name_reads_back_witness :
  BatchProcessing.frequencyToNote Approx.log2_approx 262 = "c4"
  /\ noteToMidi (BatchProcessing.frequencyToNote Approx.log2_approx 262)
     = Math_round (12 * Approx.log2_approx (262 / 440)) + 69.
Proof.
assert (E : BatchProcessing.frequencyToNote Approx.log2_approx 262 = "c4")
  by (vm_compute; reflexivity).
split; [exact E|].
apply (batch_name_reads_back_as_key Approx.log2_approx 262).
rewrite E. discriminate.
Defined.

End PitchNameFacts.

Module SingleNameFacts.
Import JS MidiExport.
Local Open Scope string_scope.
Local Open Scope list_scope.
Local Open Scope Z_scope.

Lemma Qfloor_plus_Z x z : Qfloor (x + inject_Z z) = Qfloor x + z.
Proof.
apply QFacts.Qfloor_unique.
- rewrite inject_Z_plus. pose proof (Qfloor_le x).
  revert H. generalize (inject_Z (Qfloor x)) (inject_Z z). intros a b H. lra.
- rewrite <- Z.add_assoc, (Z.add_comm z 1), Z.add_assoc, inject_Z_plus.
  pose proof (Qlt_floor x). 
  revert H. generalize (inject_Z (Qfloor x + 1)) (inject_Z z). intros a b H. lra.
Qed.

Lemma Qtrunc_nonneg x : (0 <= x)%Q -> Qtrunc x = Qfloor x.
Proof.
intros H. unfold Qtrunc. apply Qle_bool_iff in H. now rewrite H.
Qed.

(** For a dividend that is not negative, [h % 12] is what is left of [h]
    above the last multiple of 12. *)
Lemma js_rem_12 h :
  (0 <= h)%Q ->
  let q := Qfloor (h / 12) in
  0 <= q
  /\ (js_rem h 12 == h - 12 * inject_Z q)%Q
  /\ (0 <= js_rem h 12)%Q /\ (js_rem h 12 < 12)%Q.
Proof.
intros H q.
assert (Hd : (0 <= h / 12)%Q).
{ unfold Qdiv. apply Qmult_le_0_compat; [exact H|discriminate]. }
assert (Hq : 0 <= q).
{ unfold q. change 0 with (Qfloor 0). now apply Qfloor_resp_le. }
assert (Er : (js_rem h 12 == h - 12 * inject_Z q)%Q).
{ unfold js_rem. rewrite Qtrunc_nonneg by exact Hd. reflexivity. }
split; [exact Hq|]. split; [exact Er|].
pose proof (Qfloor_le (h / 12)) as H1.
pose proof (Qlt_floor (h / 12)) as H2.
fold q in H1, H2. rewrite inject_Z_plus in H2.
change (inject_Z 1) with 1%Q in H2.
assert (E : (h / 12 == h * (1 # 12))%Q) by (unfold Qdiv; reflexivity).
rewrite E in H1, H2. rewrite Er.
revert H1 H2. generalize (inject_Z q). intros a H1 H2.
split; lra.
Qed.

Lemma Math_round_split h :
  (0 <= h)%Q ->
  Math_round h = 12 * Qfloor (h / 12) + Math_round (js_rem h 12)
  /\ 0 <= Math_round (js_rem h 12) <= 12.
Proof.
intros H. destruct (js_rem_12 h H) as (Hq & Er & H0 & H12).
split.
- unfold Math_round.
  rewrite Z.add_comm, <- Qfloor_plus_Z. apply Qfloor_comp.
  rewrite Er, inject_Z_mult. change (inject_Z 12) with 12%Q. ring.
- apply QFacts.Math_round_bounds.
  + exact H0.
  + apply Qlt_le_weak. exact H12.
Qed.

Lemma clamp_12 note :
  0 <= note <= 12 ->
  Z.rem (Z.rem note 12 + 12) 12 = (if note =? 12 then 0 else note).
Proof.
intros H. destruct (note =? 12) eqn:E.
- apply Z.eqb_eq in E. subst. reflexivity.
- apply Z.eqb_neq in E.
  rewrite (Z.rem_small note 12) by lia.
  rewrite Z.rem_mod_nonneg by lia.
  replace (note + 12) with (note + 1 * 12) by lia.
  rewrite Z_mod_plus_full. apply Z.mod_small. lia.
Qed.

Lemma clamp_nonneg z : 0 <= z -> Z.rem (Z.rem z 12 + 12) 12 = z mod 12.
Proof.
intros H. rewrite (Z.rem_mod_nonneg z 12) by lia.
pose proof (Z.mod_pos_bound z 12 ltac:(lia)).
rewrite Z.rem_mod_nonneg by lia.
replace (z mod 12 + 12) with (z mod 12 + 1 * 12) by lia.
rewrite Z_mod_plus_full. apply Z.mod_small. lia.
Qed.

Section Single.
Variable Math_log2 : Q -> Q.
Variable Math_pow : Q -> Q -> Q.

Let halfSteps (freq : Q) : Q :=
  (12 * Math_log2 (freq / AudioToStrudel.c0 Math_pow))%Q.

Lemma single_name_parts freq :
  Qltb freq 50 = false -> (0 <= halfSteps freq)%Q ->
  let slip := if Math_round (js_rem (halfSteps freq) 12) =? 12 then 12 else 0 in
  noteToMidi (AudioToStrudel.frequencyToNote Math_log2 Math_pow freq)
  = Math_round (halfSteps freq) + 12 - slip
  /\ AudioToStrudel.frequencyToPitchClass Math_log2 Math_pow freq
     = Math_round (halfSteps freq) mod 12
  /\ noteToMidi (AudioToStrudel.frequencyToNote Math_log2 Math_pow freq) mod 12
     = Math_round (halfSteps freq) mod 12.
Proof.
intros Hf Hh slip.
unfold AudioToStrudel.frequencyToNote, AudioToStrudel.frequencyToPitchClass.
rewrite Hf. fold (halfSteps freq). unfold Math_floor.
destruct (Math_round_split _ Hh) as (Es & Hr).
destruct (js_rem_12 _ Hh) as (Hq & _).
set (q := Qfloor (halfSteps freq / 12)) in *.
set (note := Math_round (js_rem (halfSteps freq) 12)) in *.
assert (Hk : noteToMidi (nth (Z.to_nat (Z.rem (Z.rem note 12 + 12) 12))
                             AudioToStrudel.noteNames "undefined"
                         ++ string_of_Z q)%string
             = Math_round (halfSteps freq) + 12 - slip).
{ rewrite clamp_12 by exact Hr.
  rewrite (PitchNameFacts.noteToMidi_name _ (if note =? 12 then 0 else note)).
  - unfold slip. destruct (note =? 12) eqn:E; lia.
  - apply PitchNameFacts.noteNames_lookup.
    destruct (note =? 12) eqn:E; [lia|]. apply Z.eqb_neq in E. lia.
  - exact Hq. }
split; [exact Hk|]. split.
- apply clamp_nonneg. lia.
- rewrite Hk. unfold slip. destruct (note =? 12).
  + replace (Math_round (halfSteps freq) + 12 - 12)
      with (Math_round (halfSteps freq)) by lia. reflexivity.
  + replace (Math_round (halfSteps freq) + 12 - 0)
      with (Math_round (halfSteps freq) + 1 * 12) by lia.
    apply Z_mod_plus_full.
Qed.
End Single.

(** X9: on the single-file page, with h = 12 * log2 (freq / c0) the half
    steps above C0 (not negative, for a frequency of 50 or more), the
    name that [frequencyToNote] gives reads back as the key number
    round h + 12 of the nearest semitone, except when the remainder
    [h % 12] rounds up to 12: then the name is that of the C one octave
    too low.  In both cases the pitch class of the name is the one that
    [frequencyToPitchClass] counts in the histogram. *)
Theorem single_name_key_and_octave_slip
        (Math_log2 : Q -> Q) (Math_pow : Q -> Q -> Q) (freq : Q) :
  let h := (12 * Math_log2 (freq / AudioToStrudel.c0 Math_pow))%Q in
  let slip := if Math_round (js_rem h 12) =? 12 then 12 else 0 in
  Qltb freq 50 = false -> (0 <= h)%Q ->
  noteToMidi (AudioToStrudel.frequencyToNote Math_log2 Math_pow freq)
  = Math_round h + 12 - slip
  /\ AudioToStrudel.frequencyToPitchClass Math_log2 Math_pow freq
     = Math_round h mod 12
  /\ noteToMidi (AudioToStrudel.frequencyToNote Math_log2 Math_pow freq) mod 12
     = Math_round h mod 12.
Proof. intros h slip. exact (single_name_parts Math_log2 Math_pow freq). Qed.

(** 515 Hz is a third of a semitone below the C of 523.25 Hz, key 72:
    the name is "c4", key 60. *)
Lemma single_name_slip_witness :
  let h := (12 * Approx.log2_approx (515 / AudioToStrudel.c0 Approx.pow_approx))%Q in
  let slip := if Math_round (js_rem h 12) =? 12 then 12 else 0 in
  AudioToStrudel.frequencyToNote Approx.log2_approx Approx.pow_approx 515 = "c4"
  /\ Math_round h = 60 /\ slip = 12
  /\ noteToMidi (AudioToStrudel.frequencyToNote Approx.log2_approx Approx.pow_approx 515)
     = Math_round h + 12 - slip.
Proof.
intros h slip.
split; [vm_compute; reflexivity|].
split; [vm_compute; reflexivity|].
split; [vm_compute; reflexivity|].
assert (Hf : Qltb 515 50 = false) by reflexivity.
assert (Hh : (0 <= h)%Q).
{ apply Qle_bool_iff. vm_compute. reflexivity. }
exact (proj1 (single_name_key_and_octave_slip
                Approx.log2_approx Approx.pow_approx 515 Hf Hh)).
Defined.

End SingleNameFacts.

(** ** Counting loops *)

Module RangeFacts.
Import JS.
Local Open Scope Z_scope.

Lemma range_from_unit fuel : forall i stop,
  fuel = Z.to_nat (stop - i) ->
  range_from fuel i stop 1 = map (fun k => i + Z.of_nat k) (seq 0 fuel).
Proof.
induction fuel as [|k IH]; intros i stop Hf; [reflexivity|].
cbn [range_from]. assert (E : (i <? stop) = true) by (apply Z.ltb_lt; lia).
rewrite E. cbn [seq map]. f_equal; [lia|].
rewrite (IH (i + 1) stop) by lia.
rewrite <- seq_shift, map_map. apply map_ext. intros a. lia.
Qed.

(** [for (i = 0; i < n; i++)] runs [n] rounds, with [i] from 0 to [n - 1]. *)
Lemma for_range_count n :
  for_range 0 n 1 = map Z.of_nat (seq 0 (Z.to_nat n)).
Proof.
unfold for_range. rewrite (range_from_unit _ 0 n) by (f_equal; lia).
replace (n - 0) with n by lia. apply map_ext. intros a. lia.
Qed.

Lemma for_range_length n : List.length (for_range 0 n 1) = Z.to_nat n.
Proof. now rewrite for_range_count, length_map, length_seq. Qed.

Lemma for_range_nth n i :
  (i < Z.to_nat n)%nat -> nth_error (for_range 0 n 1) i = Some (Z.of_nat i).
Proof.
intros H. rewrite for_range_count.
rewrite nth_error_map, nth_error_seq.
assert (E : (i <? Z.to_nat n)%nat = true) by (apply Nat.ltb_lt; exact H).
rewrite E. reflexivity.
Qed.

End RangeFacts.

(** ** Transposition and the chord table *)

Module ChordFacts.
Import JS MidiExport ChordExtraction.
Local Open Scope string_scope.
Local Open Scope list_scope.
Local Open Scope Z_scope.

(** [((z % 12) + 12) % 12] is the remainder that is never negative. *)
Lemma clamp_mod z : Z.rem (Z.rem z 12 + 12) 12 = z mod 12.
Proof.
pose proof (Z.quot_rem' z 12) as E.
pose proof (Z.rem_bound_abs z 12 ltac:(lia)) as B.
rewrite Z.rem_mod_nonneg by lia.
rewrite E at 2.
replace (12 * (z ÷ 12) + Z.rem z 12)
  with (Z.rem z 12 + 12 + (z ÷ 12 - 1) * 12) by lia.
now rewrite Z_mod_plus_full.
Qed.

Lemma span_class_digits ds :
  digits1 ds = true -> BatchProcessing.span_class ds = (EmptyString, ds).
Proof.
destruct ds as [|d r]; [discriminate|].
cbn [digits1 all_digits BatchProcessing.span_class]. intros H.
apply andb_true_iff in H as [H _].
unfold is_digit in H. apply andb_true_iff in H as [H1 H2].
apply Z.leb_le in H1. apply Z.leb_le in H2.
unfold BatchProcessing.in_class_a_g_s.
replace (97 <=? code d) with false by (symmetry; apply Z.leb_gt; lia).
replace (code d =? 115) with false by (symmetry; apply Z.eqb_neq; lia).
reflexivity.
Qed.

Lemma matchNote_name name ds :
  In name noteNames -> digits1 ds = true ->
  matchNote (name ++ ds)%string = Some (name, ds).
Proof.
intros Hn Hd. unfold matchNote.
pose proof (span_class_digits ds Hd) as Hs.
unfold noteNames, AudioToStrudel.noteNames in Hn. cbn [In] in Hn.
repeat (destruct Hn as [<-|Hn];
        [cbn [String.append BatchProcessing.span_class];
         repeat match goal with
         | |- context [BatchProcessing.in_class_a_g_s ?c] =>
             let v := eval vm_compute in (BatchProcessing.in_class_a_g_s c) in
             change (BatchProcessing.in_class_a_g_s c) with v; cbv iota
         end;
         rewrite Hs; cbn [String.eqb Ascii.eqb negb andb]; rewrite Hd; reflexivity|]).
destruct Hn.
Qed.

Lemma indexOf_noteNames name :
  In name noteNames ->
  0 <= BatchProcessing.indexOf noteNames name < 12
  /\ nth (Z.to_nat (BatchProcessing.indexOf noteNames name)) noteNames "undefined"
     = name.
Proof.
intros Hn. unfold noteNames, AudioToStrudel.noteNames in Hn. cbn [In] in Hn.
repeat (destruct Hn as [<-|Hn]; [vm_compute; intuition discriminate|]).
destruct Hn.
Qed.

Lemma noteToMidi_noteNames name octave :
  In name noteNames -> 0 <= octave ->
  noteToMidi (name ++ string_of_Z octave)%string
  = BatchProcessing.indexOf noteNames name + (octave + 1) * 12.
Proof.
intros Hn Ho. destruct (indexOf_noteNames name Hn) as (Hi & En).
apply PitchNameFacts.noteToMidi_name; [|exact Ho].
rewrite <- En at 1. apply PitchNameFacts.noteNames_lookup. exact Hi.
Qed.

Lemma transposeNote_name name octave semitones :
  In name noteNames -> 0 <= octave ->
  let newIndex := BatchProcessing.indexOf noteNames name + semitones in
  transposeNote (name ++ string_of_Z octave)%string semitones
  = (nth (Z.to_nat (newIndex mod 12)) noteNames "undefined"
     ++ string_of_Z (octave + newIndex / 12))%string.
Proof.
intros Hn Ho newIndex. unfold transposeNote.
rewrite (matchNote_name name _ Hn (DecimalFacts.digits1_string_of_Z octave Ho)).
destruct (indexOf_noteNames name Hn) as (Hi & _).
replace (BatchProcessing.indexOf noteNames name =? -1) with false
  by (symmetry; apply Z.eqb_neq; lia).
rewrite clamp_mod, (DecimalFacts.parseInt_string_of_Z octave Ho). reflexivity.
Qed.

Lemma transposeNote_key name octave semitones :
  In name noteNames -> 0 <= octave ->
  12 <= noteToMidi (name ++ string_of_Z octave)%string + semitones ->
  noteToMidi (transposeNote (name ++ string_of_Z octave)%string semitones)
  = noteToMidi (name ++ string_of_Z octave)%string + semitones.
Proof.
intros Hn Ho Hk.
rewrite (transposeNote_name name octave semitones Hn Ho).
rewrite (noteToMidi_noteNames name octave Hn Ho) in *.
destruct (indexOf_noteNames name Hn) as (Hi & _).
set (newIndex := BatchProcessing.indexOf noteNames name + semitones) in *.
pose proof (Z.mod_pos_bound newIndex 12 ltac:(lia)) as Hm.
pose proof (Z.div_mod newIndex 12 ltac:(lia)) as Hd.
assert (Hq : 0 <= octave + newIndex / 12).
{ assert (- octave <= newIndex / 12); [|lia].
  apply Z.div_le_lower_bound; lia. }
rewrite (PitchNameFacts.noteToMidi_name _ (newIndex mod 12)).
- lia.
- apply PitchNameFacts.noteNames_lookup. exact Hm.
- exact Hq.
Qed.

(** X10: [transposeNote] moves a note of the segmenter's spelling by the
    given number of semitones, octave digits included: read back as a
    key number, the result is the key number of the note plus the
    semitones, as long as that is 12 or more (octave 0 and up). *)
Theorem transposeNote_shifts_the_key name octave semitones :
  In name noteNames -> 0 <= octave ->
  12 <= noteToMidi (name ++ string_of_Z octave)%string + semitones ->
  noteToMidi (transposeNote (name ++ string_of_Z octave)%string semitones)
  = noteToMidi (name ++ string_of_Z octave)%string + semitones.
Proof. exact (transposeNote_key name octave semitones). Qed.

Lemma transposeNote_shifts_witness :
  In "a" noteNames /\ 0 <= 2
  /\ 12 <= noteToMidi ("a" ++ string_of_Z 2)%string + -9
  /\ transposeNote ("a" ++ string_of_Z 2)%string (-9) = "c2"
  /\ noteToMidi (transposeNote ("a" ++ string_of_Z 2)%string (-9))
     = noteToMidi ("a" ++ string_of_Z 2)%string + -9.
Proof.
assert (H1 : In "a" noteNames) by (vm_compute; tauto).
assert (H2 : 0 <= 2) by lia.
assert (H3 : 12 <= noteToMidi ("a" ++ string_of_Z 2)%string + -9)
  by (vm_compute; discriminate).
split; [exact H1|]. split; [exact H2|]. split; [exact H3|].
split; [vm_compute; reflexivity|].
apply (transposeNote_shifts_the_key "a" 2 (-9) H1 H2 H3).
Defined.


(** *** The chord table in a key *)

Definition tableKeys (table : list ChordTemplate) : list (list Z) :=
  map (fun t => map noteToMidi (t_notes t)) table.

(** X11: for each of the 24 labels that [detectKey] can return, the chord
    table of [extractChords] is the template table moved into that key:
    every note of every chord is shifted by the interval from C to the
    key (from A, in minor), and the first chord carries the name of the
    key. *)
Theorem chord_table_follows_detected_key i :
  (i < 12)%nat ->
  let major := nth i AudioToStrudel.keyNames "undefined" in
  let minor := (major ++ "m")%string in
  getKeyTransposition "C" major = Z.of_nat i
  /\ tableKeys (transposedChords major)
     = map (map (fun k => k + Z.of_nat i)) (tableKeys majorChordTemplates)
  /\ option_map t_name (hd_error (transposedChords major)) = Some major
  /\ getKeyTransposition "Am" minor = Z.of_nat i - 9
  /\ tableKeys (transposedChords minor)
     = map (map (fun k => k + (Z.of_nat i - 9))) (tableKeys minorChordTemplates)
  /\ option_map t_name (hd_error (transposedChords minor)) = Some minor.
Proof.
intros H.
do 12 (destruct i as [|i]; [vm_compute; repeat apply conj; reflexivity|]).
lia.
Qed.

Lemma chord_table_witness :
  (2 < 12)%nat
  /\ tableKeys (transposedChords "D") 
     = [[50; 54; 57]; [52; 55; 59]; [54; 57; 61]; [55; 59; 62]; [57; 61; 64]; [59; 62; 66]]
  /\ tableKeys (transposedChords "D")
     = map (map (fun k => k + 2)) (tableKeys majorChordTemplates).
Proof.
assert (H : (2 < 12)%nat) by lia.
split; [exact H|]. split; [vm_compute; reflexivity|].
exact (proj1 (proj2 (chord_table_follows_detected_key 2 H))).
Defined.

(** X12: for the keys of the parameter panel, the transposition is the
    pitch class of the key for the twelve major keys and for the seven
    minor keys of one spelling; for the five minor keys of two spellings
    ("C#m/Dbm" and the like) the root is not found and the transposition
    is that of C minor. *)
Theorem panel_keys_transposition i :
  (i < 12)%nat ->
  let major := nth i MUSICAL_KEYS "undefined" in
  let minor := nth (12 + i) MUSICAL_KEYS "undefined" in
  isMinorKey major = false /\ isMinorKey minor = true
  /\ getKeyTransposition "C" major = Z.of_nat i
  /\ getKeyTransposition "Am" minor
     = (if includes minor "/" then 0 else Z.of_nat i) - 9
  /\ (includes minor "/" = true -> transposedChords minor = transposedChords "Cm").
Proof.
intros H.
do 12 (destruct i as [|i];
       [vm_compute; repeat apply conj; try reflexivity; discriminate|]).
lia.
Qed.

Lemma panel_keys_witness :
  (1 < 12)%nat
  /\ nth (12 + 1) MUSICAL_KEYS "undefined" = "C#m/Dbm"
  /\ keyRoot "C#m/Dbm" = "C#m"
  /\ getKeyTransposition "Am" (nth (12 + 1) MUSICAL_KEYS "undefined")
     = (if includes (nth (12 + 1) MUSICAL_KEYS "undefined") "/" then 0 else 1) - 9.
Proof.
assert (H : (1 < 12)%nat) by lia.
split; [exact H|]. split; [reflexivity|]. split; [reflexivity|].
exact (proj1 (proj2 (proj2 (proj2 (panel_keys_transposition 1 H))))).
Defined.

(** *** The chords of a clip *)

Lemma js_rem_bounds x y :
  (0 <= x)%Q -> (0 < y)%Q -> (0 <= js_rem x y)%Q /\ (js_rem x y < y)%Q.
Proof.
intros Hx Hy.
assert (Hd : (0 <= x / y)%Q).
{ unfold Qdiv. apply Qmult_le_0_compat; [exact Hx|].
  apply Qlt_le_weak. apply Qinv_lt_0_compat. exact Hy. }
unfold js_rem. rewrite SingleNameFacts.Qtrunc_nonneg by exact Hd.
assert (E : (x == (x / y) * y)%Q).
{ field. intros E. rewrite E in Hy. revert Hy. apply Qlt_irrefl. }
pose proof (Qfloor_le (x / y)) as H1.
pose proof (Qlt_floor (x / y)) as H2.
rewrite inject_Z_plus in H2. change (inject_Z 1) with 1%Q in H2.
set (q := (x / y)%Q) in *. set (f := inject_Z (Qfloor q)) in *.
assert (E' : (x - y * f == y * (q - f))%Q) by (rewrite E at 1; ring).
rewrite E'. split.
- apply Qmult_le_0_compat; [apply Qlt_le_weak; exact Hy|lra].
- rewrite <- (Qmult_1_r y) at 2. apply Qmult_lt_l; [exact Hy|lra].
Qed.

Lemma segmentEnergy_nonneg segment : (0 <= segmentEnergy segment)%Q.
Proof.
unfold segmentEnergy.
apply (JSFacts.fold_left_invariant (fun e => (0 <= e)%Q)); [|lra].
intros e x He. pose proof (Qabs_nonneg x). lra.
Qed.

Lemma transposedChords_length key :
  6 <= len (transposedChords key) <= 7.
Proof.
unfold transposedChords, len. rewrite length_map.
destruct (isMinorKey key); cbn; lia.
Qed.

Lemma chordIndex_in_table key energy :
  (0 <= energy)%Q ->
  (Z.to_nat (Math_floor (js_rem (energy * 1000)
                                (inject_Z (len (transposedChords key)))))
   < List.length (transposedChords key))%nat.
Proof.
intros He. pose proof (transposedChords_length key) as Hl.
set (n := len (transposedChords key)) in *.
assert (Hn : (0 < inject_Z n)%Q).
{ change 0%Q with (inject_Z 0). rewrite <- Zlt_Qlt. lia. }
assert (Hx : (0 <= energy * 1000)%Q) by lra.
destruct (js_rem_bounds _ _ Hx Hn) as (H0 & H1).
unfold Math_floor.
assert (B0 : 0 <= Qfloor (js_rem (energy * 1000) (inject_Z n))).
{ change 0 with (Qfloor 0). now apply Qfloor_resp_le. }
assert (B1 : Qfloor (js_rem (energy * 1000) (inject_Z n)) < n).
{ rewrite Zlt_Qlt. eapply Qle_lt_trans; [apply Qfloor_le|exact H1]. }
subst n. unfold len in *. lia.
Qed.

Lemma extractChords_shape data sampleRate duration key :
  let chords := extractChords data sampleRate duration key in
  len chords = Z.max 0 (Z.min 8 (Math_floor (duration / 2)))
  /\ forall i c, nth_error chords i = Some c ->
       chord_time c = inject_Z (2 * Z.of_nat i)
       /\ chord_duration c = Some 2%Q
       /\ In (mkTemplate (notes c) (name c)) (transposedChords key).
Proof.
intros chords. unfold chords, extractChords. split.
- unfold len. rewrite length_map, RangeFacts.for_range_length.
  change (inject_Z 2) with 2%Q. lia.
- intros i c Hc. rewrite nth_error_map in Hc.
  destruct (nth_error (for_range 0 _ 1) i) as [z|] eqn:Ez; [|discriminate].
  assert (Hi : (i < Z.to_nat (Z.min 8 (Math_floor (duration / inject_Z 2))))%nat).
  { rewrite <- RangeFacts.for_range_length. apply nth_error_Some. congruence. }
  rewrite (RangeFacts.for_range_nth _ _ Hi) in Ez. injection Ez as <-.
  cbn [option_map] in Hc. injection Hc as <-.
  cbn [chord_time chord_duration notes name].
  split; [f_equal; lia|]. split; [reflexivity|].
  match goal with
  | |- In {| t_notes := t_notes ?t; t_name := t_name ?t |} _ =>
      replace {| t_notes := t_notes t; t_name := t_name t |} with t
        by (destruct t; reflexivity)
  end.
  apply nth_In. apply chordIndex_in_table. apply segmentEnergy_nonneg.
Qed.

(** The keys that [analyzeAudio] hands to [extractChords]: a label of
    [detectKey], or a key of the parameter panel. *)
Definition keysOfTheAnalysis : list string :=
  flat_map (fun i => [nth i AudioToStrudel.keyNames "undefined";
                      (nth i AudioToStrudel.keyNames "undefined" ++ "m")%string])
           (seq 0 12)
  ++ MUSICAL_KEYS.

(** X13: for a key that [detectKey] can return or that the parameter
    panel offers, [extractChords] returns one chord for each full two
    seconds of the clip, eight at most and none for a clip shorter than
    two seconds (or of negative duration); the chord of index i starts
    at 2 i seconds and lasts 2 seconds, and it is always a row of the
    chord table of the key: the index computed from the energy of the
    segment never leaves the table. *)
Theorem extractChords_count_and_rows data sampleRate duration key :
  In key keysOfTheAnalysis ->
  let chords := extractChords data sampleRate duration key in
  len chords = Z.max 0 (Z.min 8 (Math_floor (duration / 2)))
  /\ forall i c, nth_error chords i = Some c ->
       chord_time c = inject_Z (2 * Z.of_nat i)
       /\ chord_duration c = Some 2%Q
       /\ In (mkTemplate (notes c) (name c)) (transposedChords key).
Proof. intros _. exact (extractChords_shape data sampleRate duration key). Qed.

(** A clip of eight samples and eight and a half seconds, in D. *)
Lemma extractChords_witness :
  In "D" keysOfTheAnalysis
  /\ map name (extractChords [1 # 2; 1 # 3; 1 # 7; 1; 1; 1 # 5; 0; 1]%Q
                             8 (17 # 2) "D")
     = ["Bm"; "F#m"; "D"; "A"]
  /\ len (extractChords [1 # 2; 1 # 3; 1 # 7; 1; 1; 1 # 5; 0; 1]%Q 8 (17 # 2) "D")
     = Z.max 0 (Z.min 8 (Math_floor ((17 # 2) / 2))).
Proof.
assert (K : In "D" keysOfTheAnalysis) by (vm_compute; tauto).
split; [exact K|]. split; [vm_compute; reflexivity|].
exact (proj1 (extractChords_count_and_rows
                [1 # 2; 1 # 3; 1 # 7; 1; 1; 1 # 5; 0; 1]%Q 8 (17 # 2) "D" K)).
Defined.

End ChordFacts.

(** ** The waveform of the display *)

Module WaveformFacts.
Import JS ChordExtraction.
Local Open Scope list_scope.
Local Open Scope Q_scope.

Lemma fold_Qmax_upper r : forall x,
  x <= fold_left Qmax r x /\ Forall (fun v => v <= fold_left Qmax r x) r.
Proof.
induction r as [|y r IH]; intros x; cbn [fold_left].
- split; [lra|constructor].
- destruct (IH (Qmax x y)) as (H1 & H2).
  pose proof (Q.le_max_l x y). pose proof (Q.le_max_r x y).
  split; [lra|]. constructor; [lra|exact H2].
Qed.

Lemma fold_Qmax_attained r : forall x,
  Exists (fun v => v == fold_left Qmax r x) (x :: r).
Proof.
induction r as [|y r IH]; intros x; cbn [fold_left].
- left. reflexivity.
- specialize (IH (Qmax x y)).
  inversion IH as [? ? H|? ? H]; subst.
  + destruct (Q.max_spec x y) as [[_ E]|[_ E]].
    * right. left. rewrite <- H. symmetry. exact E.
    * left. rewrite <- H. symmetry. exact E.
  + right. right. exact H.
Qed.

Lemma Math_max_spec a maxVal :
  Math_max a = Some maxVal ->
  Forall (fun v => v <= maxVal) a /\ Exists (fun v => v == maxVal) a.
Proof.
destruct a as [|x r]; [discriminate|]. cbn [Math_max]. intros [= <-].
destruct (fold_Qmax_upper r x) as (H1 & H2).
split; [constructor; assumption|apply fold_Qmax_attained].
Qed.

Lemma segmentEnergy_zero segment :
  Forall (fun x => x == 0) segment -> segmentEnergy segment == 0.
Proof.
unfold segmentEnergy. intros H.
apply (JSFacts.fold_left_invariant_in (fun e => e == 0)); [|reflexivity].
intros e x Hx He. rewrite Forall_forall in H. specialize (H x Hx).
rewrite He, H. reflexivity.
Qed.

Lemma Forall_firstn_skipn {A} (P : A -> Prop) (a : list A) n :
  Forall P a -> Forall P (firstn n a) /\ Forall P (skipn n a).
Proof.
intros H. rewrite <- (firstn_skipn n a) in H.
now apply Forall_app in H.
Qed.

Lemma slice_Forall {A} (P : A -> Prop) (a : list A) from to :
  Forall P a -> Forall P (slice a from to).
Proof.
intros H. unfold slice.
apply Forall_firstn_skipn. now apply Forall_firstn_skipn.
Qed.

Lemma blockMeans_nonneg (data : list Q) (blockSize : Z) (l : list Z) :
  (0 < blockSize)%Z ->
  Forall (fun v => 0 <= v)
    (map (fun sum => sum / inject_Z blockSize)
       (map (fun i => segmentEnergy
                        (slice data (blockSize * i) (blockSize * i + blockSize)))
            l)).
Proof.
intros Hb. rewrite map_map. apply Forall_map. apply Forall_forall. intros i _.
apply Qle_shift_div_l.
- change 0 with (inject_Z 0). rewrite <- Zlt_Qlt. exact Hb.
- pose proof (ChordFacts.segmentEnergy_nonneg
                (slice data (blockSize * i) (blockSize * i + blockSize))).
  lra.
Qed.

Lemma waveform_parts data :
  ((len data < 200)%Z -> extractWaveformData data = None)
  /\ (Forall (fun x => x == 0) data -> extractWaveformData data = None)
  /\ (forall w, extractWaveformData data = Some w ->
        List.length w = 200%nat
        /\ Forall (fun v => 0 <= v /\ v <= 1) w
        /\ Exists (fun v => v == 1) w).
Proof.
unfold extractWaveformData.
set (blockSize := (len data / 200)%Z).
set (sums := map _ (for_range 0 200 1)).
set (filteredData := map (fun sum => sum / inject_Z blockSize) sums).
assert (Hlen : List.length filteredData = 200%nat).
{ unfold filteredData, sums. rewrite !length_map.
  apply RangeFacts.for_range_length. }
split; [|split].
- intros H. replace blockSize with 0%Z; [reflexivity|].
  unfold blockSize. symmetry. apply Z.div_small. unfold len in *. lia.
- intros Hz. destruct (blockSize =? 0)%Z; [reflexivity|].
  destruct (Math_max filteredData) as [maxVal|] eqn:Em; [|reflexivity].
  destruct (Math_max_spec _ _ Em) as (_ & Hex).
  apply Exists_exists in Hex. destruct Hex as (v & Hv & Ev).
  unfold filteredData, sums in Hv. rewrite map_map in Hv.
  apply in_map_iff in Hv. destruct Hv as (i & Ei & _).
  assert (E0 : maxVal == 0).
  { rewrite <- Ev, <- Ei.
    rewrite (segmentEnergy_zero _ (slice_Forall _ data _ _ Hz)).
    unfold Qdiv. ring. }
  apply Qeq_bool_iff in E0. rewrite E0. reflexivity.
- intros w Hw. destruct (blockSize =? 0)%Z eqn:Eb; [discriminate|].
  apply Z.eqb_neq in Eb.
  assert (Hb : (0 < blockSize)%Z).
  { assert (0 <= blockSize)%Z; [|lia].
    unfold blockSize. apply Z.div_pos; [unfold len|]; lia. }
  pose proof (blockMeans_nonneg data blockSize (for_range 0 200 1) Hb) as Hnn.
  fold sums in Hnn. fold filteredData in Hnn.
  clearbody filteredData.
  destruct (Math_max filteredData) as [maxVal|] eqn:Em; [|discriminate].
  destruct (Qeq_bool maxVal 0) eqn:E0; [discriminate|].
  injection Hw as <-. apply Qeq_bool_neq in E0.
  destruct (Math_max_spec _ _ Em) as (Hup & Hex).
  assert (Hpos : 0 < maxVal).
  { apply Exists_exists in Hex. destruct Hex as (v & Hv & Ev).
    rewrite Forall_forall in Hnn. specialize (Hnn v Hv).
    destruct (Qlt_le_dec 0 maxVal) as [H|H]; [exact H|].
    exfalso. apply E0. lra. }
  split; [now rewrite length_map|]. split.
  + apply Forall_map. apply Forall_forall. intros v Hv.
    rewrite Forall_forall in Hnn, Hup.
    specialize (Hnn v Hv). specialize (Hup v Hv). split.
    * apply Qle_shift_div_l; [exact Hpos|lra].
    * apply Qle_shift_div_r; [exact Hpos|lra].
  + apply Exists_exists in Hex. destruct Hex as (v & Hv & Ev).
    apply Exists_exists. exists (v / maxVal). split.
    * apply in_map_iff. exists v. split; [reflexivity|exact Hv].
    * rewrite Ev. field. exact E0.
Qed.

(** X14: [extractWaveformData] draws 200 block means of the magnitude,
    scaled by the largest of them: whenever it returns numbers they are
    200 values between 0 and 1 and one of them is 1.  It returns no
    numbers (200 times the result of 0 / 0) for a clip of fewer than 200
    samples and for a clip that is silent throughout. *)
Theorem waveform_is_normalised_or_undefined data :
  ((len data < 200)%Z -> extractWaveformData data = None)
  /\ (Forall (fun x => x == 0) data -> extractWaveformData data = None)
  /\ (forall w, extractWaveformData data = Some w ->
        List.length w = 200%nat
        /\ Forall (fun v => 0 <= v /\ v <= 1) w
        /\ Exists (fun v => v == 1) w).
Proof. exact (waveform_parts data). Qed.

End WaveformFacts.

(** ** The chords of the batch page *)

Module BatchChordFacts.
Import JS MidiExport BatchChords.
Local Open Scope string_scope.
Local Open Scope list_scope.
Local Open Scope Z_scope.

(** The row of the table that [generateChords] takes for a key. *)
Definition progressionOf (key : string) : list string :=
  match lookupProgression key chordProgressions with
  | Some p => p
  | None => ["C"; "Am"; "F"; "G"]
  end.

(** Three keys of the octave of middle C: a root, the minor or major
    third above it and the fifth, each folded back into the octave. *)
Definition isTriadInOctave4 (keys : list Z) : bool :=
  match keys with
  | [root; third; fifth] =>
      (60 <=? root) && (root <? 72)
      && ((third =? 60 + (root - 60 + 3) mod 12)
          || (third =? 60 + (root - 60 + 4) mod 12))
      && (fifth =? 60 + (root - 60 + 7) mod 12)
  | _ => false
  end.

Lemma progressionOf_cases key :
  In (progressionOf key) (["C"; "Am"; "F"; "G"] :: map snd chordProgressions).
Proof.
unfold progressionOf, chordProgressions. cbn [lookupProgression map snd].
repeat match goal with
| |- context [String.eqb key ?s] =>
    destruct (String.eqb key s); [cbn [In]; tauto|]
end.
left. reflexivity.
Qed.

Lemma progression_rows p chordDuration :
  In p (["C"; "Am"; "F"; "G"] :: map snd chordProgressions) ->
  len p = 4
  /\ map name (flat_map (chordOf p chordDuration) (for_range 0 (len p) 1))
     = filter (fun n => negb (ChordExtraction.includes n "b")) p
  /\ forallb isTriadInOctave4
       (map (fun c => map noteToMidi (notes c))
            (flat_map (chordOf p chordDuration) (for_range 0 (len p) 1)))
     = true.
Proof.
intros H. cbn [map snd chordProgressions In] in H.
repeat (destruct H as [<-|H];
        [split; [reflexivity|split; vm_compute; reflexivity]|]).
destruct H.
Qed.

Lemma chordOf_duration p chordDuration l :
  Forall (fun c => chord_duration c = Some chordDuration)
         (flat_map (chordOf p chordDuration) l).
Proof.
apply Forall_flat_map. apply Forall_forall. intros i _.
unfold chordOf. destruct (0 <=? _); repeat constructor.
Qed.

Lemma generateChords_parts noteList key :
  (len noteList < 4 -> generateChords noteList key = [])
  /\ (4 <= len noteList ->
      let lastNote := last noteList (mkNote EmptyString 0 None None) in
      let total := (time lastNote + num_or (duration lastNote) 0.25)%Q in
      let chords := generateChords noteList key in
      map name chords
      = filter (fun n => negb (ChordExtraction.includes n "b")) (progressionOf key)
      /\ forallb isTriadInOctave4 (map (fun c => map noteToMidi (notes c)) chords)
         = true
      /\ Forall (fun c => chord_duration c = Some (total / 4)%Q) chords).
Proof.
split.
- intros H. unfold generateChords. apply Z.ltb_lt in H. now rewrite H.
- intros H lastNote total chords. unfold chords, generateChords.
  fold (progressionOf key).
  apply Z.ltb_ge in H. rewrite H.
  fold lastNote. fold total.
  destruct (progression_rows (progressionOf key)
              (total / inject_Z (len (progressionOf key)))%Q
              (progressionOf_cases key)) as (Hl & Hn & Ht).
  split; [exact Hn|]. split; [exact Ht|].
  replace 4%Q with (inject_Z (len (progressionOf key))) by (now rewrite Hl).
  apply chordOf_duration.
Qed.

(** The keys that [analyzeAudioFile] hands to [generateChords]: a label
    of [detectKey], or a key of the parameter panel. *)
Definition keysOfThePage : list string :=
  flat_map (fun i => [BatchProcessing.keyLabel i;
                      (BatchProcessing.keyLabel i ++ "m")%string])
           (seq 0 12)
  ++ ChordExtraction.MUSICAL_KEYS.

(** X15: on the batch page, for a key that [detectKey] can return or
    that the parameter panel offers, [generateChords] gives no chords
    for fewer than four notes.  Otherwise it walks the four chord names
    of the row of the key (the row of C for a key that has none) and
    keeps those whose root it can spell: the names with a flat are
    dropped without a trace, so that the keys F, Cm and Dm get fewer
    than four chords.  Each chord kept is a major or minor triad folded
    into the octave of middle C, and lasts a quarter of the time at
    which the last note ends. *)
Theorem generateChords_rows_and_triads noteList key :
  In key keysOfThePage ->
  (len noteList < 4 -> generateChords noteList key = [])
  /\ (4 <= len noteList ->
      let lastNote := last noteList (mkNote EmptyString 0 None None) in
      let total := (time lastNote + num_or (duration lastNote) 0.25)%Q in
      let chords := generateChords noteList key in
      map name chords
      = filter (fun n => negb (ChordExtraction.includes n "b")) (progressionOf key)
      /\ forallb isTriadInOctave4 (map (fun c => map noteToMidi (notes c)) chords)
         = true
      /\ Forall (fun c => chord_duration c = Some (total / 4)%Q) chords).
Proof. intros _. exact (generateChords_parts noteList key). Qed.

Definition fourNotes : list Note :=
  [mkNote "c4" 0 (Some 1%Q) None; mkNote "e4" 1 (Some 1%Q) None;
   mkNote "g4" 2 (Some 1%Q) None; mkNote "c5" 3 (Some 1%Q) None].

Lemma generateChords_witness :
  In "F" keysOfThePage /\ 4 <= len fourNotes
  /\ progressionOf "F" = ["F"; "Dm"; "Bb"; "C"]
  /\ map name (generateChords fourNotes "F") = ["F"; "Dm"; "C"]
  /\ map name (generateChords fourNotes "F")
     = filter (fun n => negb (ChordExtraction.includes n "b")) (progressionOf "F").
Proof.
assert (K : In "F" keysOfThePage) by (vm_compute; tauto).
assert (H : 4 <= len fourNotes) by (vm_compute; discriminate).
split; [exact K|]. split; [exact H|]. split; [reflexivity|].
split; [vm_compute; reflexivity|].
exact (proj1 (proj2 (generateChords_rows_and_triads fourNotes "F" K) H)).
Defined.

End BatchChordFacts.

(** ** The pitch of a frame *)

Module PitchFacts.
Import JS QFacts.
Local Open Scope list_scope.
Local Open Scope Q_scope.

Section Scan.
Variable frame : list Q.

(** The round of the period loop, the same on both pages. *)
Definition periodStep (st : Q * Z) (period : Z) : Q * Z :=
  let corr := AudioToStrudel.autocorr frame period in
  if Qltb (fst st) corr then (corr, period) else st.

(** When the loop is left, either no period has beaten the first best
    value, or the best period is one of the periods tried, its
    correlation is the best value and beats the first one; and no period
    tried has a larger correlation. *)
Lemma periodScan_spec l : forall st,
  let r := fold_left periodStep l st in
  (r = st \/ (In (snd r) l /\ fst r = AudioToStrudel.autocorr frame (snd r)
              /\ fst st < fst r))
  /\ fst st <= fst r
  /\ (forall p, In p l -> AudioToStrudel.autocorr frame p <= fst r).
Proof.
induction l as [|x l IH]; intros st; cbn [fold_left].
- split; [left; reflexivity|]. split; [lra|]. intros p [].
- specialize (IH (periodStep st x)).
  cbv zeta in IH. destruct IH as (Hc & Hle & Hall).
  set (r := fold_left periodStep l (periodStep st x)) in *.
  assert (Hs : (periodStep st x = st /\ AudioToStrudel.autocorr frame x <= fst st)
               \/ (periodStep st x = (AudioToStrudel.autocorr frame x, x)
                   /\ fst st < AudioToStrudel.autocorr frame x)).
  { unfold periodStep. destruct (Qltb _ _) eqn:E.
    - right. split; [reflexivity|]. now apply Qltb_lt.
    - left. split; [reflexivity|]. now apply Qltb_ge. }
  destruct Hs as [(Es & Hx)|(Es & Hx)]; rewrite Es in *; cbn [fst snd] in *.
  + split; [|split].
    * destruct Hc as [Hc|(Hin & Hf & Hlt)]; [left; exact Hc|].
      right. split; [right; exact Hin|]. split; assumption.
    * exact Hle.
    * intros p [<-|Hp]; [lra|now apply Hall].
  + split; [|split].
    * right. destruct Hc as [Hc|(Hin & Hf & Hlt)].
      -- rewrite Hc. cbn [fst snd]. split; [left; reflexivity|].
         split; [reflexivity|exact Hx].
      -- split; [right; exact Hin|]. split; [exact Hf|lra].
    * lra.
    * intros p [<-|Hp]; [exact Hle|now apply Hall].
Qed.
End Scan.

Lemma floor_le_div sampleRate d :
  0 < d -> inject_Z (Math_floor (sampleRate / d)) * d <= sampleRate.
Proof.
intros Hd. unfold Math_floor.
pose proof (Qfloor_le (sampleRate / d)) as H.
apply (Qmult_le_compat_r _ _ d) in H; [|lra].
assert (E : sampleRate / d * d == sampleRate) by (field; lra).
lra.
Qed.

Lemma div_floor_lt sampleRate d :
  0 < d -> sampleRate < (inject_Z (Math_floor (sampleRate / d)) + 1) * d.
Proof.
intros Hd. unfold Math_floor.
pose proof (Qlt_floor (sampleRate / d)) as H.
rewrite inject_Z_plus in H. change (inject_Z 1) with 1 in H.
apply (Qmult_lt_compat_r _ _ d) in H; [|lra].
assert (E : sampleRate / d * d == sampleRate) by (field; lra).
lra.
Qed.

(** A period of the range gives a frequency above 80, and below 2000 at
    a sample rate of 1000 or more. *)
Lemma period_frequency sampleRate period :
  (0 < period)%Z ->
  (Math_floor (sampleRate / 1000) <= period)%Z ->
  (period < Math_floor (sampleRate / 80))%Z ->
  80 < sampleRate / inject_Z period
  /\ (1000 <= sampleRate -> sampleRate / inject_Z period < 2000).
Proof.
intros Hp Hlo Hhi.
assert (Hq : 0 < inject_Z period).
{ change 0 with (inject_Z 0). rewrite <- Zlt_Qlt. exact Hp. }
pose proof (floor_le_div sampleRate 80 ltac:(lra)) as H80.
pose proof (div_floor_lt sampleRate 1000 ltac:(lra)) as H1000.
assert (Hhi' : inject_Z period + 1 <= inject_Z (Math_floor (sampleRate / 80))).
{ change 1 with (inject_Z 1). rewrite <- inject_Z_plus, <- Zle_Qle. lia. }
assert (Hlo' : inject_Z (Math_floor (sampleRate / 1000)) <= inject_Z period).
{ rewrite <- Zle_Qle. exact Hlo. }
split.
- apply Qlt_shift_div_l; [exact Hq|].
  revert Hq H80 Hhi'. generalize (inject_Z period).
  generalize (inject_Z (Math_floor (sampleRate / 80))). intros a b Hq H80 Hhi'.
  lra.
- intros Hs. apply Qlt_shift_div_r; [exact Hq|].
  assert (H1 : 1 <= inject_Z period).
  { change 1 with (inject_Z 1). rewrite <- Zle_Qle. lia. }
  revert Hq H1000 Hlo' H1. generalize (inject_Z period).
  generalize (inject_Z (Math_floor (sampleRate / 1000))). intros a b Hq H1000 Hlo' H1.
  lra.
Qed.

Lemma single_pitch frame sampleRate :
  AudioToStrudel.detectPitch frame sampleRate = 0
  \/ exists period,
       (0 < period)%Z
       /\ (Math_floor (sampleRate / 1000) <= period < Math_floor (sampleRate / 80))%Z
       /\ AudioToStrudel.detectPitch frame sampleRate = sampleRate / inject_Z period
       /\ 0 < AudioToStrudel.autocorr frame period
       /\ (forall p,
             (Math_floor (sampleRate / 1000) <= p < Math_floor (sampleRate / 80))%Z ->
             AudioToStrudel.autocorr frame p <= AudioToStrudel.autocorr frame period)
       /\ 80 < AudioToStrudel.detectPitch frame sampleRate
       /\ (1000 <= sampleRate -> AudioToStrudel.detectPitch frame sampleRate < 2000).
Proof.
unfold AudioToStrudel.detectPitch.
set (minPeriod := Math_floor (sampleRate / 1000)).
set (maxPeriod := Math_floor (sampleRate / 80)).
fold (periodStep frame).
destruct (periodScan_spec frame (for_range minPeriod maxPeriod 1) (0, 0%Z))
  as (Hc & _ & Hall).
set (r := fold_left (periodStep frame) (for_range minPeriod maxPeriod 1) (0, 0%Z)) in *.
destruct (0 <? snd r)%Z eqn:E; [|left; reflexivity].
apply Z.ltb_lt in E. right.
destruct Hc as [Hc|(Hin & Hf & Hlt)]; [rewrite Hc in E; cbn in E; lia|].
apply JSFacts.for_range_bounds in Hin; [|lia].
exists (snd r). cbn [fst] in Hlt.
destruct (period_frequency sampleRate (snd r) E) as (H80 & H2000);
  [unfold minPeriod, maxPeriod in Hin; lia..|].
repeat apply conj; try assumption; try lia; try reflexivity.
- rewrite <- Hf. exact Hlt.
- intros p Hp. rewrite <- Hf. apply Hall.
  replace p with (minPeriod + (p - minPeriod) * 1)%Z by lia.
  apply JSFacts.for_range_complete; lia.
Qed.

(** X16: [detectPitch] of the single-file page returns 0 (no period
    gave a positive autocorrelation, or period 0 gave the largest), or
    the sample rate divided by a period of the search range whose
    autocorrelation is positive and is not exceeded by that of any other
    period of the range.  A frequency that is not 0 is above 80, and it
    is below 2000 when the sample rate is 1000 or more. *)
Theorem detectPitch_is_zero_or_best_period frame sampleRate :
  AudioToStrudel.detectPitch frame sampleRate = 0
  \/ exists period,
       (0 < period)%Z
       /\ (Math_floor (sampleRate / 1000) <= period < Math_floor (sampleRate / 80))%Z
       /\ AudioToStrudel.detectPitch frame sampleRate = sampleRate / inject_Z period
       /\ 0 < AudioToStrudel.autocorr frame period
       /\ (forall p,
             (Math_floor (sampleRate / 1000) <= p < Math_floor (sampleRate / 80))%Z ->
             AudioToStrudel.autocorr frame p <= AudioToStrudel.autocorr frame period)
       /\ 80 < AudioToStrudel.detectPitch frame sampleRate
       /\ (1000 <= sampleRate -> AudioToStrudel.detectPitch frame sampleRate < 2000).
Proof. exact (single_pitch frame sampleRate). Qed.

Lemma batch_pitch frame sampleRate :
  1000 <= sampleRate ->
  let frequency := BatchProcessing.detectPitch frame sampleRate in
  (frequency = 0
   \/ exists period,
        (Math_floor (sampleRate / 1000) <= period < Math_floor (sampleRate / 80))%Z
        /\ (2 * period < len frame)%Z
        /\ frequency = sampleRate / inject_Z period
        /\ 0 < AudioToStrudel.autocorr frame period
        /\ 80 < frequency /\ frequency < 2000)
  /\ (Qltb frequency 80 || Qltb 2000 frequency = true <-> frequency = 0).
Proof.
intros Hs frequency.
assert (Hmain :
  frequency = 0
  \/ exists period,
       (Math_floor (sampleRate / 1000) <= period < Math_floor (sampleRate / 80))%Z
       /\ (2 * period < len frame)%Z
       /\ frequency = sampleRate / inject_Z period
       /\ 0 < AudioToStrudel.autocorr frame period
       /\ 80 < frequency /\ frequency < 2000).
{ unfold frequency, BatchProcessing.detectPitch.
  set (minPeriod := Math_floor (sampleRate / 1000)).
  set (maxPeriod := Math_floor (sampleRate / 80)).
  set (stop := Z.min maxPeriod ((len frame + 1) / 2)).
  fold (periodStep frame).
  destruct (periodScan_spec frame (for_range minPeriod stop 1) (0, 0%Z))
    as (Hc & _ & _).
  set (r := fold_left (periodStep frame) (for_range minPeriod stop 1) (0, 0%Z)) in *.
  destruct (snd r =? 0)%Z eqn:E; [left; reflexivity|].
  apply Z.eqb_neq in E. right.
  destruct Hc as [Hc|(Hin & Hf & Hlt)]; [rewrite Hc in E; cbn in E; lia|].
  apply JSFacts.for_range_bounds in Hin; [|lia].
  assert (H1 : (1 <= minPeriod)%Z).
  { unfold minPeriod, Math_floor. change 1%Z with (Qfloor 1).
    apply Qfloor_resp_le. apply Qle_shift_div_l; lra. }
  assert (Hhalf : (2 * snd r < len frame)%Z).
  { assert (snd r < (len frame + 1) / 2)%Z by (unfold stop in Hin; lia).
    pose proof (Z.div_mod (len frame + 1) 2 ltac:(lia)).
    pose proof (Z.mod_pos_bound (len frame + 1) 2 ltac:(lia)). lia. }
  destruct (period_frequency sampleRate (snd r)) as (H80 & H2000);
    [unfold minPeriod, maxPeriod, stop in *; lia..|].
  exists (snd r). cbn [fst] in Hlt.
  repeat apply conj; try assumption; try reflexivity;
    try (unfold minPeriod, maxPeriod, stop in *; lia).
  - rewrite <- Hf. exact Hlt.
  - now apply H2000. }
split; [exact Hmain|]. split.
- intros Hf. destruct Hmain as [H0|(p & _ & _ & _ & _ & H80 & H2000)]; [exact H0|].
  exfalso. apply orb_true_iff in Hf. destruct Hf as [Hf|Hf]; apply Qltb_lt in Hf; lra.
- intros H0. rewrite H0. reflexivity.
Qed.

(** X17: at a sample rate of 1000 or more, [detectPitch] of the batch
    page returns 0 or a frequency strictly between 80 and 2000 that
    belongs to a period shorter than half the frame with a positive
    autocorrelation; so the band test that follows it in
    [analyzeAudioFile] rejects a frame exactly when no pitch was found. *)
Theorem batch_detectPitch_band frame sampleRate :
  1000 <= sampleRate ->
  let frequency := BatchProcessing.detectPitch frame sampleRate in
  (frequency = 0
   \/ exists period,
        (Math_floor (sampleRate / 1000) <= period < Math_floor (sampleRate / 80))%Z
        /\ (2 * period < len frame)%Z
        /\ frequency = sampleRate / inject_Z period
        /\ 0 < AudioToStrudel.autocorr frame period
        /\ 80 < frequency /\ frequency < 2000)
  /\ (Qltb frequency 80 || Qltb 2000 frequency = true <-> frequency = 0).
Proof. exact (batch_pitch frame sampleRate). Qed.

Lemma batch_detectPitch_witness :
  1000 <= 22050
  /\ Qred (BatchProcessing.detectPitch (firstn 2048 SegmenterFacts.tone441) 22050) = 441
  /\ (Qltb (BatchProcessing.detectPitch (firstn 2048 SegmenterFacts.tone441) 22050) 80
      || Qltb 2000 (BatchProcessing.detectPitch (firstn 2048 SegmenterFacts.tone441) 22050)
      = true
      <-> BatchProcessing.detectPitch (firstn 2048 SegmenterFacts.tone441) 22050 = 0).
Proof.
assert (H : 1000 <= 22050) by (apply Qle_bool_iff; reflexivity).
split; [exact H|]. split; [vm_compute; reflexivity|].
exact (proj2 (batch_detectPitch_band (firstn 2048 SegmenterFacts.tone441) 22050 H)).
Defined.

End PitchFacts.

(** ** The order of the notes of a melody *)

Module MelodyOrderFacts.
Import JS QFacts.
Local Open Scope list_scope.
Local Open Scope Q_scope.










(** *** The single-file page *)

Section Single.
Variable Math_sqrt : Q -> Q.
Variable Math_log2 : Q -> Q.
Variable Math_pow : Q -> Q -> Q.
Variable data : list Q.
Variable sampleRate : Q.
Variable params : AudioToStrudel.AnalysisParams.
Hypothesis rate_positive : 0 < sampleRate.

Let least := AudioToStrudel.minDuration params.




End Single.



(** *** Clips too short for one frame *)

Lemma no_offsets stop step : (stop <= 0)%Z -> for_range 0 stop step = [].
Proof.
intros H. unfold for_range.
replace (Z.to_nat (stop - 0)) with 0%nat by lia. reflexivity.
Qed.

Lemma short_clip_parts (Math_sqrt Math_log2 : Q -> Q) (Math_pow : Q -> Q -> Q)
      (data : list Q) (sampleRate : Q) (params : AudioToStrudel.AnalysisParams) :
  (len data <= 4096)%Z ->
  AudioToStrudel.extractMelody Math_sqrt Math_log2 Math_pow data sampleRate params
  = ([], repeat 0 12)
  /\ AudioToStrudel.analyzedMelody Math_sqrt Math_log2 Math_pow data sampleRate params
     = []
  /\ AudioToStrudel.detectedKey Math_sqrt Math_log2 Math_pow data sampleRate params
     = (if AudioToStrudel.autoDetectKey params
        then "C"%string else AudioToStrudel.targetKey params).
Proof.
intros H.
assert (E : AudioToStrudel.extractMelody Math_sqrt Math_log2 Math_pow
              data sampleRate params = ([], repeat 0 12)).
{ unfold AudioToStrudel.extractMelody, AudioToStrudel.segmentedNotes,
    AudioToStrudel.scanFrames, AudioToStrudel.frameOffsets.
  rewrite no_offsets by (unfold AudioToStrudel.frameSize; lia).
  reflexivity. }
split; [exact E|]. split.
- unfold AudioToStrudel.analyzedMelody. rewrite E. cbn [fst].
  destruct (AudioToStrudel.doQuantizeNotes params); [|reflexivity].
  unfold AudioToStrudel.quantizeNotes.
  destruct (String.eqb _ _); reflexivity.
- unfold AudioToStrudel.detectedKey. rewrite E. cbn [snd].
  destruct (AudioToStrudel.autoDetectKey params); [|reflexivity].
  vm_compute. reflexivity.
Qed.

(** X19: a clip of 4096 samples or fewer (93 ms at 44.1 kHz) is shorter
    than one analysis frame: on the single-file page it yields no note
    at all, whatever it holds, an all-zero histogram, and, with
    automatic key detection, the key C. *)
Theorem short_clip_has_no_notes
        (Math_sqrt Math_log2 : Q -> Q) (Math_pow : Q -> Q -> Q)
        (data : list Q) (sampleRate : Q) (params : AudioToStrudel.AnalysisParams) :
  (len data <= 4096)%Z ->
  AudioToStrudel.extractMelody Math_sqrt Math_log2 Math_pow data sampleRate params
  = ([], repeat 0 12)
  /\ AudioToStrudel.analyzedMelody Math_sqrt Math_log2 Math_pow data sampleRate params
     = []
  /\ AudioToStrudel.detectedKey Math_sqrt Math_log2 Math_pow data sampleRate params
     = (if AudioToStrudel.autoDetectKey params
        then "C"%string else AudioToStrudel.targetKey params).
Proof.
exact (short_clip_parts Math_sqrt Math_log2 Math_pow data sampleRate params).
Qed.

Lemma short_clip_witness :
  (len (SegmenterFacts.impulseTrain 50 81 46) <= 4096)%Z
  /\ len (SegmenterFacts.impulseTrain 50 81 46) = 4096%Z
  /\ AudioToStrudel.extractMelody
       Approx.sqrt_approx Approx.log2_approx Approx.pow_approx
       (SegmenterFacts.impulseTrain 50 81 46) 22050
       AudioToStrudel.defaultAnalysisParams
     = ([], repeat 0 12).
Proof.
assert (H : (len (SegmenterFacts.impulseTrain 50 81 46) <= 4096)%Z)
  by (vm_compute; discriminate).
split; [exact H|]. split; [vm_compute; reflexivity|].
exact (proj1 (short_clip_has_no_notes
                Approx.sqrt_approx Approx.log2_approx Approx.pow_approx
                (SegmenterFacts.impulseTrain 50 81 46) 22050
                AudioToStrudel.defaultAnalysisParams H)).
Defined.

End MelodyOrderFacts.

(** ** The key with the best correlation *)

Module KeyMatchFacts.
Import JS QFacts.
Local Open Scope string_scope.
Local Open Scope list_scope.
Local Open Scope Q_scope.

Section Scan.
(** The correlation and the label of the major and of the minor
    candidate of each round. *)
Variable corr : nat -> bool -> Q.
Variable label : nat -> bool -> string.

(** The round of the loop of [detectKey], the same on both pages. *)
Definition candidateStep (st : string * option Q) (i : nat) : string * option Q :=
  let st1 := if AudioToStrudel.exceeds (corr i false) (snd st)
             then (label i false, Some (corr i false)) else st in
  if AudioToStrudel.exceeds (corr i true) (snd st1)
  then (label i true, Some (corr i true)) else st1.

(** [x] does not beat the best correlation of the state. *)
Definition settled (x : Q) (st : string * option Q) : Prop :=
  AudioToStrudel.exceeds x (snd st) = false.

Lemma settled_Some x (k : string) c : settled x (k, Some c) <-> x <= c.
Proof. unfold settled. cbn. apply Qltb_ge. Qed.

Lemma settled_raise x (k' : string) c st :
  settled x st -> AudioToStrudel.exceeds c (snd st) = true -> settled x (k', Some c).
Proof.
destruct st as (k0 & [b|]); unfold settled; cbn; intros Hx Hc; [|discriminate].
apply Qltb_ge in Hx. apply Qltb_lt in Hc. apply Qltb_ge. lra.
Qed.

Lemma candidateStep_spec st i :
  let r := candidateStep st i in
  (r = st \/ exists minor, r = (label i minor, Some (corr i minor)))
  /\ settled (corr i false) r /\ settled (corr i true) r
  /\ (forall x, settled x st -> settled x r).
Proof.
unfold candidateStep.
destruct (AudioToStrudel.exceeds (corr i false) (snd st)) eqn:E1.
- cbn [snd].
  destruct (AudioToStrudel.exceeds (corr i true) (Some (corr i false))) eqn:E2.
  + cbn in E2. apply Qltb_lt in E2.
    split; [right; exists true; reflexivity|].
    split; [apply (settled_Some _ EmptyString); lra|].
    split; [apply (settled_Some _ EmptyString); lra|].
    intros x Hx. apply (settled_Some _ EmptyString).
    apply (settled_raise x EmptyString _ _ Hx) in E1.
    apply settled_Some in E1. lra.
  + cbn in E2. apply Qltb_ge in E2.
    split; [right; exists false; reflexivity|].
    split; [apply (settled_Some _ EmptyString); lra|].
    split; [apply (settled_Some _ EmptyString); lra|].
    intros x Hx. apply (settled_raise x _ _ _ Hx E1).
- destruct (AudioToStrudel.exceeds (corr i true) (snd st)) eqn:E2.
  + split; [right; exists true; reflexivity|].
    split; [apply (settled_raise _ _ _ _ E1 E2)|].
    split; [apply (settled_Some _ EmptyString); lra|].
    intros x Hx. apply (settled_raise x _ _ _ Hx E2).
  + split; [left; reflexivity|]. split; [exact E1|]. split; [exact E2|].
    intros x Hx. exact Hx.
Qed.

Lemma candidateScan_spec l : forall st,
  let r := fold_left candidateStep l st in
  (r = st \/ exists i minor, In i l /\ r = (label i minor, Some (corr i minor)))
  /\ (forall i minor, In i l -> settled (corr i minor) r)
  /\ (forall x, settled x st -> settled x r).
Proof.
induction l as [|i l IH]; intros st; cbn [fold_left].
- split; [left; reflexivity|]. split; [intros i minor []|auto].
- destruct (candidateStep_spec st i) as (Hc & Hf & Ht & Hm).
  destruct (IH (candidateStep st i)) as (Hc' & Hall & Hm').
  split; [|split].
  + destruct Hc' as [Hc'|(j & minor & Hj & Hr)].
    * rewrite Hc'. destruct Hc as [Hc|(minor & Hr)]; [left; exact Hc|].
      right. exists i, minor. split; [left; reflexivity|exact Hr].
    * right. exists j, minor. split; [right; exact Hj|exact Hr].
  + intros j minor [<-|Hj]; [|now apply Hall].
    apply Hm'. destruct minor; assumption.
  + intros x Hx. apply Hm'. now apply Hm.
Qed.

(** From the first state, which holds no correlation yet, the loop over
    twelve rounds ends on a candidate that no candidate beats. *)
Lemma best_candidate :
  exists i minor,
    (i < 12)%nat
    /\ fst (fold_left candidateStep (seq 0 12) ("C", None)) = label i minor
    /\ forall j minor', (j < 12)%nat -> corr j minor' <= corr i minor.
Proof.
destruct (candidateScan_spec (seq 0 12) ("C", None)) as (Hc & Hall & _).
destruct Hc as [Hc|(i & minor & Hi & Hr)].
- exfalso. specialize (Hall 0%nat false ltac:(cbn; tauto)).
  rewrite Hc in Hall. discriminate Hall.
- exists i, minor. apply in_seq in Hi. split; [lia|].
  rewrite Hr in *. split; [reflexivity|].
  intros j minor' Hj.
  apply (settled_Some _ (label i minor)). apply Hall. apply in_seq. lia.
Qed.
End Scan.

Definition singleCorr (hist : list Q) (i : nat) (minor : bool) : Q :=
  AudioToStrudel.correlate (AudioToStrudel.normalize hist)
    (AudioToStrudel.normalize
       (AudioToStrudel.shifted
          (if minor then AudioToStrudel.minorProfile
           else AudioToStrudel.majorProfile) i)).

Definition singleLabel (i : nat) (minor : bool) : string :=
  if minor then nth i AudioToStrudel.keyNames "undefined" ++ "m"
  else nth i AudioToStrudel.keyNames "undefined".

Definition batchCorr (notes : list Note) (i : nat) (minor : bool) : Q :=
  let counts := BatchProcessing.chromaCounts notes in
  AudioToStrudel.correlate (skipn i counts ++ firstn i counts)
    (if minor then BatchProcessing.KEY_PROFILES_minor
     else BatchProcessing.KEY_PROFILES_major).

Definition batchLabel (i : nat) (minor : bool) : string :=
  if minor then BatchProcessing.keyLabel i ++ "m" else BatchProcessing.keyLabel i.

Lemma best_match_parts :
  (forall hist, exists i minor,
      (i < 12)%nat
      /\ AudioToStrudel.detectKey hist = singleLabel i minor
      /\ forall j minor', (j < 12)%nat ->
           singleCorr hist j minor' <= singleCorr hist i minor)
  /\ (forall notes, exists i minor,
      (i < 12)%nat
      /\ BatchProcessing.detectKey notes = batchLabel i minor
      /\ forall j minor', (j < 12)%nat ->
           batchCorr notes j minor' <= batchCorr notes i minor).
Proof.
split.
- intros hist.
  exact (best_candidate (singleCorr hist) singleLabel).
- intros notes.
  exact (best_candidate (batchCorr notes) batchLabel).
Qed.

(** X20: on both pages [detectKey] returns the label of one of its 24
    candidates (twelve roots, major and minor), and the correlation of
    that candidate with the histogram is the largest of the 24: no
    candidate correlates better than the key that is returned. *)
Theorem detectKey_is_a_best_match :
  (forall hist, exists i minor,
      (i < 12)%nat
      /\ AudioToStrudel.detectKey hist = singleLabel i minor
      /\ forall j minor', (j < 12)%nat ->
           singleCorr hist j minor' <= singleCorr hist i minor)
  /\ (forall notes, exists i minor,
      (i < 12)%nat
      /\ BatchProcessing.detectKey notes = batchLabel i minor
      /\ forall j minor', (j < 12)%nat ->
           batchCorr notes j minor' <= batchCorr notes i minor).
Proof. exact best_match_parts. Qed.

End KeyMatchFacts.

(** ** The grid of the quantizer *)

Module GridFacts.
Import JS AudioToStrudel QFacts.
Local Open Scope string_scope.
Local Open Scope list_scope.
Local Open Scope Q_scope.

(** [q] is [n] moved onto the grid of step [g]: the same name and
    velocity, an onset that is a whole number of steps and at most half
    a step away, a duration (where there is one that is not 0) of one
    step or more, a whole number of them. *)
Definition onGrid (g : Q) (n q : Note) : Prop :=
  note q = note n /\ velocity q = velocity n
  /\ (exists k : Z, time q == inject_Z k * g
                    /\ Qabs (time q - time n) <= g * (1 # 2))
  /\ match duration n with
     | Some d =>
         if Qeq_bool d 0 then duration q = None
         else exists (m : Z) dq, (1 <= m)%Z /\ duration q = Some dq
                                 /\ dq == inject_Z m * g
     | None => duration q = None
     end.

Lemma round_near x :
  inject_Z (Math_round x) <= x + (1 # 2) /\ x - (1 # 2) < inject_Z (Math_round x).
Proof.
unfold Math_round.
pose proof (Qfloor_le (x + (1 # 2))) as H1.
pose proof (Qlt_floor (x + (1 # 2))) as H2.
rewrite inject_Z_plus in H2. change (inject_Z 1) with 1 in H2.
revert H1 H2. generalize (inject_Z (Qfloor (x + (1 # 2)))). intros r H1 H2.
split; lra.
Qed.

Lemma quantizeNote_onGrid g n : 0 < g -> onGrid g n (quantizeNote g n).
Proof.
intros Hg. unfold onGrid, quantizeNote. cbn [note velocity time duration].
split; [reflexivity|]. split; [reflexivity|]. split.
- exists (Math_round (time n / g)). split; [reflexivity|].
  destruct (round_near (time n / g)) as (H1 & H2).
  assert (E : time n == time n / g * g) by (field; lra).
  set (x := time n / g) in *.
  revert H1 H2. generalize (inject_Z (Math_round x)). intros r H1 H2.
  apply Qabs_Qle_condition. split.
  + assert (H : 0 <= (r - x + (1 # 2)) * g).
    { apply Qmult_le_0_compat; lra. }
    rewrite E.
    assert (E' : (r - x + (1 # 2)) * g == r * g - x * g + g * (1 # 2)) by ring.
    lra.
  + assert (H : 0 <= (x + (1 # 2) - r) * g).
    { apply Qmult_le_0_compat; lra. }
    rewrite E.
    assert (E' : (x + (1 # 2) - r) * g == x * g + g * (1 # 2) - r * g) by ring.
    lra.
- destruct (duration n) as [d|]; [|reflexivity].
  destruct (Qeq_bool d 0); [reflexivity|].
  set (m := Math_round (d / g)).
  exists (Z.max 1 m). eexists. split; [lia|]. split; [reflexivity|].
  destruct (Q.max_spec g (inject_Z m * g)) as [(Hlt & ->)|(Hle & ->)].
  + assert (Hm : (1 < m)%Z).
    { rewrite Zlt_Qlt. change (inject_Z 1) with 1.
      assert (H : 0 < (inject_Z m - 1) * g) by lra.
      destruct (Qlt_le_dec 1 (inject_Z m)) as [H1|H1]; [exact H1|].
      exfalso.
      assert (H2 : (inject_Z m - 1) * g <= 0).
      { assert (H3 : 0 <= (1 - inject_Z m) * g)
          by (apply Qmult_le_0_compat; lra).
        lra. }
      lra. }
    rewrite Z.max_r by lia. reflexivity.
  + assert (Hm : (m <= 1)%Z).
    { rewrite Zle_Qle. change (inject_Z 1) with 1.
      destruct (Qlt_le_dec 1 (inject_Z m)) as [H1|H1]; [|exact H1].
      exfalso.
      assert (H : 0 < (inject_Z m - 1) * g)
        by (apply Qmult_lt_0_compat; lra).
      lra. }
    rewrite Z.max_l by lia. change (inject_Z 1) with 1. ring.
Qed.

Lemma quantizeNotes_grid notes tempo quantizeValue :
  0 < tempo -> quantizeValue <> "none" ->
  0 < gridSize tempo quantizeValue
  /\ Forall2 (onGrid (gridSize tempo quantizeValue))
             notes (quantizeNotes notes tempo quantizeValue).
Proof.
intros Ht Hq.
pose proof (QuantizerFacts.gridSize_pos tempo quantizeValue Ht) as Hg.
split; [exact Hg|]. unfold quantizeNotes.
destruct (String.eqb_spec quantizeValue "none") as [E|_]; [contradiction|].
induction notes as [|n r IH]; cbn [map]; constructor; [|exact IH].
now apply quantizeNote_onGrid.
Qed.

Lemma grid_value_is_not_none quantizeValue :
  In quantizeValue (map fst quantizeMap) -> quantizeValue <> "none".
Proof.
cbn [map fst quantizeMap In].
intros [<-|[<-|[<-|[<-|[]]]]]; discriminate.
Qed.

(** X21: with a positive tempo and one of the four grid values of
    [quantizeMap], [quantizeNotes] puts every note on a grid whose step
    is positive: the onset becomes a whole number of steps, at most half
    a step away from where it was; a duration becomes a whole number of
    steps, one at least; the name and the velocity are kept, and so is
    the number and the order of the notes. *)
Theorem quantizeNotes_puts_notes_on_the_grid notes tempo quantizeValue :
  0 < tempo -> In quantizeValue (map fst quantizeMap) ->
  0 < gridSize tempo quantizeValue
  /\ Forall2 (onGrid (gridSize tempo quantizeValue))
             notes (quantizeNotes notes tempo quantizeValue).
Proof.
intros Ht Hq.
exact (quantizeNotes_grid notes tempo quantizeValue Ht
         (grid_value_is_not_none quantizeValue Hq)).
Qed.

Lemma quantizeNotes_grid_witness :
  0 < 120 /\ In "1/16" (map fst quantizeMap)
  /\ gridSize 120 "1/16" == 1 # 8
  /\ Forall2 (onGrid (gridSize 120 "1/16"))
             QuantizerFacts.sampleNotes
             (quantizeNotes QuantizerFacts.sampleNotes 120 "1/16").
Proof.
assert (H1 : 0 < 120) by reflexivity.
assert (H2 : In "1/16" (map fst quantizeMap)) by (cbn; tauto).
split; [exact H1|]. split; [exact H2|]. split; [reflexivity|].
exact (proj2 (quantizeNotes_puts_notes_on_the_grid
                QuantizerFacts.sampleNotes 120 "1/16" H1 H2)).
Defined.

Lemma stored_melody_grid (Math_sqrt Math_log2 : Q -> Q) (Math_pow : Q -> Q -> Q)
      (data : list Q) (sampleRate : Q) (params : AnalysisParams) :
  doQuantizeNotes params = true ->
  quantizeValue params <> "none" ->
  autoDetectTempo params = true \/ (0 < targetTempo params)%Z ->
  let tempo := inject_Z (estimatedTempo Math_sqrt data sampleRate params) in
  let g := gridSize tempo (quantizeValue params) in
  0 < g
  /\ Forall2 (onGrid g)
       (fst (extractMelody Math_sqrt Math_log2 Math_pow data sampleRate params))
       (analyzedMelody Math_sqrt Math_log2 Math_pow data sampleRate params).
Proof.
intros Hq Hv Ht tempo g.
assert (Hpos : 0 < tempo).
{ unfold tempo, estimatedTempo. change 0 with (inject_Z 0). rewrite <- Zlt_Qlt.
  destruct (autoDetectTempo params).
  - pose proof (TempoFacts.scoring_bounds Math_sqrt data sampleRate). lia.
  - destruct Ht as [Ht|Ht]; [discriminate|exact Ht]. }
unfold analyzedMelody. rewrite Hq.
exact (quantizeNotes_grid _ tempo (quantizeValue params) Hpos Hv).
Qed.

(** X25: when quantization is switched on with one of the four grid
    values of [quantizeMap], and the tempo is detected (it is then
    between 60 and 200) or set to a positive value, the melody that
    [analyzeAudio] stores is the melody of [extractMelody] put on the
    grid of that tempo, note for note. *)
Theorem stored_melody_is_on_the_grid
        (Math_sqrt Math_log2 : Q -> Q) (Math_pow : Q -> Q -> Q)
        (data : list Q) (sampleRate : Q) (params : AnalysisParams) :
  doQuantizeNotes params = true ->
  In (quantizeValue params) (map fst quantizeMap) ->
  autoDetectTempo params = true \/ (0 < targetTempo params)%Z ->
  let tempo := inject_Z (estimatedTempo Math_sqrt data sampleRate params) in
  let g := gridSize tempo (quantizeValue params) in
  0 < g
  /\ Forall2 (onGrid g)
       (fst (extractMelody Math_sqrt Math_log2 Math_pow data sampleRate params))
       (analyzedMelody Math_sqrt Math_log2 Math_pow data sampleRate params).
Proof.
intros Hq Hv.
exact (stored_melody_grid Math_sqrt Math_log2 Math_pow data sampleRate params Hq
         (grid_value_is_not_none _ Hv)).
Qed.

Lemma stored_melody_witness :
  doQuantizeNotes defaultAnalysisParams = true
  /\ In (quantizeValue defaultAnalysisParams) (map fst quantizeMap)
  /\ (autoDetectTempo defaultAnalysisParams = true
      \/ (0 < targetTempo defaultAnalysisParams)%Z)
  /\ (let tempo := inject_Z (estimatedTempo Approx.sqrt_approx
                               SegmenterFacts.tone441 22050 defaultAnalysisParams) in
      let g := gridSize tempo (quantizeValue defaultAnalysisParams) in
      0 < g
      /\ Forall2 (onGrid g)
           (fst (extractMelody Approx.sqrt_approx Approx.log2_approx
                   Approx.pow_approx SegmenterFacts.tone441 22050
                   defaultAnalysisParams))
           (analyzedMelody Approx.sqrt_approx Approx.log2_approx
              Approx.pow_approx SegmenterFacts.tone441 22050
              defaultAnalysisParams)).
Proof.
assert (H1 : doQuantizeNotes defaultAnalysisParams = true) by reflexivity.
assert (H2 : In (quantizeValue defaultAnalysisParams) (map fst quantizeMap))
  by (cbn; tauto).
assert (H3 : autoDetectTempo defaultAnalysisParams = true
             \/ (0 < targetTempo defaultAnalysisParams)%Z)
  by (left; reflexivity).
split; [exact H1|]. split; [exact H2|]. split; [exact H3|].
exact (stored_melody_is_on_the_grid
         Approx.sqrt_approx Approx.log2_approx Approx.pow_approx
         SegmenterFacts.tone441 22050 defaultAnalysisParams H1 H2 H3).
Defined.

End GridFacts.

(** ** Segmenter names in the pattern notation *)

Module PatternFacts.
Import JS AudioToStrudel.
Local Open Scope string_scope.
Local Open Scope list_scope.
Local Open Scope Z_scope.

Lemma toLowerCase_digits ds : all_digits ds = true -> toLowerCase ds = ds.
Proof.
induction ds as [|d r IH]; [reflexivity|].
cbn [all_digits toLowerCase]. intros H. apply andb_true_iff in H as [Hd Hr].
rewrite (IH Hr). f_equal.
unfold lower_char, is_upper. unfold is_digit in Hd.
apply andb_true_iff in Hd as [H1 H2]. apply Z.leb_le in H2.
replace (65 <=? code d) with false by (symmetry; apply Z.leb_gt; lia).
reflexivity.
Qed.

Lemma format_name name ds :
  In name noteNames -> digits1 ds = true ->
  formatNoteForStrudel (name ++ ds) = (name ++ ds)%string.
Proof.
intros Hn Hd.
assert (Ha : all_digits ds = true) by (destruct ds; [discriminate|exact Hd]).
pose proof (toLowerCase_digits ds Ha) as Hl.
destruct ds as [|d r]; [discriminate|].
assert (Hs : (Ascii.eqb d "#" || Ascii.eqb d "b") = false).
{ cbn [digits1 all_digits] in Hd. apply andb_true_iff in Hd as [Hd _].
  unfold is_digit in Hd. apply andb_true_iff in Hd as [H1 H2].
  apply Z.leb_le in H1. apply Z.leb_le in H2.
  apply orb_false_iff. split; apply Ascii.eqb_neq; intros ->;
    vm_compute in H1, H2; congruence. }
unfold noteNames in Hn. cbn [In] in Hn.
repeat (destruct Hn as [<-|Hn];
        [cbn [String.append formatNoteForStrudel];
         repeat match goal with
         | |- context [is_letter_a_g ?c] =>
             let v := eval vm_compute in (is_letter_a_g c) in
             change (is_letter_a_g c) with v; cbv iota
         | |- context [lower_char ?c] =>
             let v := eval vm_compute in (lower_char c) in
             change (lower_char c) with v
         end;
         try (rewrite Hs; cbn [andb]; rewrite Hd; reflexivity);
         try (change (Ascii.eqb "s" "#" || Ascii.eqb "s" "b") with false;
              cbn [andb digits1 all_digits];
              change (is_digit "s") with false; cbn [andb toLowerCase];
              change (lower_char "s") with "s"%char;
              cbn [toLowerCase] in Hl; rewrite Hl; reflexivity)|]).
destruct Hn.
Qed.

(** X22: [formatNoteForStrudel] leaves the names of the segmenters as
    they are: one of the twelve names [c], [cs], ... [b] followed by
    octave digits is already in the pattern notation, the sharps in [s]
    included. *)
Theorem formatNoteForStrudel_keeps_segmenter_names name octave :
  In name noteNames -> 0 <= octave ->
  formatNoteForStrudel (name ++ string_of_Z octave)
  = (name ++ string_of_Z octave)%string.
Proof.
intros Hn Ho. apply format_name; [exact Hn|].
now apply DecimalFacts.digits1_string_of_Z.
Qed.

Lemma formatNoteForStrudel_witness :
  In "as" noteNames /\ 0 <= 3
  /\ formatNoteForStrudel ("as" ++ string_of_Z 3) = "as3".
Proof.
assert (H1 : In "as" noteNames) by (vm_compute; tauto).
assert (H2 : 0 <= 3) by lia.
split; [exact H1|]. split; [exact H2|].
exact (formatNoteForStrudel_keeps_segmenter_names "as" 3 H1 H2).
Defined.

End PatternFacts.

(** ** The order of the notes on the batch page *)

Module BatchOrderFacts.
Import JS QFacts MelodyOrderFacts.
Local Open Scope list_scope.
Local Open Scope Q_scope.

Section Batch.
Variable Math_sqrt : Q -> Q.
Variable Math_log2 : Q -> Q.
Variable channelData : list Q.
Variable sampleRate : Q.
Variable bufferDuration : Q.
Variable params : AudioToStrudel.AnalysisParams.
Hypothesis rate_positive : 0 < sampleRate.
Hypothesis duration_covers :
  inject_Z (len channelData) / sampleRate <= bufferDuration.

Let least := BatchProcessing.minNoteDurationSec params.




End Batch.



End BatchOrderFacts.

(** ** The tempo of the exported file *)

Module TempoTrackFacts.
Import JS MidiExport ByteFacts.
Local Open Scope list_scope.
Local Open Scope Z_scope.

Lemma three_bytes us :
  0 <= us < 2 ^ 24 ->
  readBigEndian [band (sar us 16) 255; band (sar us 8) 255; band us 255] = us.
Proof.
intros H. unfold readBigEndian. cbn [fold_left].
rewrite !byte_of_shift by lia. rewrite band_255.
assert (H24 : 2 ^ 24 = 16777216) by reflexivity.
rewrite ToInt32_id by (assert (2 ^ 31 = 2147483648) by reflexivity; lia).
change (2 ^ 16) with 65536. change (2 ^ 8) with 256.
rewrite (Z.mod_small (us / 65536) 256)
  by (split; [apply Z.div_pos; lia|apply Z.div_lt_upper_bound; lia]).
pose proof (Z.div_mod us 256 ltac:(lia)) as E1.
pose proof (Z.div_mod (us / 256) 256 ltac:(lia)) as E2.
rewrite Z.div_div in E2 by lia. change (256 * 256) with 65536 in E2.
lia.
Qed.

Lemma tempo_event o :
  let microsecondsPerBeat := Math_round (60000000 / tempo o) in
  0 <= microsecondsPerBeat < 2 ^ 24 ->
  exists b1 b2 b3 rest,
    map ToUint8 (tempoTrack o)
    = MidiFileFacts.MTrk ++ [0; 0; 0; 34] ++ [0; 255; 81; 3; b1; b2; b3] ++ rest
    /\ readBigEndian [b1; b2; b3] = microsecondsPerBeat.
Proof.
intros us H. unfold tempoTrack. fold us.
rewrite MidiFileFacts.createMidiTrack_wrap.
unfold MidiFileFacts.trackData.
cbn [MidiFileFacts.wrapData delta d_data map flat_map].
change (writeVariableLengthQuantity 0) with [0].
set (b1 := ToUint8 (band (sar us 16) 255)).
set (b2 := ToUint8 (band (sar us 8) 255)).
set (b3 := ToUint8 (band us 255)).
exists b1, b2, b3. eexists. split.
- cbn [app]. unfold MidiFileFacts.MTrk. cbn [app].
  do 4 f_equal.
  change (len ?l) with 34. reflexivity.
- unfold b1, b2, b3. rewrite !MidiFileFacts.ToUint8_byte.
  + now apply three_bytes.
  + rewrite band_255. unfold isByte.
    pose proof (Z.mod_pos_bound (ToInt32 us) 256 ltac:(lia)). lia.
  + rewrite byte_of_shift by lia. unfold isByte.
    pose proof (Z.mod_pos_bound (ToInt32 us / 2 ^ 8) 256 ltac:(lia)). lia.
  + rewrite byte_of_shift by lia. unfold isByte.
    pose proof (Z.mod_pos_bound (ToInt32 us / 2 ^ 16) 256 ltac:(lia)). lia.
Qed.

(** X24: the body of the tempo track of the exported file is 34 bytes long and opens
    with the set-tempo event, FF 51 03 and three bytes; when the tempo
    is positive and the number of microseconds per beat,
    round (60000000 / tempo), fits three bytes (a tempo above 3.58 beats
    per minute), those bytes are that number, most significant byte
    first. *)
Theorem tempo_track_carries_the_tempo o :
  let microsecondsPerBeat := Math_round (60000000 / tempo o) in
  (0 < tempo o)%Q ->
  0 <= microsecondsPerBeat < 2 ^ 24 ->
  exists b1 b2 b3 rest,
    map ToUint8 (tempoTrack o)
    = MidiFileFacts.MTrk ++ [0; 0; 0; 34] ++ [0; 255; 81; 3; b1; b2; b3] ++ rest
    /\ readBigEndian [b1; b2; b3] = microsecondsPerBeat.
Proof. intros us _. exact (tempo_event o). Qed.

Lemma tempo_track_witness :
  (0 < tempo MidiExportFacts.optionsD)%Q
  /\ Math_round (60000000 / tempo MidiExportFacts.optionsD) = 500000
  /\ exists b1 b2 b3 rest,
    map ToUint8 (tempoTrack MidiExportFacts.optionsD)
    = MidiFileFacts.MTrk ++ [0; 0; 0; 34] ++ [0; 255; 81; 3; b1; b2; b3] ++ rest
    /\ readBigEndian [b1; b2; b3]
       = Math_round (60000000 / tempo MidiExportFacts.optionsD).
Proof.
assert (H : (0 < tempo MidiExportFacts.optionsD)%Q) by reflexivity.
split; [exact H|]. split; [vm_compute; reflexivity|].
apply (tempo_track_carries_the_tempo MidiExportFacts.optionsD H).
vm_compute. split; [discriminate|reflexivity].
Defined.

End TempoTrackFacts.

(** ** The note editor and the two exporters *)

Module EditorFacts.
Import JS MidiExport NoteEditor.
Local Open Scope string_scope.
Local Open Scope list_scope.
Local Open Scope Z_scope.

Lemma set_at_length {A} (a : list A) : forall i v,
  List.length (set_at a i v) = List.length a.
Proof.
induction a as [|x r IH]; intros [|i] v; cbn [set_at List.length];
  try reflexivity. now rewrite IH.
Qed.

Lemma set_at_same {A} (a : list A) : forall i v,
  (i < List.length a)%nat -> nth_error (set_at a i v) i = Some v.
Proof.
induction a as [|x r IH]; intros [|i] v H; cbn [List.length] in H;
  cbn [set_at nth_error]; try lia; [reflexivity|].
apply IH. lia.
Qed.

Lemma set_at_other {A} (a : list A) : forall i j v,
  j <> i -> nth_error (set_at a i v) j = nth_error a j.
Proof.
induction a as [|x r IH]; intros [|i] [|j] v H; cbn [set_at nth_error];
  try reflexivity; try congruence.
apply IH. congruence.
Qed.

(** What [moveNoteUp] does to the melody: the note at the index gets the
    raised name and keeps its numbers, the other notes stay. *)
Lemma moveNoteUp_melody melody index n :
  nth_error melody index = Some n ->
  exists melody',
    moveNoteUp melody index = Some melody'
    /\ List.length melody' = List.length melody
    /\ nth_error melody' index
       = Some (mkNote (raisedNote (note n)) (time n) (duration n) (velocity n))
    /\ (forall j, j <> index -> nth_error melody' j = nth_error melody j).
Proof.
intros Hn. unfold moveNoteUp, updateNote. rewrite Hn.
eexists. split; [reflexivity|]. split; [apply set_at_length|].
split; [|intros j Hj; now apply set_at_other].
apply set_at_same. apply nth_error_Some. congruence.
Qed.

Lemma digit_is_not_sharp d : is_digit d = true -> Ascii.eqb d "#" = false.
Proof.
intros H. apply Ascii.eqb_neq. intros ->. vm_compute in H. discriminate.
Qed.

(** The editor reads a letter and the digits of an octave as that
    letter, in upper case, and that octave. *)
Lemma editor_parse_natural c octave :
  AudioToStrudel.is_letter_a_g c = true -> 0 <= octave ->
  parseNote (String c (string_of_Z octave))
  = (toUpperCase (String c EmptyString), octave).
Proof.
intros Hc Ho. unfold parseNote. rewrite Hc.
pose proof (DecimalFacts.digits1_string_of_Z octave Ho) as Hd.
pose proof (DecimalFacts.parseInt_string_of_Z octave Ho) as Hp.
destruct (string_of_Z octave) as [|d r]; [discriminate|].
cbn [digits1] in Hd.
assert (Hdig : is_digit d = true).
{ cbn [all_digits] in Hd. apply andb_true_iff in Hd. tauto. }
rewrite (digit_is_not_sharp d Hdig), Hd, Hp. reflexivity.
Qed.

Lemma editor_parse_sharp c octave :
  AudioToStrudel.is_letter_a_g c = true -> 0 <= octave ->
  parseNote (String c (String "#" (string_of_Z octave)))
  = (toUpperCase (String c "#"), octave).
Proof.
intros Hc Ho. unfold parseNote. rewrite Hc.
pose proof (DecimalFacts.digits1_string_of_Z octave Ho) as Hd.
pose proof (DecimalFacts.parseInt_string_of_Z octave Ho) as Hp.
change (Ascii.eqb "#" "#") with true. cbv iota.
destruct (string_of_Z octave) as [|d r]; [discriminate|].
cbn [digits1] in Hd. rewrite Hd, Hp. reflexivity.
Qed.

Lemma export_of_sharp c octave :
  is_a_to_g c = true -> 0 <= octave ->
  noteToMidi (String c (String "#" (string_of_Z octave))) = 60.
Proof.
intros Hc Ho. unfold noteToMidi, MidiExport.parseNote. rewrite Hc.
change (is_s "#") with false. cbn [andb digits1 all_digits].
change (is_digit "#") with false. reflexivity.
Qed.

Lemma pattern_of_sharp c octave :
  AudioToStrudel.is_letter_a_g c = true -> 0 <= octave ->
  AudioToStrudel.formatNoteForStrudel (String c (String "#" (string_of_Z octave)))
  = String (lower_char c) (String "s" (string_of_Z octave)).
Proof.
intros Hc Ho. unfold AudioToStrudel.formatNoteForStrudel. rewrite Hc.
change (Ascii.eqb "#" "#") with true. cbn [orb andb].
rewrite (DecimalFacts.digits1_string_of_Z octave Ho). reflexivity.
Qed.

Lemma raised_sharp_letter c octave :
  In c ["c"; "d"; "f"; "g"; "a"]%char -> 0 <= octave ->
  let note := String c (string_of_Z octave) in
  raisedNote note = String (upper_char c) (String "#" (string_of_Z octave))
  /\ AudioToStrudel.formatNoteForStrudel (raisedNote note)
     = String c (String "s" (string_of_Z octave))
  /\ noteToMidi (AudioToStrudel.formatNoteForStrudel (raisedNote note))
     = noteToMidi note + 1
  /\ noteToMidi (raisedNote note) = 60.
Proof.
intros Hc Ho note.
assert (Hl : AudioToStrudel.is_letter_a_g c = true
             /\ AudioToStrudel.is_letter_a_g (upper_char c) = true
             /\ is_a_to_g (upper_char c) = true
             /\ lower_char (upper_char c) = c
             /\ BatchProcessing.indexOf NOTE_NAMES (String (upper_char c) EmptyString)
                <> len NOTE_NAMES - 1
             /\ at_index NOTE_NAMES
                  (BatchProcessing.indexOf NOTE_NAMES
                     (String (upper_char c) EmptyString) + 1)
                = String (upper_char c) "#"
             /\ exists pc, lookup (toLowerCase (String c EmptyString)) NOTE_MAP = Some pc
                           /\ lookup (toLowerCase (String c "s")) NOTE_MAP = Some (pc + 1)).
{ cbn [In] in Hc.
  repeat (destruct Hc as [<-|Hc];
          [repeat apply conj; try reflexivity; try (vm_compute; discriminate);
           eexists; split; reflexivity|]).
  destruct Hc. }
destruct Hl as (L1 & L2 & L3 & L4 & L5 & L6 & pc & P1 & P2).
assert (E : raisedNote note = String (upper_char c) (String "#" (string_of_Z octave))).
{ unfold raisedNote, note. rewrite (editor_parse_natural c octave L1 Ho).
  cbn [toUpperCase].
  apply Z.eqb_neq in L5. rewrite L5, L6. reflexivity. }
rewrite E. split; [reflexivity|].
rewrite (pattern_of_sharp _ octave L2 Ho), L4.
split; [reflexivity|]. split; [|exact (export_of_sharp _ octave L3 Ho)].
change (String c (String "s" (string_of_Z octave)))
  with (String c "s" ++ string_of_Z octave)%string.
unfold note.
change (String c (string_of_Z octave))
  with (String c EmptyString ++ string_of_Z octave)%string.
rewrite (PitchNameFacts.noteToMidi_name _ _ octave P2 Ho).
rewrite (PitchNameFacts.noteToMidi_name _ _ octave P1 Ho). lia.
Qed.

(** X26: moving a note c, d, f, g or a of the segmenter's spelling up by
    a semitone in the note editor stores the sharp in the editor's
    spelling (an upper-case letter and a sharp sign), keeps the numbers
    of the note and leaves the other notes alone.  The pattern generator
    reads the new name as the semitone above the old note; the
    sequence-file encoder does not read it at all, and exports key 60
    whatever the note was. *)
Theorem editor_sharp_is_exported_as_60 melody index n c octave :
  nth_error melody index = Some n ->
  note n = String c (string_of_Z octave) ->
  In c ["c"; "d"; "f"; "g"; "a"]%char -> 0 <= octave ->
  exists melody' n',
    moveNoteUp melody index = Some melody'
    /\ nth_error melody' index = Some n'
    /\ (forall j, j <> index -> nth_error melody' j = nth_error melody j)
    /\ time n' = time n /\ duration n' = duration n /\ velocity n' = velocity n
    /\ note n' = String (upper_char c) (String "#" (string_of_Z octave))
    /\ AudioToStrudel.formatNoteForStrudel (note n')
       = String c (String "s" (string_of_Z octave))
    /\ noteToMidi (AudioToStrudel.formatNoteForStrudel (note n'))
       = noteToMidi (note n) + 1
    /\ noteToMidi (note n') = 60.
Proof.
intros Hn En Hc Ho.
destruct (moveNoteUp_melody melody index n Hn) as (melody' & Hm & _ & Hi & Hj).
destruct (raised_sharp_letter c octave Hc Ho) as (R1 & R2 & R3 & R4).
rewrite <- En in R1, R2, R3, R4.
exists melody'. eexists. split; [exact Hm|]. split; [exact Hi|].
split; [exact Hj|]. cbn [time duration velocity note].
repeat apply conj; try reflexivity; assumption.
Qed.

Lemma editor_sharp_witness :
  exists melody' n',
    moveNoteUp [mkNote "d4" 0 (Some (1 # 2)%Q) None] 0 = Some melody'
    /\ nth_error melody' 0 = Some n'
    /\ (forall j, j <> 0%nat ->
          nth_error melody' j
          = nth_error [mkNote "d4" 0 (Some (1 # 2)%Q) None] j)
    /\ time n' = 0%Q /\ duration n' = Some (1 # 2)%Q /\ velocity n' = None
    /\ note n' = "D#4"
    /\ AudioToStrudel.formatNoteForStrudel (note n') = "ds4"
    /\ noteToMidi (AudioToStrudel.formatNoteForStrudel (note n'))
       = noteToMidi "d4" + 1
    /\ noteToMidi (note n') = 60.
Proof.
exact (editor_sharp_is_exported_as_60
         [mkNote "d4" 0 (Some (1 # 2)%Q) None] 0
         (mkNote "d4" 0 (Some (1 # 2)%Q) None) "d" 4
         eq_refl eq_refl (or_intror (or_introl eq_refl))
         ltac:(lia)).
Defined.

Lemma editor_misreads c suffix :
  AudioToStrudel.is_letter_a_g c = true ->
  parseNote (String c (String "s" suffix)) = ("C", 4)
  /\ raisedNote (String c (String "s" suffix)) = "C#4"
  /\ loweredNote (String c (String "s" suffix)) = "B3".
Proof.
intros Hc.
assert (E : parseNote (String c (String "s" suffix)) = ("C", 4)).
{ unfold parseNote. rewrite Hc. reflexivity. }
split; [exact E|]. unfold raisedNote, loweredNote. rewrite E.
split; reflexivity.
Qed.

(** X27: the note editor does not read the sharps of the segmenters: a
    letter followed by [s] (as in cs4, fs3, as5, whatever follows the
    [s]) counts as C4, so that moving such a note up gives C#4 and
    moving it down gives B3, whatever the note was. *)
Theorem editor_takes_segmenter_sharps_for_C4 c suffix :
  AudioToStrudel.is_letter_a_g c = true ->
  parseNote (String c (String "s" suffix)) = ("C", 4)
  /\ raisedNote (String c (String "s" suffix)) = "C#4"
  /\ loweredNote (String c (String "s" suffix)) = "B3".
Proof. exact (editor_misreads c suffix). Qed.

Lemma editor_takes_sharps_witness :
  AudioToStrudel.is_letter_a_g "f" = true
  /\ raisedNote "fs5" = "C#4" /\ loweredNote "fs5" = "B3".
Proof.
assert (H : AudioToStrudel.is_letter_a_g "f" = true) by reflexivity.
split; [exact H|].
exact (proj2 (editor_takes_segmenter_sharps_for_C4 "f" "5" H)).
Defined.

(** The editor reads its own spelling back. *)
Lemma editor_parse_own i octave :
  (i < 12)%nat -> 0 <= octave ->
  parseNote (nth i NOTE_NAMES "undefined" ++ string_of_Z octave)
  = (nth i NOTE_NAMES "undefined", octave).
Proof.
intros Hi Ho.
do 12 (destruct i as [|i];
       [cbn [nth NOTE_NAMES String.append];
        first [apply editor_parse_sharp; [reflexivity|exact Ho]
              |apply editor_parse_natural; [reflexivity|exact Ho]]|]).
lia.
Qed.

Lemma editor_moves i octave :
  (i < 12)%nat -> 0 <= octave ->
  raisedNote (nth i NOTE_NAMES "undefined" ++ string_of_Z octave)
  = (if (i =? 11)%nat
     then nth 0 NOTE_NAMES "undefined" ++ string_of_Z (Z.min (octave + 1) 7)
     else nth (S i) NOTE_NAMES "undefined" ++ string_of_Z octave)%string
  /\ loweredNote (nth i NOTE_NAMES "undefined" ++ string_of_Z octave)
     = (if (i =? 0)%nat
        then nth 11 NOTE_NAMES "undefined" ++ string_of_Z (Z.max (octave - 1) 2)
        else nth (pred i) NOTE_NAMES "undefined" ++ string_of_Z octave)%string.
Proof.
intros Hi Ho. unfold raisedNote, loweredNote.
rewrite (editor_parse_own i octave Hi Ho).
do 12 (destruct i as [|i]; [split; reflexivity|]).
lia.
Qed.

Lemma editor_round_trip i octave :
  (i < 12)%nat -> 0 <= octave ->
  let note := (nth i NOTE_NAMES "undefined" ++ string_of_Z octave)%string in
  (i <> 11%nat \/ 2 <= octave <= 6 -> loweredNote (raisedNote note) = note)
  /\ (i <> 0%nat \/ 3 <= octave <= 7 -> raisedNote (loweredNote note) = note).
Proof.
intros Hi Ho note. unfold note.
destruct (editor_moves i octave Hi Ho) as (Hu & Hd). rewrite Hu, Hd.
split; intros Hc.
- destruct (Nat.eqb_spec i 11) as [->|Hn].
  + assert (Hr : 2 <= octave <= 6) by (destruct Hc; [congruence|assumption]).
    destruct (editor_moves 0 (Z.min (octave + 1) 7) ltac:(lia) ltac:(lia))
      as (_ & ->).
    cbn [Nat.eqb]. do 2 f_equal. lia.
  + destruct (editor_moves (S i) octave ltac:(lia) Ho) as (_ & ->).
    reflexivity.
- destruct (Nat.eqb_spec i 0) as [->|Hn].
  + assert (Hr : 3 <= octave <= 7) by (destruct Hc; [congruence|assumption]).
    destruct (editor_moves 11 (Z.max (octave - 1) 2) ltac:(lia) ltac:(lia))
      as (-> & _).
    cbn [Nat.eqb]. do 2 f_equal. lia.
  + destruct (editor_moves (pred i) octave ltac:(lia) Ho) as (-> & _).
    replace (pred i =? 11)%nat with false by (symmetry; apply Nat.eqb_neq; lia).
    replace (S (pred i)) with i by lia. reflexivity.
Qed.

(** X28: in the editor's own spelling, moving a note up and then down,
    or down and then up, gives the note back, except at the ends of the
    editor's range: from B the octave above is capped at 7 and from C
    the octave below is held at 2, so that the round trip of a B needs
    an octave from 2 to 6 and that of a C an octave from 3 to 7. *)
Theorem editor_up_and_down_round_trip i octave :
  (i < 12)%nat -> 0 <= octave ->
  let note := (nth i NOTE_NAMES "undefined" ++ string_of_Z octave)%string in
  (i <> 11%nat \/ 2 <= octave <= 6 -> loweredNote (raisedNote note) = note)
  /\ (i <> 0%nat \/ 3 <= octave <= 7 -> raisedNote (loweredNote note) = note).
Proof. exact (editor_round_trip i octave). Qed.

Lemma editor_round_trip_witness :
  (11 < 12)%nat /\ 0 <= 6
  /\ raisedNote "B6" = "C7" /\ loweredNote (raisedNote "B6") = "B6"
  /\ raisedNote "B7" = "C7" /\ loweredNote (raisedNote "B7") = "B6".
Proof.
assert (H1 : (11 < 12)%nat) by lia.
assert (H2 : 0 <= 6) by lia.
split; [exact H1|]. split; [exact H2|]. split; [reflexivity|].
split; [|split; reflexivity].
assert (H3 : 11%nat <> 11%nat \/ 2 <= 6 <= 6) by (right; lia).
exact (proj1 (editor_up_and_down_round_trip 11 6 H1 H2) H3).
Defined.

End EditorFacts.
